(** * The tabular transform pipeline of [backend/routes/analytics.js]

    A shallow embedding of [processData] (filter, group and aggregate,
    sort) together with the fragment of ECMAScript it relies on.

    Data model.
    - A JavaScript number is an IEEE 754 binary64 value: Rocq's primitive
      [float].  [Number(string)] and [String(number)] are written out
      after ECMA-262 (StringToNumber, Number::toString) with exact
      integer arithmetic and correct rounding.
    - A JavaScript string is a sequence of code units; the embedding uses
      Rocq's [string], so code units are 8 bits wide.
    - A cell a row owns is a scalar: undefined, null, a boolean, a number
      or a string.  A filter value is a scalar or an array of scalars.
    - A row is a plain object used as a map from column names to cells;
      it is modelled by its own properties ([gmap string scalar]).
      Reading a column the row does not own looks the name up in
      [Object.prototype]: it yields the member of that name (a built-in
      function, or [Object.prototype] itself for [__proto__]) and
      undefined for every other name.  The twelve members are those of an
      unmodified [Object.prototype], and a built-in function prints as V8
      prints it.  Assigning a primitive to [__proto__] calls the inherited
      setter and adds no property.
    - [grouped], whose key enumeration order is observable through
      [Object.entries], is an insertion-ordered association list; a key
      that [Object.prototype] has reads as that member, so no array is
      made for it and [push] on it raises a TypeError.
    - [Math.min(...values)] and [Math.max(...values)] pass the values as
      arguments; a call with more arguments than the engine takes raises a
      RangeError.  The bound is a parameter of the model ([Engine]).
    - [Array.prototype.sort] is a stable insertion sort: ECMA-262 fixes the
      result of a sort only for a consistent comparator, and then every
      conforming sort returns this one.
    - Exceptions are explicit: [processData] returns an [outcome].
    - The configuration is typed: [filters], [groupBy], [aggregations] and
      [orderBy] are absent or arrays of well-formed entries, and column,
      operator, function and direction are strings.

    The code around the pipeline.  The file also embeds what the routes do
    with the rows [processData] returns: the [statistics] that the create
    route stores with an analysis and the file name of an export, and from
    [backend/models/Analysis.js] the virtual [processingTimeFormatted] with
    [Number.prototype.toFixed], and the chart type counts of
    [getAnalysisStats].  Counters that are lengths or sizes are natural
    numbers, and [Object.keys] and [Object.values] of a row are used up to
    their order only. *)

From Stdlib Require Import ZArith String Ascii List Bool Permutation Sorted.
From Stdlib Require Import PrimFloat FloatOps SpecFloat FloatAxioms.
From stdpp Require Import gmap strings list.

#[local] Set Warnings "-clear-no-such-hyp".

Local Open Scope string_scope.
Local Open Scope Z_scope.

(** ** Numbers *)

Module JsNumber.

(** The binary64 value nearest to the rational [n / d] (ties to even). *)
Definition of_ratio (neg : bool) (n d : Z) : float :=
  match n, d with
  | Zpos p, Zpos q =>
      SF2Prim (SFdiv prec emax (S754_finite neg p 0) (S754_finite false q 0))
  | Z0, Zpos _ => if neg then neg_zero else zero
  | _, _ => nan
  end.

(** The binary64 value nearest to [m * 10 ^ e]. *)
Definition of_decimal (neg : bool) (m e : Z) : float :=
  if 0 <=? e then of_ratio neg (m * 10 ^ e) 1 else of_ratio neg m (10 ^ (- e)).

Definition of_Z (z : Z) : float := of_ratio (z <? 0) (Z.abs z) 1.

(** [array.length] as a number. *)
Definition of_nat (n : nat) : float := of_Z (Z.of_nat n).

(** The exact value of a finite non-zero float, as a fraction. *)
Definition to_ratio (x : float) : option (Z * Z) :=
  match Prim2SF x with
  | S754_finite _ m e =>
      Some (if 0 <=? e then (Zpos m * 2 ^ e, 1) else (Zpos m, 2 ^ (- e)))
  | _ => None
  end.

Definition digit_char (d : Z) : ascii := ascii_of_N (48 + Z.to_N d).

Fixpoint digits_aux (fuel : nat) (z : Z) (acc : string) : string :=
  match fuel with
  | O => acc
  | S f =>
      let acc' := String (digit_char (z mod 10)) acc in
      if z <? 10 then acc' else digits_aux f (z / 10) acc'
  end.

(** Decimal digits of a non-negative integer. *)
Definition digits (z : Z) : string :=
  digits_aux (S (Z.to_nat (Z.log2 z))) z "".

Fixpoint find_neg_exp (fuel : nat) (j p q : Z) : Z :=
  match fuel with
  | O => j
  | S f => if q <=? p * 10 ^ j then j else find_neg_exp f (j + 1) p q
  end.

(** The [n] with [10 ^ (n - 1) <= p / q < 10 ^ n]. *)
Definition magnitude (p q : Z) : Z :=
  if q <=? p then Z.of_nat (String.length (digits (p / q)))
  else 1 - find_neg_exp 400 1 p q.

(** Number::toString, step 5: the shortest digit string [s] of [k]
    digits with [s * 10 ^ (n - k)] rounding to [x]; among several, the
    one nearest to [x], then the even one. *)
Fixpoint shortest (fuel : nat) (k : Z) (x : float) (p q n0 : Z) : Z * Z * Z :=
  match fuel with
  | O => (n0, k, 0)
  | S f =>
      let sc := k - n0 in
      let num := if 0 <=? sc then p * 10 ^ sc else p in
      let den := if 0 <=? sc then q else q * 10 ^ (- sc) in
      let lo := num / den in
      let hi := lo + 1 in
      let ok s := (of_decimal false s (n0 - k) =? x)%float in
      let pick_hi :=
        if hi =? 10 ^ k then (n0 + 1, k, 10 ^ (k - 1)) else (n0, k, hi) in
      match ok lo, ok hi with
      | true, true =>
          match 2 * num ?= (2 * lo + 1) * den with
          | Lt => (n0, k, lo)
          | Gt => pick_hi
          | Eq => if Z.even lo then (n0, k, lo) else pick_hi
          end
      | true, false => (n0, k, lo)
      | false, true => pick_hi
      | false, false => shortest f (k + 1) x p q n0
      end
  end.

Fixpoint zeros (n : nat) : string :=
  match n with
  | O => ""
  | S m => String "0" (zeros m)
  end.

Definition exponent_part (n : Z) : string :=
  "e" ++ (if 0 <=? n - 1 then "+" else "-") ++ digits (Z.abs (n - 1)).

(** Number::toString, steps 6 to 10. *)
Definition format (n k s : Z) : string :=
  let ds := digits s in
  if (k <=? n) && (n <=? 21) then ds ++ zeros (Z.to_nat (n - k))
  else if (0 <? n) && (n <=? 21) then
    substring 0 (Z.to_nat n) ds ++ "." ++
    substring (Z.to_nat n) (Z.to_nat (k - n)) ds
  else if (-6 <? n) && (n <=? 0) then "0." ++ zeros (Z.to_nat (- n)) ++ ds
  else if k =? 1 then ds ++ exponent_part n
  else
    substring 0 1 ds ++ "." ++ substring 1 (Z.to_nat (k - 1)) ds ++
    exponent_part n.

(** [String(x)] for a number [x] (Number::toString, radix 10). *)
Definition to_string (x : float) : string :=
  if is_nan x then "NaN"
  else if is_zero x then "0"
  else if is_infinity x then (if get_sign x then "-Infinity" else "Infinity")
  else
    match to_ratio x with
    | Some (p, q) =>
        let '(n, k, s) := shortest 17 1 (abs x) p q (magnitude p q) in
        (if get_sign x then "-" else "") ++ format n k s
    | None => "NaN"
    end.

(** *** StringToNumber *)

Definition code (c : ascii) : Z := Z.of_N (N_of_ascii c).

(** WhiteSpace and LineTerminator code units below 256. *)
Definition is_space (c : ascii) : bool :=
  let n := code c in
  ((9 <=? n) && (n <=? 13)) || (n =? 32) || (n =? 160).

Definition is_digit (c : ascii) : bool :=
  (48 <=? code c) && (code c <=? 57).

Fixpoint ltrim (s : string) : string :=
  match s with
  | String c t => if is_space c then ltrim t else s
  | EmptyString => s
  end.

Fixpoint rev_string (s acc : string) : string :=
  match s with
  | EmptyString => acc
  | String c t => rev_string t (String c acc)
  end.

Definition trim (s : string) : string :=
  rev_string (ltrim (rev_string (ltrim s) "")) "".

(** Longest prefix of decimal digits, and the rest. *)
Fixpoint take_digits (s : string) : string * string :=
  match s with
  | String c t =>
      if is_digit c then let '(d, r) := take_digits t in (String c d, r)
      else ("", s)
  | EmptyString => ("", "")
  end.

Definition digit_value (c : ascii) : option Z :=
  let n := code c in
  if (48 <=? n) && (n <=? 57) then Some (n - 48)
  else if (97 <=? n) && (n <=? 102) then Some (n - 87)
  else if (65 <=? n) && (n <=? 70) then Some (n - 55)
  else None.

(** Value of a non-empty string of digits in [base]. *)
Fixpoint radix_value (base : Z) (s : string) (acc : Z) : option Z :=
  match s with
  | EmptyString => Some acc
  | String c t =>
      match digit_value c with
      | Some d => if d <? base then radix_value base t (acc * base + d) else None
      | None => None
      end
  end.

Definition of_radix (base : Z) (s : string) : float :=
  match s with
  | EmptyString => nan
  | _ => match radix_value base s 0 with
         | Some z => of_Z z
         | None => nan
         end
  end.

(** ExponentPart, or nothing; [None] when the text is neither. *)
Definition parse_exponent (s : string) : option Z :=
  match s with
  | EmptyString => Some 0
  | String c t =>
      if (code c =? 101) || (code c =? 69) then
        let '(neg, t') :=
          match t with
          | String "+" r => (false, r)
          | String "-" r => (true, r)
          | _ => (false, t)
          end in
        match take_digits t' with
        | (String d ds, EmptyString) =>
            match radix_value 10 (String d ds) 0 with
            | Some e => Some (if neg then - e else e)
            | None => None
            end
        | _ => None
        end
      else None
  end.

(** StrUnsignedDecimalLiteral other than [Infinity]. *)
Definition parse_decimal (neg : bool) (s : string) : float :=
  let '(ip, r1) := take_digits s in
  let '(fp, r2) :=
    match r1 with
    | String "." r => take_digits r
    | _ => ("", r1)
    end in
  match ip ++ fp with
  | EmptyString => nan
  | ds =>
      match parse_exponent r2, radix_value 10 ds 0 with
      | Some e, Some m => of_decimal neg m (e - Z.of_nat (String.length fp))
      | _, _ => nan
      end
  end.

(** [Number(s)] for a string [s]. *)
Definition of_string (s : string) : float :=
  match trim s with
  | EmptyString => zero
  | String "0" (String "x" r) | String "0" (String "X" r) => of_radix 16 r
  | String "0" (String "o" r) | String "0" (String "O" r) => of_radix 8 r
  | String "0" (String "b" r) | String "0" (String "B" r) => of_radix 2 r
  | t =>
      let '(neg, u) :=
        match t with
        | String "+" r => (false, r)
        | String "-" r => (true, r)
        | _ => (false, t)
        end in
      if String.eqb u "Infinity" then (if neg then neg_infinity else infinity)
      else parse_decimal neg u
  end.

End JsNumber.

(** ** Strings *)

Module JsString.

(** [String.prototype.toLowerCase] on 8-bit code units. *)
Definition lower_char (c : ascii) : ascii :=
  let n := JsNumber.code c in
  if ((65 <=? n) && (n <=? 90)) ||
     ((192 <=? n) && (n <=? 222) && negb (n =? 215))
  then ascii_of_N (Z.to_N (n + 32))
  else c.

Fixpoint toLowerCase (s : string) : string :=
  match s with
  | EmptyString => EmptyString
  | String c t => String (lower_char c) (toLowerCase t)
  end.

(** [s.includes(sub)]. *)
Fixpoint includes (s sub : string) : bool :=
  String.prefix sub s ||
  match s with
  | EmptyString => false
  | String _ t => includes t sub
  end.

(** [parts.join(sep)] on strings. *)
Fixpoint join (sep : string) (parts : list string) : string :=
  match parts with
  | [] => ""
  | [p] => p
  | p :: rest => p ++ sep ++ join sep rest
  end.

(** [s.split(c)] for a separator of one code unit. *)
Fixpoint split (c : ascii) (s : string) : list string :=
  match s with
  | EmptyString => [""]
  | String a t =>
      if Ascii.eqb a c then "" :: split c t
      else match split c t with
           | p :: rest => String a p :: rest
           | [] => [String a ""]
           end
  end.

(** [s[i]]: the code unit at [i] as a string, if any. *)
Definition char_at (s : string) (i : nat) : option string :=
  match String.get i s with
  | Some c => Some (String c "")
  | None => None
  end.

End JsString.

(** ** Values *)

(** The members a plain object inherits from [Object.prototype]: its
    methods, and under [__proto__] the prototype itself. *)
Inductive prototype_member : Type :=
  | PConstructor
  | PDefineGetter
  | PDefineSetter
  | PHasOwnProperty
  | PLookupGetter
  | PLookupSetter
  | PIsPrototypeOf
  | PPropertyIsEnumerable
  | PToString
  | PValueOf
  | PProto
  | PToLocaleString.

(** What reading a cell of a row yields: a primitive value, or, for a
    column the row does not own and whose name is that of a member of
    [Object.prototype], the inherited object. *)
Inductive scalar : Type :=
  | SUndef
  | SNull
  | SBool (b : bool)
  | SNum (x : float)
  | SStr (s : string)
  | SObj (o : prototype_member).

(** The [value] of a filter: a scalar, or an array of scalars. *)
Inductive fvalue : Type :=
  | FScalar (v : scalar)
  | FArr (items : list scalar).

Module JsValue.

(** The property name under which a member is inherited. *)
Definition member_name (o : prototype_member) : string :=
  match o with
  | PConstructor => "constructor"
  | PDefineGetter => "__defineGetter__"
  | PDefineSetter => "__defineSetter__"
  | PHasOwnProperty => "hasOwnProperty"
  | PLookupGetter => "__lookupGetter__"
  | PLookupSetter => "__lookupSetter__"
  | PIsPrototypeOf => "isPrototypeOf"
  | PPropertyIsEnumerable => "propertyIsEnumerable"
  | PToString => "toString"
  | PValueOf => "valueOf"
  | PProto => "__proto__"
  | PToLocaleString => "toLocaleString"
  end.

Definition prototype_members : list prototype_member :=
  [PConstructor; PDefineGetter; PDefineSetter; PHasOwnProperty;
   PLookupGetter; PLookupSetter; PIsPrototypeOf; PPropertyIsEnumerable;
   PToString; PValueOf; PProto; PToLocaleString].

(** The member of [Object.prototype] called [key], if there is one. *)
Definition prototype_lookup (key : string) : option prototype_member :=
  find (fun o => String.eqb (member_name o) key) prototype_members.

(** Two inherited objects are the same object. *)
Definition same_object (o o' : prototype_member) : bool :=
  String.eqb (member_name o) (member_name o').

(** [String(o)]: a built-in function prints as the engine's
    [NativeFunction] text (here as V8 writes it; [constructor] is the
    function [Object]) and the prototype as [[object Object]]. *)
Definition object_text (o : prototype_member) : string :=
  match o with
  | PProto => "[object Object]"
  | PConstructor => "function Object() { [native code] }"
  | _ => "function " ++ member_name o ++ "() { [native code] }"
  end.

(** [String(v)]. *)
Definition to_string (v : scalar) : string :=
  match v with
  | SUndef => "undefined"
  | SNull => "null"
  | SBool true => "true"
  | SBool false => "false"
  | SNum x => JsNumber.to_string x
  | SStr s => s
  | SObj o => object_text o
  end.

(** ToPrimitive: an object is turned into its text ([valueOf] returns the
    object itself, so [toString] decides). *)
Definition to_primitive (v : scalar) : scalar :=
  match v with
  | SObj o => SStr (object_text o)
  | _ => v
  end.

Definition is_object (v : scalar) : bool :=
  match v with
  | SObj _ => true
  | _ => false
  end.

(** The text of an element inside [Array.prototype.join]: undefined and
    null give the empty string. *)
Definition join_item (v : scalar) : string :=
  match v with
  | SUndef | SNull => ""
  | _ => to_string v
  end.

(** [items.join(sep)]. *)
Definition join (sep : string) (items : list scalar) : string :=
  JsString.join sep (map join_item items).

(** [String(v)] for a filter value; an array prints as [join(",")]. *)
Definition fto_string (v : fvalue) : string :=
  match v with
  | FScalar s => to_string s
  | FArr items => join "," items
  end.

(** [Number(v)]; the text of an inherited object is no numeral. *)
Definition to_number (v : scalar) : float :=
  match v with
  | SUndef => nan
  | SNull => zero
  | SBool true => one
  | SBool false => zero
  | SNum x => x
  | SStr s => JsNumber.of_string s
  | SObj _ => nan
  end.

(** [Number(v)] for a filter value; an array goes through its text. *)
Definition fto_number (v : fvalue) : float :=
  match v with
  | FScalar s => to_number s
  | FArr items => JsNumber.of_string (join "," items)
  end.

Definition nullish (v : scalar) : bool :=
  match v with
  | SUndef | SNull => true
  | _ => false
  end.

(** [a == b] (IsLooselyEqual): two objects are equal when they are the
    same object; undefined and null equal each other only; an object
    facing a primitive is turned into its text; two strings compare as
    strings and anything else as numbers. *)
Definition loose_equals (a b : scalar) : bool :=
  match a, b with
  | SObj o, SObj o' => same_object o o'
  | (SUndef | SNull), _ => nullish b
  | _, (SUndef | SNull) => false
  | _, _ =>
      match to_primitive a, to_primitive b with
      | SStr x, SStr y => String.eqb x y
      | a', b' => (to_number a' =? to_number b')%float
      end
  end.

(** [cell == value]; an array operand is an object of its own, equal to
    no other object, and is turned into its text when it faces a
    primitive. *)
Definition floose_equals (cell : scalar) (v : fvalue) : bool :=
  match v with
  | FScalar s => loose_equals cell s
  | FArr items =>
      if nullish cell || is_object cell then false
      else loose_equals cell (SStr (join "," items))
  end.

(** SameValueZero, the comparison of [Array.prototype.includes]. *)
Definition same_value_zero (a b : scalar) : bool :=
  match a, b with
  | SUndef, SUndef => true
  | SNull, SNull => true
  | SBool x, SBool y => Bool.eqb x y
  | SNum x, SNum y => (x =? y)%float || (is_nan x && is_nan y)
  | SStr x, SStr y => String.eqb x y
  | SObj o, SObj o' => same_object o o'
  | _, _ => false
  end.

(** [items.includes(v)]. *)
Definition array_includes (items : list scalar) (v : scalar) : bool :=
  existsb (fun item => same_value_zero item v) items.

(** [a < b]: objects are first turned into their text; two strings
    compare by code units, anything else as numbers. *)
Definition less_than (a b : scalar) : bool :=
  match to_primitive a, to_primitive b with
  | SStr x, SStr y => String.ltb x y
  | a', b' => (to_number a' <? to_number b')%float
  end.

(** [Math.max(...values)]. *)
Definition math_max (values : list float) : float :=
  fold_left
    (fun highest x =>
       if is_nan highest || is_nan x then nan
       else if is_zero x && negb (get_sign x) && is_zero highest then x
       else if (highest <? x)%float then x else highest)
    values neg_infinity.

(** [Math.min(...values)]. *)
Definition math_min (values : list float) : float :=
  fold_left
    (fun lowest x =>
       if is_nan lowest || is_nan x then nan
       else if is_zero x && get_sign x && is_zero lowest then x
       else if (x <? lowest)%float then x else lowest)
    values infinity.

(** [Array.prototype.sort(cmp)]: a stable sort; [cmp x y > 0] puts [x]
    after [y], any other result (negative, zero, NaN) leaves [x] first. *)
Fixpoint sort_insert {A : Type} (cmp : A -> A -> float) (x : A) (l : list A)
  : list A :=
  match l with
  | [] => [x]
  | y :: t =>
      if (0 <? cmp x y)%float then y :: sort_insert cmp x t else x :: l
  end.

Fixpoint sort {A : Type} (cmp : A -> A -> float) (l : list A) : list A :=
  match l with
  | [] => []
  | x :: t => sort_insert cmp x (sort cmp t)
  end.

End JsValue.

(** ** Exceptions *)

Inductive exn : Type := TypeError | RangeError.

Inductive outcome (A : Type) : Type :=
  | Return (a : A)
  | Throw (e : exn).

Arguments Return {A} a.
Arguments Throw {A} e.

Definition bind {A B : Type} (m : outcome A) (k : A -> outcome B) : outcome B :=
  match m with
  | Return a => k a
  | Throw e => Throw e
  end.

Notation "'let!' x ':=' m 'in' k" := (bind m (fun x => k))
  (at level 10, x name, m at level 100, k at level 200).

(** [array.filter(p)] for a callback that may throw: the callback runs
    on the elements in order and the first exception ends the call. *)
Fixpoint array_filter {A : Type} (p : A -> outcome bool) (l : list A)
  : outcome (list A) :=
  match l with
  | [] => Return []
  | x :: t =>
      let! keep := p x in
      let! rest := array_filter p t in
      Return (if keep then x :: rest else rest)
  end.

(** [array.map(f)] for a callback that may throw. *)
Fixpoint array_map {A B : Type} (f : A -> outcome B) (l : list A)
  : outcome (list B) :=
  match l with
  | [] => Return []
  | x :: t =>
      let! y := f x in
      let! rest := array_map f t in
      Return (y :: rest)
  end.

(** [array.forEach(x => ...)] for a callback that updates a variable and
    may throw. *)
Fixpoint array_forEach {A S : Type} (step : S -> A -> outcome S)
  (l : list A) (state : S) : outcome S :=
  match l with
  | [] => Return state
  | x :: t =>
      let! state' := step state x in
      array_forEach step t state'
  end.

(** ** The engine *)

(** A call takes only as many arguments as the engine's stack holds, and
    [f(...values)] raises RangeError beyond that.  The language does not
    fix the number; it is a parameter of the model. *)
Record Engine : Type := mkEngine {
  max_arguments : nat
}.

(** [f(...values)] for a built-in [f] that itself does not raise. *)
Definition spread_call (engine : Engine) (f : list float -> float)
  (values : list float) : outcome float :=
  if (length values <=? max_arguments engine)%nat
  then Return (f values)
  else Throw RangeError.

(** ** Rows and configuration *)

(** A row is a plain object: the map holds the properties it owns, and
    every other property is looked up in [Object.prototype]. *)
Abbreviation Row := (gmap string scalar).

(** [({})[key]]: what a plain object inherits under [key]. *)
Definition inherited (key : string) : scalar :=
  match JsValue.prototype_lookup key with
  | Some o => SObj o
  | None => SUndef
  end.

(** [row[column]]. *)
Definition get (row : Row) (column : string) : scalar :=
  match row !! column with
  | Some v => v
  | None => inherited column
  end.

(** [obj[key] = v] on a plain object, for a primitive [v]: the property
    is created or overwritten, except under [__proto__], where the
    assignment calls the setter of [Object.prototype], which ignores a
    primitive. *)
Definition assign (obj : Row) (key : string) (v : scalar) : Row :=
  if String.eqb key "__proto__" then obj else <[key := v]> obj.

Record Filter : Type := mkFilter {
  filter_column : string;
  filter_operator : string;
  filter_value : fvalue
}.

Record Aggregation : Type := mkAggregation {
  agg_column : string;
  agg_function : string
}.

Record OrderSpec : Type := mkOrderSpec {
  order_column : string;
  order_direction : string
}.

(** [config.dataSelection]; an absent field is [None]. *)
Record DataSelection : Type := mkDataSelection {
  filters : option (list Filter);
  groupBy : option (list string);
  aggregations : option (list Aggregation);
  orderBy : option (list OrderSpec)
}.

Record Config : Type := mkConfig {
  dataSelection : option DataSelection
}.

(** [config.dataSelection?.field], with [elements] the array to iterate
    when [?.length > 0] holds. *)
Definition selected {A : Type} (field : DataSelection -> option (list A))
  (config : Config) : option (list A) :=
  match dataSelection config with
  | Some ds => field ds
  | None => None
  end.

Definition has_length {A : Type} (field : option (list A)) : bool :=
  match field with
  | Some (_ :: _) => true
  | _ => false
  end.

Definition elements {A : Type} (field : option (list A)) : list A :=
  match field with
  | Some l => l
  | None => []
  end.

(** ** Filter stage *)

(** [value[i]] on a filter value. *)
Definition value_at (value : fvalue) (i : nat) : outcome scalar :=
  match value with
  | FScalar SUndef | FScalar SNull => Throw TypeError
  | FScalar (SStr s) =>
      Return (match JsString.char_at s i with
              | Some c => SStr c
              | None => SUndef
              end)
  | FScalar _ => Return SUndef
  | FArr items => Return (nth i items SUndef)
  end.

(** The callback of [processedData.filter] for one filter (the [switch]
    on [operator]). *)
Definition filterPredicate (filter : Filter) (row : Row) : outcome bool :=
  let column := filter_column filter in
  let operator := filter_operator filter in
  let value := filter_value filter in
  let cellValue := get row column in
  if String.eqb operator "equals" then
    Return (JsValue.floose_equals cellValue value)
  else if String.eqb operator "not_equals" then
    Return (negb (JsValue.floose_equals cellValue value))
  else if String.eqb operator "contains" then
    Return (JsString.includes
              (JsString.toLowerCase (JsValue.to_string cellValue))
              (JsString.toLowerCase (JsValue.fto_string value)))
  else if String.eqb operator "not_contains" then
    Return (negb (JsString.includes
                    (JsString.toLowerCase (JsValue.to_string cellValue))
                    (JsString.toLowerCase (JsValue.fto_string value))))
  else if String.eqb operator "greater_than" then
    Return (JsValue.fto_number value <? JsValue.to_number cellValue)%float
  else if String.eqb operator "less_than" then
    Return (JsValue.to_number cellValue <? JsValue.fto_number value)%float
  else if String.eqb operator "between" then
    let! low := value_at value 0 in
    if (JsValue.to_number low <=? JsValue.to_number cellValue)%float then
      let! high := value_at value 1 in
      Return (JsValue.to_number cellValue <=? JsValue.to_number high)%float
    else Return false
  else if String.eqb operator "in" then
    Return (match value with
            | FArr items => JsValue.array_includes items cellValue
            | FScalar _ => false
            end)
  else if String.eqb operator "not_in" then
    Return (match value with
            | FArr items => negb (JsValue.array_includes items cellValue)
            | FScalar _ => false
            end)
  else Return true.

(** [filters.forEach(filter => processedData = processedData.filter(..))]. *)
Fixpoint applyFilters (fs : list Filter) (processedData : list Row)
  : outcome (list Row) :=
  match fs with
  | [] => Return processedData
  | filter :: rest =>
      let! kept := array_filter (filterPredicate filter) processedData in
      applyFilters rest kept
  end.

(** ** Group and aggregate stage *)

(** [groupBy.map(col => row[col]).join('|')]. *)
Definition groupKey (groupBy : list string) (row : Row) : string :=
  JsValue.join "|" (map (fun col => get row col) groupBy).

(** [if (!grouped[key]) grouped[key] = []; grouped[key].push(row)]:
    a new key goes last, a known key keeps its place. *)
Fixpoint grouped_push (grouped : list (string * list Row)) (key : string)
  (row : Row) : list (string * list Row) :=
  match grouped with
  | [] => [(key, [row])]
  | (k, rows) :: rest =>
      if String.eqb k key then (k, (rows ++ [row])%list) :: rest
      else (k, rows) :: grouped_push rest key row
  end.

(** One turn of the [forEach] that fills [grouped].  [grouped] starts as
    [{}] and owns array-valued properties only, so for a key that names a
    member of [Object.prototype] the read [grouped[key]] yields the
    inherited object: it is truthy, no array is created, and it has no
    [push] to call. *)
Definition groupRow (groupBy : list string) (grouped : list (string * list Row))
  (row : Row) : outcome (list (string * list Row)) :=
  let key := groupKey groupBy row in
  match JsValue.prototype_lookup key with
  | Some _ => Throw TypeError
  | None => Return (grouped_push grouped key row)
  end.

(** The [forEach] that fills [grouped]. *)
Definition groupRows (groupBy : list string) (processedData : list Row)
  : outcome (list (string * list Row)) :=
  array_forEach (groupRow groupBy) processedData [].

(** A property key is an array index when it is the canonical decimal
    text of an integer between 0 and 2^32 - 2. *)
Definition array_index (key : string) : option Z :=
  match key with
  | EmptyString => None
  | _ =>
      match JsNumber.radix_value 10 key 0 with
      | Some i =>
          if String.eqb (JsNumber.digits i) key && (i <=? 4294967294)
          then Some i else None
      | None => None
      end
  end.

Fixpoint insert_indexed {V : Type} (i : Z) (entry : string * V)
  (l : list (Z * (string * V))) : list (Z * (string * V)) :=
  match l with
  | [] => [(i, entry)]
  | (j, e) :: rest =>
      if i <? j then (i, entry) :: l else (j, e) :: insert_indexed i entry rest
  end.

Definition indexed_entries {V : Type} (obj : list (string * V))
  : list (Z * (string * V)) :=
  fold_right
    (fun entry acc =>
       match array_index (fst entry) with
       | Some i => insert_indexed i entry acc
       | None => acc
       end)
    [] obj.

Definition named_entries {V : Type} (obj : list (string * V))
  : list (string * V) :=
  List.filter
    (fun entry => match array_index (fst entry) with
                  | Some _ => false
                  | None => true
                  end)
    obj.

(** [Object.entries(obj)] (OrdinaryOwnPropertyKeys): array-index keys in
    ascending numeric order, then the other keys in creation order. *)
Definition objectEntries {V : Type} (obj : list (string * V))
  : list (string * V) :=
  (map snd (indexed_entries obj) ++ named_entries obj)%list.

(** [result[col] = groupKey.split('|')[index]] for each group-by column. *)
Definition groupFields (groupBy : list string) (key : string) : Row :=
  let parts := JsString.split "|" key in
  fold_left
    (fun (result : Row) (entry : nat * string) =>
       let '(index, col) := entry in
       assign result col
         match nth_error parts index with
         | Some part => SStr part
         | None => SUndef
         end)
    (combine (seq 0 (length groupBy)) groupBy) ∅.

(** [rows.map(row => Number(row[column])).filter(val => !isNaN(val))]. *)
Definition columnValues (rows : list Row) (column : string) : list float :=
  List.filter (fun val => negb (is_nan val))
              (map (fun row => JsValue.to_number (get row column)) rows).

(** [values.reduce((a, b) => a + b, 0)]. *)
Definition sum (values : list float) : float :=
  fold_left (fun a b => (a + b)%float) values zero.

(** [sorted[i]] read as a number: outside the array it is undefined,
    which arithmetic turns into NaN. *)
Definition number_at (sorted : list float) (i : Z) : float :=
  if i <? 0 then nan else nth (Z.to_nat i) sorted nan.

Definition median (values : list float) : float :=
  let sorted := JsValue.sort (fun a b => (a - b)%float) values in
  let mid := Z.of_nat (length sorted) / 2 in
  if Z.of_nat (length sorted) mod 2 =? 0
  then ((number_at sorted (mid - 1) + number_at sorted mid) / two)%float
  else number_at sorted mid.

(** [Math.pow(d, 2)] is taken to be the correctly rounded square. *)
Definition std_dev (values : list float) : float :=
  let mean := (sum values / JsNumber.of_nat (length values))%float in
  let variance :=
    (fold_left (fun a b => a + (b - mean) * (b - mean)) values zero
     / JsNumber.of_nat (length values))%float in
  sqrt variance.

(** The body of [aggregations.forEach]: the [switch] on [aggFunc].  The
    field names end in [_sum], [_avg] and so on, none of them is
    [__proto__], and the assignment creates or overwrites the field. *)
Definition applyAggregation (engine : Engine) (rows : list Row) (result : Row)
  (agg : Aggregation) : outcome Row :=
  let column := agg_column agg in
  let aggFunc := agg_function agg in
  let values := columnValues rows column in
  if String.eqb aggFunc "sum" then
    Return (<[column ++ "_sum" := SNum (sum values)]> result)
  else if String.eqb aggFunc "avg" then
    Return (<[column ++ "_avg" :=
                SNum (match values with
                      | _ :: _ =>
                          (sum values / JsNumber.of_nat (length values))%float
                      | [] => zero
                      end)]> result)
  else if String.eqb aggFunc "count" then
    Return (<[column ++ "_count" := SNum (JsNumber.of_nat (length values))]>
              result)
  else if String.eqb aggFunc "min" then
    let! lowest :=
      match values with
      | _ :: _ => spread_call engine JsValue.math_min values
      | [] => Return zero
      end in
    Return (<[column ++ "_min" := SNum lowest]> result)
  else if String.eqb aggFunc "max" then
    let! highest :=
      match values with
      | _ :: _ => spread_call engine JsValue.math_max values
      | [] => Return zero
      end in
    Return (<[column ++ "_max" := SNum highest]> result)
  else if String.eqb aggFunc "median" then
    Return (<[column ++ "_median" := SNum (median values)]> result)
  else if String.eqb aggFunc "std_dev" then
    Return (<[column ++ "_std_dev" := SNum (std_dev values)]> result)
  else Return result.

(** The callback of [Object.entries(grouped).map]. *)
Definition groupRecord (engine : Engine) (groupBy : list string)
  (aggs : option (list Aggregation)) (entry : string * list Row)
  : outcome Row :=
  let '(key, rows) := entry in
  let result := groupFields groupBy key in
  if has_length aggs
  then array_forEach (applyAggregation engine rows) (elements aggs) result
  else Return result.

Definition groupStage (engine : Engine) (groupBy : list string)
  (aggs : option (list Aggregation)) (processedData : list Row)
  : outcome (list Row) :=
  let! grouped := groupRows groupBy processedData in
  array_map (groupRecord engine groupBy aggs) (objectEntries grouped).

(** ** Order stage *)

(** The comparator handed to [processedData.sort]. *)
Fixpoint compareRows (specs : list OrderSpec) (a b : Row) : float :=
  match specs with
  | [] => zero
  | spec :: rest =>
      let aVal := get a (order_column spec) in
      let bVal := get b (order_column spec) in
      let asc := String.eqb (order_direction spec) "asc" in
      if JsValue.less_than aVal bVal then (if asc then (- one)%float else one)
      else if JsValue.less_than bVal aVal then (if asc then one else (- one)%float)
      else compareRows rest a b
  end.

(** [processedData.sort(..)] with that comparator. *)
Definition orderStage (specs : list OrderSpec) (records : list Row) : list Row :=
  JsValue.sort (compareRows specs) records.

(** ** The pipeline *)

Definition processData (engine : Engine) (rawData : list Row)
  (config : Config) : outcome (list Row) :=
  let! filtered :=
    (if has_length (selected filters config)
     then applyFilters (elements (selected filters config)) rawData
     else Return rawData) in
  let! grouped :=
    (if has_length (selected groupBy config)
     then groupStage engine (elements (selected groupBy config))
                     (selected aggregations config) filtered
     else Return filtered) in
  let ordered :=
    if has_length (selected orderBy config)
    then orderStage (elements (selected orderBy config)) grouped
    else grouped in
  Return ordered.

(** * The code around the pipeline *)

(** ** Statistics of the processed rows *)

(** The [statistics] object the create route stores with an analysis.
    Its counters are lengths and sizes, kept as natural numbers (as
    doubles they are exact below 2^53). *)

(** [Object.keys(row)] and [Object.values(row)]; the statistics depend on
    them only up to order. *)
Definition objectKeys (row : Row) : list string := (map_to_list row).*1.

Definition objectValues (row : Row) : list scalar := (map_to_list row).*2.

(** [val === null || val === undefined || val === ''] *)
Definition is_blank (val : scalar) : bool :=
  match val with
  | SNull | SUndef => true
  | SStr s => String.eqb s ""
  | _ => false
  end.

(** [set.add(v)]: membership in a [Set] is SameValueZero. *)
Definition set_add (set : list scalar) (v : scalar) : list scalar :=
  if JsValue.array_includes set v then set else (set ++ [v])%list.

(** [new Set(values)], as the list of its elements in insertion order. *)
Definition new_Set (values : list scalar) : list scalar :=
  fold_left set_add values [].

Record Statistics : Type := mkStatistics {
  rowCount : nat;
  columnCount : nat;
  nullValues : nat;
  uniqueValues : gmap string nat
}.

(** [processedData[0] || {}] *)
Definition first_or_empty (processedData : list Row) : Row :=
  match processedData with
  | row :: _ => row
  | [] => ∅
  end.

Definition statistics (processedData : list Row) : Statistics :=
  {| rowCount := length processedData;
     columnCount := length (objectKeys (first_or_empty processedData));
     nullValues :=
       fold_left
         (fun count row =>
            (count + length (List.filter is_blank (objectValues row)))%nat)
         processedData 0%nat;
     uniqueValues :=
       fold_left
         (fun (acc : gmap string nat) key =>
            <[key := length (new_Set (map (fun row => get row key)
                                          processedData))]> acc)
         (objectKeys (first_or_empty processedData)) ∅ |}.

(** ** Export file name *)

(** [name.replace(/\s+/g, '_')]: every maximal run of white space becomes
    one underscore.  [in_run] tells that the previous code unit was white
    space. *)
Fixpoint replace_runs (in_run : bool) (s : string) : string :=
  match s with
  | EmptyString => EmptyString
  | String c t =>
      if JsNumber.is_space c
      then (if in_run then replace_runs true t
            else String "_" (replace_runs true t))
      else String c (replace_runs false t)
  end.

Definition replace_whitespace (s : string) : string := replace_runs false s.

(** The [fileName] of an export record; [now] is [Date.now()]. *)
Definition exportFileName (name : string) (now : float) (format : string)
  : string :=
  replace_whitespace name ++ "_" ++ JsNumber.to_string now ++ "." ++ format.

(** The formats the export route accepts. *)
Definition export_formats : list string := ["png"; "jpg"; "pdf"; "svg"; "json"].

(** ** Chart type counts *)

(** ToBoolean. *)
Definition truthy (v : scalar) : bool :=
  match v with
  | SUndef | SNull => false
  | SBool b => b
  | SNum x => negb (is_zero x || is_nan x)
  | SStr s => negb (String.eqb s "")
  | SObj _ => true
  end.

(** The post-processing of [chartTypeDistribution] in [getAnalysisStats]:
    [chartTypeCounts[type] = (chartTypeCounts[type] || 0) + 1] for every
    truthy [type]. *)
Definition countChartTypes (chartTypeDistribution : list scalar)
  : gmap string nat :=
  fold_left
    (fun (chartTypeCounts : gmap string nat) type =>
       if truthy type then
         <[JsValue.to_string type :=
             (default 0 (chartTypeCounts !! JsValue.to_string type) + 1)%nat]>
           chartTypeCounts
       else chartTypeCounts)
    chartTypeDistribution ∅.

(** ** Formatted processing time *)

(** The digits of [n] with a point before the last [f] of them, padded
    with zeros so that one digit stands before the point. *)
Definition fixed_digits (f : nat) (n : Z) : string :=
  let m := JsNumber.digits n in
  match f with
  | O => m
  | _ =>
      let k := String.length m in
      let m' := if (k <=? f)%nat then JsNumber.zeros (f + 1 - k) ++ m else m in
      let k' := String.length m' in
      substring 0 (k' - f) m' ++ "." ++ substring (k' - f) f m'
  end.

(** [x.toFixed(f)] for [0 <= f <= 100] (Number.prototype.toFixed): [n] is
    the integer nearest to [x * 10 ^ f], the larger one of two. *)
Definition toFixed (f : nat) (x : float) : string :=
  if is_nan x || is_infinity x then JsNumber.to_string x
  else
    match JsNumber.to_ratio (abs x) with
    | None => fixed_digits f 0
    | Some (p, q) =>
        if 10 ^ 21 * q <=? p then JsNumber.to_string x
        else
          let n := (2 * p * 10 ^ Z.of_nat f + q) / (2 * q) in
          (if get_sign x then "-" else "") ++ fixed_digits f n
    end.

(** The virtual [processingTimeFormatted] of an analysis. *)
Definition processingTimeFormatted (processingTime : float) : string :=
  if (processingTime <? 1000)%float then
    JsNumber.to_string processingTime ++ "ms"
  else if (processingTime <? 60000)%float then
    toFixed 1 (processingTime / 1000)%float ++ "s"
  else
    toFixed 1 (processingTime / 60000)%float ++ "m".

(** * Vocabulary of the properties *)

(** ** Sample data *)

Module Sample.

(** An engine whose calls take a thousand arguments. *)
Definition engine : Engine := mkEngine 1000.

Definition num (z : Z) : scalar := SNum (JsNumber.of_Z z).

Definition selection (fs : option (list Filter)) (gb : option (list string))
  (aggs : option (list Aggregation)) (ob : option (list OrderSpec)) : Config :=
  mkConfig (Some (mkDataSelection fs gb aggs ob)).

(** [[{a:1},{a:2},{a:3}]] *)
Definition abc : list Row :=
  [ {["a" := num 1]}; {["a" := num 2]}; {["a" := num 3]} ].

(** [[{g:'x',v:10},{g:'x',v:20},{g:'y',v:5}]] *)
Definition sales : list Row :=
  [ <["v" := num 10]> {["g" := SStr "x"]};
    <["v" := num 20]> {["g" := SStr "x"]};
    <["v" := num 5]> {["g" := SStr "y"]} ].

(** [[{a:1,b:1},{a:1,b:2},{a:2,b:0}]] *)
Definition pairs : list Row :=
  [ <["b" := num 1]> {["a" := num 1]};
    <["b" := num 2]> {["a" := num 1]};
    <["b" := num 0]> {["a" := num 2]} ].

End Sample.

(** ** Filters *)

Definition recognized_operators : list string :=
  ["equals"; "not_equals"; "contains"; "not_contains"; "greater_than";
   "less_than"; "between"; "in"; "not_in"].

(** SameValueZero as a relation: same type and same value, with NaN equal
    to itself and the two zeros equal; no conversion between types. *)
Inductive SameValueZero : scalar -> scalar -> Prop :=
  | svz_undefined : SameValueZero SUndef SUndef
  | svz_null : SameValueZero SNull SNull
  | svz_bool (b : bool) : SameValueZero (SBool b) (SBool b)
  | svz_string (s : string) : SameValueZero (SStr s) (SStr s)
  | svz_object (o : prototype_member) : SameValueZero (SObj o) (SObj o)
  | svz_number (x y : float) :
      (x =? y)%float = true -> SameValueZero (SNum x) (SNum y)
  | svz_nan (x y : float) :
      is_nan x = true -> is_nan y = true -> SameValueZero (SNum x) (SNum y).

(** The key names no member of [Object.prototype]: a plain object that
    does not own it reads undefined under it. *)
Definition plain_key (key : string) : Prop :=
  JsValue.prototype_lookup key = None.

(** A field of the configuration is absent or empty. *)
Definition absent_or_empty {A : Type} (field : option (list A)) : Prop :=
  field = None \/ field = Some [].

(** ** Ordering *)

(** What [Array.prototype.sort] reads off a comparator result. *)
Definition ranks_after {A : Type} (cmp : A -> A -> float) (x y : A) : bool :=
  (0 <? cmp x y)%float.

Definition ranks_before {A : Type} (cmp : A -> A -> float) (x y : A) : bool :=
  (cmp x y <? 0)%float.

(** The comparator orders the elements of [l] consistently. *)
Record consistent_on {A : Type} (cmp : A -> A -> float) (l : list A) : Prop := {
  co_exclusive : forall a b, In a l -> In b l ->
    ranks_before cmp a b = true -> ranks_after cmp a b = false;
  co_antisym : forall a b, In a l -> In b l ->
    ranks_after cmp a b = ranks_before cmp b a;
  co_trans : forall a b c, In a l -> In b l -> In c l ->
    ranks_after cmp a b = false -> ranks_after cmp b c = false ->
    ranks_after cmp a c = false
}.

(** Elements tagged with their position in the input. *)
Definition tagged_cmp {A : Type} (cmp : A -> A -> float) (x y : nat * A)
  : float :=
  cmp (snd x) (snd y).

(** [x] may stand before [y]: the comparator ranks it first, or it ties
    them and [x] came first in the input. *)
Definition in_order {A : Type} (cmp : A -> A -> float) (x y : nat * A) : Prop :=
  ranks_before cmp (snd x) (snd y) = true \/
  (ranks_before cmp (snd x) (snd y) = false /\
   ranks_after cmp (snd x) (snd y) = false /\
   (fst x < fst y)%nat).

Inductive decision : Type := Before | After | Tie.

(** What one sort spec says about two records: the native [<] on the
    spec's column, turned round for a direction other than ascending. *)
Definition spec_decision (spec : OrderSpec) (a b : Row) : decision :=
  let aVal := get a (order_column spec) in
  let bVal := get b (order_column spec) in
  let asc := String.eqb (order_direction spec) "asc" in
  if JsValue.less_than aVal bVal then (if asc then Before else After)
  else if JsValue.less_than bVal aVal then (if asc then After else Before)
  else Tie.

(** The lexicographic key: the first spec that does not tie two records
    decides their ranking; they are tied when every spec ties them. *)
Inductive Decides : list OrderSpec -> Row -> Row -> decision -> Prop :=
  | decides_none (a b : Row) : Decides [] a b Tie
  | decides_here (spec : OrderSpec) (rest : list OrderSpec) (a b : Row)
      (d : decision) :
      spec_decision spec a b = d -> d <> Tie -> Decides (spec :: rest) a b d
  | decides_later (spec : OrderSpec) (rest : list OrderSpec) (a b : Row)
      (d : decision) :
      spec_decision spec a b = Tie -> Decides rest a b d ->
      Decides (spec :: rest) a b d.

(** Positions of the input, attached to its records. *)
Definition indexed {A : Type} (l : list A) : list (nat * A) :=
  combine (seq 0 (length l)) l.

(** [output] is [input] sorted by the lexicographic key, ties in input
    order: of any two records, the one standing first is ranked first by
    the deciding spec, or all specs tie them and it came first in the
    input. *)
Definition Ranked (specs : list OrderSpec) (input output : list Row) : Prop :=
  exists tagged : list (nat * Row),
    Permutation tagged (indexed input) /\
    map snd tagged = output /\
    StronglySorted
      (fun x y =>
         Decides specs (snd x) (snd y) Before \/
         (Decides specs (snd x) (snd y) Tie /\ (fst x < fst y)%nat))
      tagged.

(** The comparator is a consistent ordering of the records: [a] ranks
    after [b] exactly when [b] ranks before [a], and "does not rank after"
    is transitive. *)
Definition consistent (specs : list OrderSpec) (records : list Row) : bool :=
  let after := ranks_after (compareRows specs) in
  let before := ranks_before (compareRows specs) in
  forallb
    (fun a =>
       forallb
         (fun b =>
            Bool.eqb (after a b) (before b a) &&
            forallb
              (fun c => implb (negb (after a b) && negb (after b c))
                              (negb (after a c)))
              records)
         records)
    records.

Definition classify (v : float) : decision :=
  if (v <? 0)%float then Before else if (0 <? v)%float then After else Tie.

(** A cell that is a number other than NaN; a cell that is a string. *)
Definition numeric (v : scalar) : Prop :=
  exists x, v = SNum x /\ is_nan x = false.

Definition textual (v : scalar) : Prop := exists s, v = SStr s.

(** Every record holds a number other than NaN in the column, or every
    record holds a string in it. *)
Definition comparable_column (records : list Row) (column : string) : Prop :=
  Forall (fun record => numeric (get record column)) records \/
  Forall (fun record => textual (get record column)) records.

Definition flip (d : decision) : decision :=
  match d with
  | Before => After
  | After => Before
  | Tie => Tie
  end.

(** A three-way decision that behaves like the comparison of keys in a
    total order, on the given records. *)
Definition lawful (dec : Row -> Row -> decision) (records : list Row) : Prop :=
  (forall a b, In a records -> In b records -> dec b a = flip (dec a b)) /\
  (forall a b c, In a records -> In b records -> In c records ->
     dec a b <> After -> dec b c <> After ->
     dec a c <> After /\ (dec a c = Tie -> dec a b = Tie /\ dec b c = Tie)).

(** The decision the comparator encodes. *)
Definition decide_rows (specs : list OrderSpec) (a b : Row) : decision :=
  classify (compareRows specs a b).

(** ** Groups and their order *)

(** The distinct keys of a list in first-seen order. *)
Fixpoint first_seen (keys : list string) : list string :=
  match keys with
  | [] => []
  | k :: rest =>
      k :: List.filter (fun k' => negb (String.eqb k' k)) (first_seen rest)
  end.

(** The rows of a group, in input order. *)
Definition group_of (groupBy : list string) (rows : list Row) (key : string)
  : list Row :=
  List.filter (fun row => String.eqb (groupKey groupBy row) key) rows.

(** The order in which [Object.entries] lists keys created in the order
    [keys]. *)
Definition key_order (keys : list string) : list string :=
  map fst (objectEntries (map (fun k => (k, tt)) keys)).

Definition is_array_index (key : string) : bool :=
  match array_index key with
  | Some _ => true
  | None => false
  end.


(** The array-index keys among [keys], ascending. *)
Definition index_keys (keys : list string) : list string :=
  map (fun p => fst (snd p)) (indexed_entries (map (fun k => (k, tt)) keys)).

(** The other keys, in the order given. *)
Definition name_keys (keys : list string) : list string :=
  List.filter (fun k => negb (is_array_index k)) keys.

(** ** Aggregates *)

Definition recognized_functions : list string :=
  ["sum"; "avg"; "count"; "min"; "max"; "median"; "std_dev"].

Definition recognized (fn : string) : bool :=
  existsb (String.eqb fn) recognized_functions.

(** The field [<column>_<function>] of every aggregation with a
    recognized function. *)
Definition aggregateFields (aggs : list Aggregation) : list string :=
  flat_map
    (fun agg =>
       if recognized (agg_function agg)
       then [agg_column agg ++ "_" ++ agg_function agg]
       else [])
    aggs.

(** What a cell contributes to the aggregates of its column.  Nothing,
    when it is undefined (as a missing cell reads), NaN, a text that is no
    numeral, or an inherited object.  Otherwise one number: the number
    itself, the value of the numeral, 0 for null, for false and for empty
    or blank text, 1 for true. *)
Definition contribution (cell : scalar) : list float :=
  match cell with
  | SUndef => []
  | SNull => [zero]
  | SBool true => [one]
  | SBool false => [zero]
  | SNum x => if is_nan x then [] else [x]
  | SStr s =>
      if is_nan (JsNumber.of_string s) then [] else [JsNumber.of_string s]
  | SObj _ => []
  end.

(** The numeric-coercible values among the cells of a column, in order. *)
Definition coercible (cells : list scalar) : list float :=
  flat_map contribution cells.

(** The aggregates that hand their values to a call as arguments. *)
Definition spreads (fn : string) : bool :=
  String.eqb fn "min" || String.eqb fn "max".

(** The aggregation spreads more values than the engine's calls take. *)
Definition overflows (engine : Engine) (rows : list Row) (agg : Aggregation)
  : bool :=
  spreads (agg_function agg) &&
  (max_arguments engine <? length (columnValues rows (agg_column agg)))%nat.

(** The last code unit of a text, [d] for the empty text. *)
Fixpoint last_unit (s : string) (d : ascii) : ascii :=
  match s with
  | EmptyString => d
  | String c t => last_unit t c
  end.

(** The group-by columns that get a field: all but [__proto__]. *)
Definition fieldColumns (groupBy : list string) : list string :=
  List.filter (fun col => negb (String.eqb col "__proto__")) groupBy.

(** The seven aggregates as functions of the coercible values; [None] for
    any other function name. *)
Definition aggregateValue (fn : string) (values : list float) : option float :=
  if String.eqb fn "sum" then Some (sum values)
  else if String.eqb fn "avg" then
    Some (match values with
          | [] => zero
          | _ => (sum values / JsNumber.of_nat (length values))%float
          end)
  else if String.eqb fn "count" then Some (JsNumber.of_nat (length values))
  else if String.eqb fn "min" then
    Some (match values with [] => zero | _ => JsValue.math_min values end)
  else if String.eqb fn "max" then
    Some (match values with [] => zero | _ => JsValue.math_max values end)
  else if String.eqb fn "median" then Some (median values)
  else if String.eqb fn "std_dev" then Some (std_dev values)
  else None.

(** Two rows with the same cell in every column. *)
Definition same_cells (row row' : Row) : Prop :=
  forall column, get row column = get row' column.

Definition same_outcome (o o' : outcome (list Row)) : Prop :=
  match o, o' with
  | Return l, Return l' => Forall2 same_cells l l'
  | Throw e, Throw e' => e = e'
  | _, _ => False
  end.

(** ** Filters: which rows pass *)

(** The filter lets the row through: its callback returns [true]. *)
Definition passes (filter : Filter) (row : Row) : bool :=
  match filterPredicate filter row with
  | Return true => true
  | _ => false
  end.

Definition passes_all (fs : list Filter) (row : Row) : bool :=
  forallb (fun filter => passes filter row) fs.

(** A [between] filter whose value is null or undefined has no bounds to
    read. *)
Definition without_bounds (filter : Filter) : bool :=
  String.eqb (filter_operator filter) "between" &&
  match filter_value filter with
  | FScalar v => JsValue.nullish v
  | FArr _ => false
  end.

(** ** Group keys and group-by fields *)

(** The text has no [|] in it. *)
Definition bar_free (s : string) : bool := negb (JsString.includes s "|").

(** The group-by fields of a record, in the order of [groupBy]. *)
Definition groupByFields (groupBy : list string) (record : Row)
  : list (option scalar) :=
  map (fun col => record !! col) groupBy.

(** ** The code around the pipeline *)

(** The text holds a white space code unit. *)
Fixpoint has_space (s : string) : bool :=
  match s with
  | EmptyString => false
  | String c t => JsNumber.is_space c || has_space t
  end.

(** How many entries are truthy and read [key]. *)
Definition occurrences (key : string) (types : list scalar) : nat :=
  length (List.filter
            (fun type => truthy type && String.eqb (JsValue.to_string type) key)
            types).

(** The sum of the counts. *)
Definition total (counts : gmap string nat) : nat :=
  map_fold (fun _ n acc => (n + acc)%nat) 0%nat counts.

(** [n] tenths, written with one decimal. *)
Definition tenths (n : Z) : string :=
  JsNumber.digits (n / 10) ++ "." ++ JsNumber.digits (n mod 10).

(** The label of [t] milliseconds is as expected: the plain count below a
    second, and above it a number of seconds with one decimal that is
    within 50 ms of [t]. *)
Definition label_checked (t : Z) : bool :=
  let label := processingTimeFormatted (JsNumber.of_Z t) in
  if t <? 1000 then String.eqb label (JsNumber.digits t ++ "ms")
  else
    String.eqb label (tenths (t / 100) ++ "s") && (t mod 100 <=? 50) ||
    String.eqb label (tenths (t / 100 + 1) ++ "s") && (50 <=? t mod 100).

(** [label_checked] on [count] consecutive durations from [start]. *)
Fixpoint labels_checked_from (count : nat) (start : Z) : bool :=
  match count with
  | O => true
  | S c => label_checked start && labels_checked_from c (start + 1)
  end.

(** * Properties of the pipeline *)

(** ** Filter stage *)

Lemma array_filter_nil {A : Type} (p : A -> outcome bool) :
  array_filter p [] = Return [].
Proof. reflexivity. Qed.

Lemma applyFilters_nil (fs : list Filter) : applyFilters fs [] = Return [].
Proof. induction fs as [|f fs IH]; simpl; [reflexivity | exact IH]. Qed.

Lemma array_filter_all {A : Type} (p : A -> outcome bool) (l : list A) :
  (forall x, In x l -> p x = Return true) -> array_filter p l = Return l.
Proof.
  induction l as [|x l IH]; intros Hall; simpl; [reflexivity|].
  rewrite (Hall x (or_introl eq_refl)). simpl.
  rewrite IH; [reflexivity|]. intros y Hy. apply Hall. now right.
Qed.

Ltac skip_case op name :=
  destruct (String.eqb_spec op name) as [->|_];
  [exfalso; simpl in *; tauto|].

(** C8: a filter whose operator is none of the nine recognized ones
    evaluates to true on every row without raising, so a pipeline step
    with such a filter keeps every row. *)
Theorem unknown_operator_keeps_row (filter : Filter) (row : Row)
  (rows : list Row) :
  ~ In (filter_operator filter) recognized_operators ->
  filterPredicate filter row = Return true /\
  applyFilters [filter] rows = Return rows.
Proof.
  intros Hop.
  assert (Hpred : forall r, filterPredicate filter r = Return true).
  { intros r. unfold filterPredicate.
    destruct filter as [column operator value]; simpl in *.
    skip_case operator "equals". skip_case operator "not_equals".
    skip_case operator "contains". skip_case operator "not_contains".
    skip_case operator "greater_than". skip_case operator "less_than".
    skip_case operator "between". skip_case operator "in".
    skip_case operator "not_in". reflexivity. }
  split; [apply Hpred|].
  simpl. rewrite array_filter_all; [reflexivity|]. intros; apply Hpred.
Qed.

Lemma unknown_operator_keeps_row_witness :
  filterPredicate (mkFilter "a" "starts_with" (FScalar (SStr "x")))
                  {["a" := SStr "y"]} = Return true /\
  applyFilters [mkFilter "a" "starts_with" (FScalar (SStr "x"))] Sample.abc
  = Return Sample.abc.
Proof.
  apply (unknown_operator_keeps_row
           (mkFilter "a" "starts_with" (FScalar (SStr "x")))).
  simpl. intros H. repeat (destruct H as [H|H]; [discriminate H|]). exact H.
Defined.

Lemma get_absent (row : Row) (column : string) :
  row !! column = None -> plain_key column -> get row column = SUndef.
Proof.
  intros Hrow Hkey. unfold get, inherited. now rewrite Hrow, Hkey.
Qed.

(** C10, as the code has it: on a row that lacks the filter's column, the
    column not being called like a member of [Object.prototype], [equals]
    holds exactly when the filter value is null or undefined (a filter
    that carries no value reads undefined), [not_equals] is its negation,
    and neither raises. *)
Theorem equals_on_missing_column (row : Row) (column : string)
  (value : fvalue) :
  row !! column = None ->
  plain_key column ->
  exists kept : bool,
    filterPredicate (mkFilter column "equals" value) row = Return kept /\
    filterPredicate (mkFilter column "not_equals" value) row
    = Return (negb kept) /\
    (kept = true <-> value = FScalar SNull \/ value = FScalar SUndef).
Proof.
  intros Habsent Hplain.
  exists (JsValue.floose_equals SUndef value).
  unfold filterPredicate; simpl. rewrite (get_absent _ _ Habsent Hplain).
  repeat split.
  - destruct value as [[| | | | |]|]; simpl; intros H; try discriminate H;
      auto.
  - intros [-> | ->]; reflexivity.
Qed.

Lemma equals_on_missing_column_witness :
  exists kept : bool,
    filterPredicate (mkFilter "b" "equals" (FScalar SNull)) {["a" := SStr "y"]}
    = Return kept /\
    filterPredicate (mkFilter "b" "not_equals" (FScalar SNull))
                    {["a" := SStr "y"]} = Return (negb kept) /\
    (kept = true <->
     FScalar SNull = FScalar SNull \/ FScalar SNull = FScalar SUndef).
Proof.
  apply (equals_on_missing_column {["a" := SStr "y"]} "b" (FScalar SNull));
    reflexivity.
Defined.

(** C10, as stated, fails: the row [{a:'y'}] has no column [constructor],
    yet [equals null] on that column drops it and [not_equals null] keeps
    it: the read yields the function the row inherits, which is not
    loosely equal to null.  And on the column [b], which the row lacks as
    well, [equals] with a value that is undefined, not null, keeps the
    row. *)
Lemma inherited_cell_is_not_null :
  let row : Row := {["a" := SStr "y"]} in
  row !! "constructor" = None /\
  filterPredicate (mkFilter "constructor" "equals" (FScalar SNull)) row
  = Return false /\
  filterPredicate (mkFilter "constructor" "not_equals" (FScalar SNull)) row
  = Return true /\
  processData Sample.engine [row]
    (Sample.selection
       (Some [mkFilter "constructor" "equals" (FScalar SNull)])
       None None None)
  = Return [] /\
  row !! "b" = None /\
  filterPredicate (mkFilter "b" "equals" (FScalar SUndef)) row = Return true.
Proof.
  vm_compute.
  split; [reflexivity|]. split; [reflexivity|]. split; [reflexivity|].
  split; [reflexivity|]. split; reflexivity.
Qed.

Lemma same_object_eq (o o' : prototype_member) :
  JsValue.same_object o o' = true <-> o = o'.
Proof.
  split; [|intros ->; apply String.eqb_refl].
  destruct o, o'; intro H; solve [reflexivity | discriminate H].
Qed.

Lemma same_value_zero_spec (a b : scalar) :
  JsValue.same_value_zero a b = true <-> SameValueZero a b.
Proof.
  split.
  - destruct a as [| |x|x|x|x], b as [| |y|y|y|y];
      cbn [JsValue.same_value_zero]; intros H; try discriminate H.
    + constructor.
    + constructor.
    + apply Bool.eqb_prop in H. subst; constructor.
    + apply orb_prop in H as [H|H]; [now apply svz_number|].
      apply andb_prop in H as [Hx Hy]. now apply svz_nan.
    + apply String.eqb_eq in H. subst; constructor.
    + apply same_object_eq in H. subst; constructor.
  - intros []; cbn [JsValue.same_value_zero]; auto.
    + apply Bool.eqb_reflx.
    + apply String.eqb_refl.
    + now apply same_object_eq.
    + rewrite H; reflexivity.
    + rewrite H, H0. apply orb_true_r.
Qed.

Lemma array_includes_spec (items : list scalar) (v : scalar) :
  JsValue.array_includes items v = true <->
  exists item, In item items /\ SameValueZero item v.
Proof.
  unfold JsValue.array_includes. rewrite existsb_exists.
  split; intros [item [Hin H]]; exists item; split; auto;
    now apply same_value_zero_spec.
Qed.

(** C2, as the code has it: [in] keeps a row exactly when the filter value
    is a list with an element that is the same value as the cell under
    SameValueZero (no conversion: a numeric string does not match a
    number); [not_in] keeps it exactly when the value is a list without
    such an element; a value that is not a list makes both false. Neither
    raises. *)
Theorem in_not_in_membership (row : Row) (column : string) (value : fvalue) :
  exists kept_in kept_not_in : bool,
    filterPredicate (mkFilter column "in" value) row = Return kept_in /\
    filterPredicate (mkFilter column "not_in" value) row = Return kept_not_in /\
    (kept_in = true <->
     exists items, value = FArr items /\
       exists item, In item items /\ SameValueZero item (get row column)) /\
    (kept_not_in = true <->
     exists items, value = FArr items /\
       forall item, In item items -> ~ SameValueZero item (get row column)) /\
    (forall v, value = FScalar v -> kept_in = false /\ kept_not_in = false).
Proof.
  unfold filterPredicate; simpl.
  destruct value as [v|items].
  - exists false, false. repeat split; try discriminate.
    + intros (items & Heq & _). discriminate Heq.
    + intros (items & Heq & _). discriminate Heq.
  - exists (JsValue.array_includes items (get row column)),
           (negb (JsValue.array_includes items (get row column))).
    repeat split; try discriminate.
    + intros H. exists items. split; [reflexivity|].
      now apply array_includes_spec.
    + intros (items' & Heq & H). injection Heq as <-.
      now apply array_includes_spec.
    + intros H. exists items. split; [reflexivity|].
      intros item Hin Hsame. apply negb_true_iff in H.
      assert (JsValue.array_includes items (get row column) = true)
        by (apply array_includes_spec; eauto).
      congruence.
    + intros (items' & Heq & H). injection Heq as <-.
      apply negb_true_iff.
      destruct (JsValue.array_includes items (get row column)) eqn:E;
        [|reflexivity].
      apply array_includes_spec in E as (item & Hin & Hsame).
      exfalso. eapply H; eauto.
Qed.

(** C2, as stated, fails: the cell is the string "5", the list holds the
    number 5, the two are loosely equal, and [in] drops the row while
    [not_in] keeps it. *)
Lemma in_is_not_loose_equality :
  let row : Row := {["a" := SStr "5"]} in
  let items := [Sample.num 5] in
  existsb (fun item => JsValue.loose_equals (get row "a") item) items = true /\
  filterPredicate (mkFilter "a" "in" (FArr items)) row = Return false /\
  filterPredicate (mkFilter "a" "not_in" (FArr items)) row = Return true.
Proof. vm_compute. repeat split. Qed.

(** ** Identity and empty input *)

Lemma absent_or_empty_length {A : Type} (field : option (list A)) :
  absent_or_empty field -> has_length field = false.
Proof. intros [-> | ->]; reflexivity. Qed.

(** C6: with no filters, no group-by columns and no sort specs (each
    absent or empty, as in [transform(rows, {})]) the rows come back
    unchanged and in their original order. *)
Theorem identity_pipeline (engine : Engine) (rows : list Row)
  (config : Config) :
  absent_or_empty (selected filters config) ->
  absent_or_empty (selected groupBy config) ->
  absent_or_empty (selected orderBy config) ->
  processData engine rows config = Return rows.
Proof.
  intros Hf Hg Ho. unfold processData.
  rewrite (absent_or_empty_length _ Hf), (absent_or_empty_length _ Hg),
    (absent_or_empty_length _ Ho).
  reflexivity.
Qed.

Lemma identity_pipeline_witness :
  processData Sample.engine Sample.sales (mkConfig None)
  = Return Sample.sales /\
  processData Sample.engine Sample.sales
    (Sample.selection None None None None)
  = Return Sample.sales /\
  processData Sample.engine Sample.sales
    (Sample.selection (Some []) (Some []) (Some []) (Some []))
  = Return Sample.sales.
Proof.
  split; [|split]; apply identity_pipeline;
    solve [left; reflexivity | right; reflexivity].
Defined.

(** C7: on the empty row sequence every configuration, whatever its
    filters, group-by columns, aggregations and sort specs, yields the empty
    sequence and raises nothing; the result of a call that returns is
    always a sequence. *)
Theorem empty_input (engine : Engine) (config : Config) :
  processData engine [] config = Return [].
Proof.
  unfold processData.
  destruct (has_length (selected filters config));
    rewrite ?applyFilters_nil; simpl;
    destruct (has_length (selected groupBy config));
    destruct (has_length (selected orderBy config)); reflexivity.
Qed.

(** ** Sorting with a comparator *)

Section Sorting.

Context {A : Type} (cmp : A -> A -> float).

Lemma consistent_on_incl (l l' : list A) :
  incl l' l -> consistent_on cmp l -> consistent_on cmp l'.
Proof.
  intros Hincl [He Ha Ht]. split.
  - intros a b Ha' Hb'. apply He; auto.
  - intros a b Ha' Hb'. apply Ha; auto.
  - intros a b c Ha' Hb' Hc'. apply Ht; auto.
Qed.

Lemma sort_insert_perm {B : Type} (c : B -> B -> float) (x : B) (l : list B) :
  Permutation (JsValue.sort_insert c x l) (x :: l).
Proof.
  induction l as [|y l IH]; simpl; [reflexivity|].
  destruct (0 <? c x y)%float; [|reflexivity].
  rewrite IH. apply perm_swap.
Qed.

Lemma sort_perm {B : Type} (c : B -> B -> float) (l : list B) :
  Permutation (JsValue.sort c l) l.
Proof.
  induction l as [|x l IH]; simpl; [reflexivity|].
  rewrite sort_insert_perm. now constructor.
Qed.

Lemma sort_insert_untag (x : nat * A) (l : list (nat * A)) :
  map snd (JsValue.sort_insert (tagged_cmp cmp) x l)
  = JsValue.sort_insert cmp (snd x) (map snd l).
Proof.
  induction l as [|y l IH]; simpl; [reflexivity|].
  unfold tagged_cmp at 1.
  destruct (0 <? cmp (snd x) (snd y))%float; simpl; [now rewrite IH|reflexivity].
Qed.

(** Sorting does not look at the tags. *)
Lemma sort_untag (l : list (nat * A)) :
  map snd (JsValue.sort (tagged_cmp cmp) l) = JsValue.sort cmp (map snd l).
Proof.
  induction l as [|x l IH]; simpl; [reflexivity|].
  now rewrite sort_insert_untag, IH.
Qed.

Lemma sort_insert_in_order (x : nat * A) (l : list (nat * A)) :
  StronglySorted (in_order cmp) l ->
  Forall (fun y => (fst x < fst y)%nat) l ->
  consistent_on cmp (snd x :: map snd l) ->
  StronglySorted (in_order cmp) (JsValue.sort_insert (tagged_cmp cmp) x l).
Proof.
  intros Hs Htag Hc. induction Hs as [|y l Hs IH Hy]; simpl.
  - repeat constructor.
  - inversion Htag as [|? ? Hxy Htag']; subst.
    assert (Hin_x : In (snd x) (snd x :: map snd (y :: l))) by now left.
    assert (Hin_y : In (snd y) (snd x :: map snd (y :: l)))
      by (right; now left).
    assert (Hin_l : forall z, In z l ->
               In (snd z) (snd x :: map snd (y :: l))).
    { intros z Hz. right; right. now apply in_map. }
    unfold tagged_cmp at 1.
    destruct (0 <? cmp (snd x) (snd y))%float eqn:Hafter.
    + constructor.
      * apply IH; [exact Htag'|].
        eapply consistent_on_incl; [|exact Hc].
        intros z [<-|Hz]; [now left|right; right; exact Hz].
      * assert (Hyx : in_order cmp y x).
        { left. rewrite <- (co_antisym _ _ Hc); auto. }
        eapply Permutation_Forall; [symmetry; apply sort_insert_perm|].
        constructor; [exact Hyx|exact Hy].
    + constructor; [now constructor|].
      assert (Hxy' : ranks_after cmp (snd x) (snd y) = false) by exact Hafter.
      constructor.
      * destruct (ranks_before cmp (snd x) (snd y)) eqn:Hb; [now left|].
        right. auto.
      * rewrite List.Forall_forall in Hy, Htag' |- *. intros z Hz.
        assert (Hyz : ranks_after cmp (snd y) (snd z) = false).
        { destruct (Hy z Hz) as [Hb|(_ & Ha & _)]; [|exact Ha].
          apply (co_exclusive _ _ Hc); auto. }
        assert (Hxz : ranks_after cmp (snd x) (snd z) = false).
        { apply (co_trans _ _ Hc) with (b := snd y); auto. }
        destruct (ranks_before cmp (snd x) (snd z)) eqn:Hb; [now left|].
        right. repeat split; auto.
Qed.

(** On a consistently ordered input the sort leaves any two elements in
    order, ties in input order. *)
Lemma sort_in_order (l : list (nat * A)) :
  StronglySorted (fun x y => (fst x < fst y)%nat) l ->
  consistent_on cmp (map snd l) ->
  StronglySorted (in_order cmp) (JsValue.sort (tagged_cmp cmp) l).
Proof.
  intros Htags Hc. induction Htags as [|x l Htags IH Hx]; simpl.
  - constructor.
  - apply sort_insert_in_order.
    + apply IH. eapply consistent_on_incl; [|exact Hc].
      intros z Hz. now right.
    + eapply Permutation_Forall; [symmetry; apply sort_perm|exact Hx].
    + eapply consistent_on_incl; [|exact Hc].
      intros z [<-|Hz]; [now left|]. right.
      eapply Permutation_in; [|exact Hz].
      apply Permutation_map, sort_perm.
Qed.

End Sorting.

(** ** Order stage *)

Lemma compareRows_decides (specs : list OrderSpec) (a b : Row) :
  Decides specs a b (classify (compareRows specs a b)).
Proof.
  induction specs as [|spec rest IH]; simpl.
  - apply decides_none.
  - destruct (JsValue.less_than (get a (order_column spec))
                                (get b (order_column spec))) eqn:Hab.
    + apply decides_here.
      * unfold spec_decision. rewrite Hab.
        destruct (String.eqb (order_direction spec) "asc"); reflexivity.
      * destruct (String.eqb (order_direction spec) "asc"); discriminate.
    + destruct (JsValue.less_than (get b (order_column spec))
                                  (get a (order_column spec))) eqn:Hba.
      * apply decides_here.
        -- unfold spec_decision. rewrite Hab, Hba.
           destruct (String.eqb (order_direction spec) "asc"); reflexivity.
        -- destruct (String.eqb (order_direction spec) "asc"); discriminate.
      * apply decides_later; [|exact IH].
        unfold spec_decision. now rewrite Hab, Hba.
Qed.

Lemma Decides_functional (specs : list OrderSpec) (a b : Row)
  (d d' : decision) :
  Decides specs a b d -> Decides specs a b d' -> d = d'.
Proof.
  intros H. revert d'.
  induction H as [a b|spec rest a b d Hd Hne|spec rest a b d Hd H IH];
    intros d' H'; inversion H'; subst; try congruence.
  now apply IH.
Qed.

Lemma classify_before (specs : list OrderSpec) (a b : Row) :
  ranks_before (compareRows specs) a b = true ->
  classify (compareRows specs a b) = Before.
Proof. unfold ranks_before, classify. now intros ->. Qed.

Lemma classify_tie (specs : list OrderSpec) (a b : Row) :
  ranks_before (compareRows specs) a b = false ->
  ranks_after (compareRows specs) a b = false ->
  classify (compareRows specs a b) = Tie.
Proof. unfold ranks_before, ranks_after, classify. now intros -> ->. Qed.

Lemma compareRows_exclusive (specs : list OrderSpec) (a b : Row) :
  ranks_before (compareRows specs) a b = true ->
  ranks_after (compareRows specs) a b = false.
Proof.
  unfold ranks_before, ranks_after.
  induction specs as [|spec rest IH]; simpl.
  - intros H. vm_compute in H. discriminate H.
  - destruct (JsValue.less_than (get a (order_column spec))
                                (get b (order_column spec)));
      [destruct (String.eqb (order_direction spec) "asc");
       intros H; solve [reflexivity | discriminate H]|].
    destruct (JsValue.less_than (get b (order_column spec))
                                (get a (order_column spec)));
      [destruct (String.eqb (order_direction spec) "asc");
       intros H; solve [reflexivity | discriminate H]|].
    exact IH.
Qed.

Lemma consistent_sound (specs : list OrderSpec) (records : list Row) :
  consistent specs records = true ->
  consistent_on (compareRows specs) records.
Proof.
  unfold consistent. rewrite forallb_forall. intros H. split.
  - intros a b _ _. apply compareRows_exclusive.
  - intros a b Ha Hb. specialize (H a Ha). rewrite forallb_forall in H.
    specialize (H b Hb). apply andb_prop in H as [H _].
    now apply Bool.eqb_prop.
  - intros a b c Ha Hb Hc Hab Hbc. specialize (H a Ha).
    rewrite forallb_forall in H. specialize (H b Hb).
    apply andb_prop in H as [_ H]. rewrite forallb_forall in H.
    specialize (H c Hc). rewrite Hab, Hbc in H. simpl in H.
    now apply negb_true_iff.
Qed.

Lemma indexed_from_sorted {A : Type} (l : list A) (start : nat) :
  StronglySorted (fun x y : nat * A => (fst x < fst y)%nat)
                 (combine (seq start (length l)) l).
Proof.
  revert start. induction l as [|x l IH]; intros start; simpl.
  - constructor.
  - constructor; [apply IH|].
    apply List.Forall_forall. intros [i y] Hin. simpl.
    apply in_combine_l in Hin. apply in_seq in Hin. lia.
Qed.

Lemma indexed_from_untag {A : Type} (l : list A) (start : nat) :
  map snd (combine (seq start (length l)) l) = l.
Proof.
  revert start. induction l as [|x l IH]; intros start; simpl;
    [reflexivity|]. now rewrite IH.
Qed.

Lemma StronglySorted_weaken {A : Type} (R R' : A -> A -> Prop) (l : list A) :
  (forall x y, R x y -> R' x y) ->
  StronglySorted R l -> StronglySorted R' l.
Proof.
  intros Himpl Hs. induction Hs as [|x l Hs IH Hx]; constructor; auto.
  eapply List.Forall_impl; [|exact Hx]. intros y; apply Himpl.
Qed.

(** C5, as the code has it: when the comparator built from the sort specs
    orders the records consistently, the order stage returns them sorted by
    the lexicographic key of the specs in array order, and records the
    specs all tie keep their input order. *)
Theorem order_stage_ranks (specs : list OrderSpec) (records : list Row) :
  consistent specs records = true ->
  Ranked specs records (orderStage specs records).
Proof.
  intros Hc. apply consistent_sound in Hc.
  exists (JsValue.sort (tagged_cmp (compareRows specs)) (indexed records)).
  split; [apply sort_perm|]. split.
  - unfold orderStage, indexed. now rewrite sort_untag, indexed_from_untag.
  - eapply StronglySorted_weaken;
      [|apply sort_in_order;
        [apply indexed_from_sorted
        |unfold indexed; now rewrite indexed_from_untag]].
    intros x y [Hb|(Hb & Ha & Hlt)].
    + left. rewrite <- (classify_before _ _ _ Hb). apply compareRows_decides.
    + right. split; [|exact Hlt].
      rewrite <- (classify_tie _ _ _ Hb Ha). apply compareRows_decides.
Qed.

Lemma order_stage_ranks_witness :
  Ranked [mkOrderSpec "a" "asc"] Sample.pairs
         (orderStage [mkOrderSpec "a" "asc"] Sample.pairs).
Proof.
  apply (order_stage_ranks [mkOrderSpec "a" "asc"] Sample.pairs).
  vm_compute. reflexivity.
Defined.

Ltac refute_order H :=
  let E := fresh "E" in
  destruct H as [H|[H ?]];
  [ pose proof (Decides_functional _ _ _ _ _ (compareRows_decides _ _ _) H) as E;
    vm_compute in E; discriminate E
  | first
      [ simpl in *; lia
      | pose proof (Decides_functional _ _ _ _ _ (compareRows_decides _ _ _) H)
          as E;
        vm_compute in E; discriminate E ] ].

(** C5, as stated, fails: a record without the sort column ties with every
    other record, so [{a:2}, {}, {a:1}] sorted by [a] ascending comes back
    unchanged, with [{a:2}] ahead of [{a:1}] although the spec ranks
    [{a:1}] first; no arrangement of the three records is ranked by the
    lexicographic key with ties in input order. *)
Lemma sort_ignores_decisive_spec :
  let rows : list Row := [ {["a" := Sample.num 2]}; ∅; {["a" := Sample.num 1]} ] in
  let specs := [mkOrderSpec "a" "asc"] in
  processData Sample.engine rows
    (Sample.selection None None None (Some specs)) = Return rows /\
  Decides specs {["a" := Sample.num 1]} {["a" := Sample.num 2]} Before /\
  forall output, ~ Ranked specs rows output.
Proof.
  split; [vm_compute; reflexivity|]. split.
  - apply decides_here; [vm_compute; reflexivity|discriminate].
  - intros output (tagged & Hperm & _ & Hs).
    pose proof (Permutation_length Hperm) as Hlen.
    destruct tagged as [|x [|y [|z [|? ?]]]]; try discriminate Hlen.
    assert (Hx : In x (indexed
              [ {["a" := Sample.num 2]}; ∅; {["a" := Sample.num 1]} ]))
      by (eapply Permutation_in; [exact Hperm|simpl; auto]).
    assert (Hy : In y (indexed
              [ {["a" := Sample.num 2]}; ∅; {["a" := Sample.num 1]} ]))
      by (eapply Permutation_in; [exact Hperm|simpl; auto]).
    assert (Hz : In z (indexed
              [ {["a" := Sample.num 2]}; ∅; {["a" := Sample.num 1]} ]))
      by (eapply Permutation_in; [exact Hperm|simpl; auto]).
    inversion Hs as [|? ? Hs' Hall]; subst.
    inversion Hall as [|? ? Hxy Hall']; subst.
    inversion Hall' as [|? ? Hxz _]; subst.
    inversion Hs' as [|? ? _ Hall'']; subst.
    inversion Hall'' as [|? ? Hyz _]; subst.
    clear Hs Hs' Hall Hall' Hall'' Hperm Hlen.
    unfold indexed in Hx, Hy, Hz. simpl in Hx, Hy, Hz.
    destruct Hx as [<-|[<-|[<-|[]]]], Hy as [<-|[<-|[<-|[]]]],
             Hz as [<-|[<-|[<-|[]]]];
      first [refute_order Hxy | refute_order Hxz | refute_order Hyz].
Qed.

(** ** Order stage: columns that compare consistently *)

Lemma Prim2SF_not_nan (x : float) :
  is_nan x = false -> Prim2SF x <> S754_nan.
Proof.
  intros H. unfold Prim2SF. rewrite H.
  destruct (is_zero x); [discriminate|].
  destruct (is_infinity x); [discriminate|].
  destruct (Z.frexp x) as [r e].
  destruct (shr_fexp prec emax _ _ _) as [shr e'].
  destruct (shr_m shr); discriminate.
Qed.

Ltac sf_cases :=
  repeat match goal with
         | |- context [Z.compare ?a ?b] => destruct (Z.compare_spec a b)
         | |- context [Pos.compare_cont Eq ?a ?b] =>
             change (Pos.compare_cont Eq a b) with (Pos.compare a b);
             destruct (Pos.compare_spec a b)
         end;
  simpl; try congruence; try lia.

Lemma SFltb_asym (a b : spec_float) :
  SFltb a b = true -> SFltb b a = false.
Proof.
  unfold SFltb, SFcompare.
  destruct a as [[]|[]| |[] ma ea], b as [[]|[]| |[] mb eb]; simpl;
    try congruence; sf_cases.
Qed.

Lemma SFltb_negtrans (a b c : spec_float) :
  a <> S754_nan -> b <> S754_nan -> c <> S754_nan ->
  SFltb b a = false -> SFltb c b = false -> SFltb c a = false.
Proof.
  unfold SFltb, SFcompare.
  destruct a as [[]|[]| |[] ma ea], b as [[]|[]| |[] mb eb],
           c as [[]|[]| |[] mc ec]; simpl; try congruence; intros _ _ _;
    sf_cases.
Qed.

Lemma float_ltb_asym (x y : float) :
  (x <? y)%float = true -> (y <? x)%float = false.
Proof. rewrite !ltb_spec. apply SFltb_asym. Qed.

Lemma float_ltb_negtrans (x y z : float) :
  is_nan x = false -> is_nan y = false -> is_nan z = false ->
  (y <? x)%float = false -> (z <? y)%float = false -> (z <? x)%float = false.
Proof.
  intros Hx Hy Hz. rewrite !ltb_spec.
  apply SFltb_negtrans; now apply Prim2SF_not_nan.
Qed.

Lemma string_compare_le_trans (a b c : string) :
  String.compare a b <> Gt -> String.compare b c <> Gt ->
  String.compare a c <> Gt.
Proof.
  revert b c. induction a as [|x a IH]; intros [|y b] [|z c]; simpl;
    try congruence.
  unfold Ascii.compare.
  destruct (N.compare_spec (N_of_ascii x) (N_of_ascii y)) as [Hxy|Hxy|Hxy],
           (N.compare_spec (N_of_ascii y) (N_of_ascii z)) as [Hyz|Hyz|Hyz];
    try congruence; intros Hab Hbc.
  - rewrite <- Hyz, Hxy, N.compare_refl. now apply (IH b c).
  - rewrite Hxy. apply N.compare_lt_iff in Hyz. now rewrite Hyz.
  - rewrite <- Hyz. apply N.compare_lt_iff in Hxy. now rewrite Hxy.
  - assert (H : (N_of_ascii x < N_of_ascii z)%N) by lia.
    apply N.compare_lt_iff in H. now rewrite H.
Qed.

Lemma string_ltb_asym (a b : string) :
  String.ltb a b = true -> String.ltb b a = false.
Proof.
  unfold String.ltb. rewrite (String.compare_antisym a b).
  now destruct (String.compare b a).
Qed.

Lemma string_ltb_negtrans (a b c : string) :
  String.ltb b a = false -> String.ltb c b = false -> String.ltb c a = false.
Proof.
  unfold String.ltb. intros Hba Hcb.
  pose proof (string_compare_le_trans a b c) as H.
  rewrite (String.compare_antisym a b), (String.compare_antisym b c),
    (String.compare_antisym a c) in H.
  destruct (String.compare b a), (String.compare c b), (String.compare c a);
    simpl in *; try discriminate; try reflexivity;
    exfalso; apply H; congruence.
Qed.

Section ComparableColumn.

Variable records : list Row.
Variable column : string.
Hypothesis comparable : comparable_column records column.

Let lt (a b : Row) : bool := JsValue.less_than (get a column) (get b column).

Lemma column_lt_asym (a b : Row) :
  In a records -> In b records -> lt a b = true -> lt b a = false.
Proof.
  intros Ha Hb. unfold lt.
  destruct comparable as [H|H]; rewrite List.Forall_forall in H.
  - destruct (H a Ha) as (x & -> & ?), (H b Hb) as (y & -> & ?); simpl.
    apply float_ltb_asym.
  - destruct (H a Ha) as (x & ->), (H b Hb) as (y & ->); simpl.
    apply string_ltb_asym.
Qed.

Lemma column_lt_negtrans (a b c : Row) :
  In a records -> In b records -> In c records ->
  lt b a = false -> lt c b = false -> lt c a = false.
Proof.
  intros Ha Hb Hc. unfold lt.
  destruct comparable as [H|H]; rewrite List.Forall_forall in H.
  - destruct (H a Ha) as (x & -> & ?), (H b Hb) as (y & -> & ?),
      (H c Hc) as (z & -> & ?); simpl. now apply float_ltb_negtrans.
  - destruct (H a Ha) as (x & ->), (H b Hb) as (y & ->),
      (H c Hc) as (z & ->); simpl. apply string_ltb_negtrans.
Qed.

Lemma spec_decision_lawful (direction : string) :
  lawful (spec_decision (mkOrderSpec column direction)) records.
Proof.
  split.
  - intros a b Ha Hb. unfold spec_decision; simpl. fold (lt a b) (lt b a).
    pose proof (column_lt_asym a b Ha Hb) as Hab.
    pose proof (column_lt_asym b a Hb Ha) as Hba.
    destruct (lt a b), (lt b a), (String.eqb direction "asc"); simpl;
      try reflexivity; (specialize (Hab eq_refl) || specialize (Hba eq_refl));
      discriminate.
  - intros a b c Ha Hb Hc. unfold spec_decision; simpl.
    fold (lt a b) (lt b a) (lt b c) (lt c b) (lt a c) (lt c a).
    pose proof (column_lt_asym a b Ha Hb) as Aab.
    pose proof (column_lt_asym b a Hb Ha) as Aba.
    pose proof (column_lt_asym b c Hb Hc) as Abc.
    pose proof (column_lt_asym c b Hc Hb) as Acb.
    pose proof (column_lt_asym a c Ha Hc) as Aac.
    pose proof (column_lt_asym c a Hc Ha) as Aca.
    pose proof (column_lt_negtrans a b c Ha Hb Hc) as T1.
    pose proof (column_lt_negtrans c b a Hc Hb Ha) as T2.
    pose proof (column_lt_negtrans b c a Hb Hc Ha) as T3.
    pose proof (column_lt_negtrans a c b Ha Hc Hb) as T4.
    pose proof (column_lt_negtrans b a c Hb Ha Hc) as T5.
    pose proof (column_lt_negtrans c a b Hc Ha Hb) as T6.
    destruct (lt a b), (lt b a), (lt b c), (lt c b), (lt a c), (lt c a),
      (String.eqb direction "asc"); simpl; intros; repeat split;
      try congruence;
      repeat match goal with
             | H : ?x = ?x -> _ |- _ => specialize (H eq_refl)
             end; congruence.
Qed.

End ComparableColumn.

Lemma decide_rows_cons (spec : OrderSpec) (rest : list OrderSpec) (a b : Row) :
  decide_rows (spec :: rest) a b
  = match spec_decision spec a b with
    | Tie => decide_rows rest a b
    | d => d
    end.
Proof.
  unfold decide_rows, spec_decision; simpl.
  destruct (JsValue.less_than (get a (order_column spec))
                              (get b (order_column spec)));
    [now destruct (String.eqb (order_direction spec) "asc")|].
  destruct (JsValue.less_than (get b (order_column spec))
                              (get a (order_column spec)));
    [now destruct (String.eqb (order_direction spec) "asc")|].
  reflexivity.
Qed.

Lemma decide_rows_lawful (specs : list OrderSpec) (records : list Row) :
  Forall (fun spec => comparable_column records (order_column spec)) specs ->
  lawful (decide_rows specs) records.
Proof.
  intros Hall. induction Hall as [|[column direction] rest Hcol _ [IHflip IHtrans]].
  - split; [reflexivity|]. intros a b c _ _ _ _ _. split; [discriminate|auto].
  - destruct (spec_decision_lawful records column Hcol direction)
      as [Hflip Htrans].
    split.
    + intros a b Ha Hb. rewrite !decide_rows_cons, (Hflip a b Ha Hb).
      destruct (spec_decision (mkOrderSpec column direction) a b); simpl;
        auto.
    + intros a b c Ha Hb Hc. rewrite !decide_rows_cons.
      specialize (Htrans a b c Ha Hb Hc). specialize (IHtrans a b c Ha Hb Hc).
      destruct (spec_decision (mkOrderSpec column direction) a b),
               (spec_decision (mkOrderSpec column direction) b c),
               (spec_decision (mkOrderSpec column direction) a c);
        simpl; intros Hab Hbc; try congruence;
        try (split; [discriminate|discriminate]);
        try (destruct Htrans as [Hne Htie]; try discriminate;
             solve [ exfalso; apply Hne; reflexivity
                   | destruct (Htie eq_refl); discriminate ]).
      now apply IHtrans.
Qed.

Lemma decide_rows_after (specs : list OrderSpec) (a b : Row) :
  ranks_after (compareRows specs) a b
  = match decide_rows specs a b with After => true | _ => false end.
Proof.
  unfold decide_rows, classify.
  pose proof (compareRows_exclusive specs a b) as H.
  unfold ranks_after, ranks_before in *.
  destruct (compareRows specs a b <? 0)%float; [now apply H|].
  now destruct (0 <? compareRows specs a b)%float.
Qed.

Lemma decide_rows_before (specs : list OrderSpec) (a b : Row) :
  ranks_before (compareRows specs) a b
  = match decide_rows specs a b with Before => true | _ => false end.
Proof.
  unfold decide_rows, classify, ranks_before.
  destruct (compareRows specs a b <? 0)%float; [reflexivity|].
  now destruct (0 <? compareRows specs a b)%float.
Qed.

(** When every sort column holds only numbers other than NaN, or only
    strings, the comparator orders the records consistently. *)
Lemma comparable_columns_consistent (specs : list OrderSpec)
  (records : list Row) :
  Forall (fun spec => comparable_column records (order_column spec)) specs ->
  consistent specs records = true.
Proof.
  intros Hall. destruct (decide_rows_lawful specs records Hall) as [Hflip Htrans].
  unfold consistent. apply forallb_forall. intros a Ha.
  apply forallb_forall. intros b Hb. apply andb_true_intro. split.
  - rewrite decide_rows_after, decide_rows_before, (Hflip a b Ha Hb).
    now destruct (decide_rows specs a b).
  - apply forallb_forall. intros c Hc. rewrite !decide_rows_after.
    specialize (Htrans a b c Ha Hb Hc).
    destruct (decide_rows specs a b), (decide_rows specs b c); simpl;
      try reflexivity;
      (destruct Htrans as [Hne _]; [discriminate|discriminate|];
       destruct (decide_rows specs a c); [reflexivity|now elim Hne|reflexivity]).
Qed.

(** ** Group stage: which groups, in which order *)

Lemma In_first_seen (keys : list string) (k : string) :
  In k (first_seen keys) <-> In k keys.
Proof.
  induction keys as [|k0 keys IH]; simpl; [tauto|].
  rewrite filter_In, IH.
  destruct (String.eqb_spec k k0) as [->|Hne]; simpl; [tauto|].
  split; [tauto|]. intros [H|H]; [congruence|tauto].
Qed.

Lemma NoDup_first_seen (keys : list string) : List.NoDup (first_seen keys).
Proof.
  induction keys as [|k keys IH]; simpl; constructor.
  - rewrite filter_In. intros [_ H]. now rewrite String.eqb_refl in H.
  - now apply List.NoDup_filter.
Qed.

Lemma existsb_eqb_In (k : string) (keys : list string) :
  existsb (String.eqb k) keys = true <-> In k keys.
Proof.
  rewrite existsb_exists. split.
  - intros (k' & Hin & Heq). apply String.eqb_eq in Heq. now subst.
  - intros Hin. exists k. split; [exact Hin|apply String.eqb_refl].
Qed.

Lemma existsb_first_seen (k : string) (keys : list string) :
  existsb (String.eqb k) (first_seen keys) = existsb (String.eqb k) keys.
Proof.
  apply Bool.eq_iff_eq_true. rewrite !existsb_eqb_In. apply In_first_seen.
Qed.

Lemma first_seen_snoc (keys : list string) (k : string) :
  first_seen (keys ++ [k])
  = (first_seen keys ++ if existsb (String.eqb k) keys then [] else [k])%list.
Proof.
  induction keys as [|k0 keys IH]; simpl; [reflexivity|].
  rewrite IH, List.filter_app. f_equal.
  destruct (String.eqb_spec k k0) as [->|Hne]; simpl.
  - destruct (existsb (String.eqb k0) keys); simpl;
      rewrite ?String.eqb_refl; simpl; now rewrite ?app_nil_r.
  - destruct (existsb (String.eqb k) keys); simpl; [reflexivity|].
    destruct (String.eqb_spec k k0); [contradiction|reflexivity].
Qed.

Section Grouping.

Variable groupBy : list string.

Let key (row : Row) : string := groupKey groupBy row.

Lemma grouped_push_keyed (F : string -> list Row) (ks : list string)
  (k0 : string) (row : Row) :
  List.NoDup ks ->
  grouped_push (map (fun k => (k, F k)) ks) k0 row
  = (map (fun k => (k, (F k ++ if String.eqb k k0 then [row] else [])%list)) ks
     ++ if existsb (String.eqb k0) ks then [] else [(k0, [row])])%list.
Proof.
  intros Hnd. induction Hnd as [|k ks Hk Hnd IH]; simpl; [reflexivity|].
  rewrite (String.eqb_sym k0 k).
  destruct (String.eqb_spec k k0) as [->|Hne]; simpl.
  - rewrite app_nil_r. f_equal. apply map_ext_in. intros k' Hk'.
    destruct (String.eqb_spec k' k0) as [->|_]; [contradiction|].
    now rewrite app_nil_r.
  - now rewrite IH, app_nil_r.
Qed.

Lemma group_of_snoc (rows : list Row) (row : Row) (k : string) :
  group_of groupBy (rows ++ [row]) k
  = (group_of groupBy rows k ++ if String.eqb k (key row) then [row] else [])%list.
Proof.
  unfold group_of. rewrite List.filter_app. simpl.
  now rewrite (String.eqb_sym k (key row)).
Qed.

Lemma group_of_unseen (rows : list Row) (k : string) :
  ~ In k (map key rows) -> group_of groupBy rows k = [].
Proof.
  induction rows as [|row rows IH]; simpl; [reflexivity|]. intros Hk.
  destruct (String.eqb_spec (groupKey groupBy row) k) as [Heq|_].
  - exfalso. apply Hk. now left.
  - apply IH. intros Hin. apply Hk. now right.
Qed.

Let pushed (rows : list Row) : list (string * list Row) :=
  fold_left (fun grouped row => grouped_push grouped (key row) row) rows [].

Lemma pushed_spec (rows : list Row) :
  pushed rows
  = map (fun k => (k, group_of groupBy rows k)) (first_seen (map key rows)).
Proof.
  induction rows as [|row rows IH] using rev_ind; [reflexivity|].
  unfold pushed in *. rewrite fold_left_app. simpl. rewrite IH.
  rewrite grouped_push_keyed by apply NoDup_first_seen.
  rewrite map_app. simpl. rewrite first_seen_snoc, map_app.
  fold (key row). f_equal.
  - apply map_ext. intros k. now rewrite group_of_snoc.
  - rewrite existsb_first_seen.
    destruct (existsb (String.eqb (key row)) (map key rows)) eqn:Hseen;
      [reflexivity|].
    simpl. rewrite group_of_snoc, String.eqb_refl.
    rewrite group_of_unseen; [reflexivity|].
    intros Hin. apply existsb_eqb_In in Hin. congruence.
Qed.

Lemma forEach_groupRow_plain (rows : list Row)
  (grouped : list (string * list Row)) :
  Forall (fun row => plain_key (key row)) rows ->
  array_forEach (groupRow groupBy) rows grouped
  = Return (fold_left (fun grouped row => grouped_push grouped (key row) row)
                      rows grouped).
Proof.
  revert grouped. induction rows as [|row rows IH]; intros grouped H;
    [reflexivity|].
  apply Forall_cons_1 in H as [Hrow Hrows].
  cbn [array_forEach fold_left]. unfold groupRow at 1.
  unfold plain_key, key in Hrow. rewrite Hrow. cbn [bind]. now apply IH.
Qed.

Lemma forEach_groupRow_inherited (rows : list Row)
  (grouped : list (string * list Row)) :
  Exists (fun row => ~ plain_key (key row)) rows ->
  array_forEach (groupRow groupBy) rows grouped = Throw TypeError.
Proof.
  revert grouped. induction rows as [|row rows IH]; intros grouped H;
    [now apply Exists_nil in H|].
  cbn [array_forEach]. unfold groupRow at 1.
  destruct (JsValue.prototype_lookup (groupKey groupBy row)) eqn:E;
    [reflexivity|].
  cbn [bind]. apply IH. apply Exists_cons in H as [H|H]; [now elim H | exact H].
Qed.

(** When no key names a member of [Object.prototype], [grouped] holds one
    entry per distinct key, in first-seen order, each with the rows of
    that key in input order. *)
Lemma groupRows_spec (rows : list Row) :
  Forall (fun row => plain_key (key row)) rows ->
  groupRows groupBy rows
  = Return (map (fun k => (k, group_of groupBy rows k))
                (first_seen (map key rows))).
Proof.
  intro H. unfold groupRows. rewrite forEach_groupRow_plain by exact H.
  f_equal. apply pushed_spec.
Qed.

(** Otherwise the first such key raises a TypeError. *)
Lemma groupRows_inherited (rows : list Row) :
  Exists (fun row => ~ plain_key (key row)) rows ->
  groupRows groupBy rows = Throw TypeError.
Proof. apply forEach_groupRow_inherited. Qed.

Lemma groupRows_returns (rows : list Row)
  (grouped : list (string * list Row)) :
  groupRows groupBy rows = Return grouped ->
  Forall (fun row => plain_key (key row)) rows.
Proof.
  intro H. apply List.Forall_forall. intros row Hrow.
  destruct (JsValue.prototype_lookup (key row)) eqn:E; [|exact E].
  rewrite groupRows_inherited in H; [discriminate|].
  apply List.Exists_exists. exists row. split; [exact Hrow|].
  unfold plain_key. now rewrite E.
Qed.

End Grouping.

(** [Object.entries] decides the order from the keys alone. *)
Section Entries.

Context {V W : Type} (g : string * V -> string * W).
Hypothesis g_key : forall e, fst (g e) = fst e.

Let retag (p : Z * (string * V)) : Z * (string * W) := (fst p, g (snd p)).

Lemma insert_indexed_map (i : Z) (e : string * V)
  (l : list (Z * (string * V))) :
  insert_indexed i (g e) (map retag l) = map retag (insert_indexed i e l).
Proof.
  induction l as [|[j e'] l IH]; simpl; [reflexivity|].
  destruct (i <? j); simpl; [reflexivity|]. now rewrite IH.
Qed.

Lemma indexed_entries_map (obj : list (string * V)) :
  indexed_entries (map g obj) = map retag (indexed_entries obj).
Proof.
  induction obj as [|e obj IH]; simpl; [reflexivity|].
  rewrite g_key, IH.
  destruct (array_index (fst e)); [apply insert_indexed_map|reflexivity].
Qed.

Lemma named_entries_map (obj : list (string * V)) :
  named_entries (map g obj) = map g (named_entries obj).
Proof.
  unfold named_entries.
  induction obj as [|e obj IH]; simpl; [reflexivity|].
  rewrite g_key, IH. now destruct (array_index (fst e)).
Qed.

Lemma objectEntries_map (obj : list (string * V)) :
  objectEntries (map g obj) = map g (objectEntries obj).
Proof.
  unfold objectEntries.
  rewrite indexed_entries_map, named_entries_map, map_app, !map_map.
  reflexivity.
Qed.

End Entries.

Lemma objectEntries_keyed {V : Type} (F : string -> V) (keys : list string) :
  objectEntries (map (fun k => (k, F k)) keys)
  = map (fun k => (k, F k)) (key_order keys).
Proof.
  unfold key_order.
  rewrite map_map.
  rewrite <- (objectEntries_map (fun e : string * unit => (fst e, F (fst e))))
    by reflexivity.
  now rewrite map_map.
Qed.

Lemma insert_indexed_perm {V : Type} (i : Z) (e : string * V)
  (l : list (Z * (string * V))) :
  Permutation (insert_indexed i e l) ((i, e) :: l).
Proof.
  induction l as [|[j e'] l IH]; simpl; [reflexivity|].
  destruct (i <? j); [reflexivity|]. rewrite IH. apply perm_swap.
Qed.

Lemma insert_indexed_sorted {V : Type} (i : Z) (e : string * V)
  (l : list (Z * (string * V))) :
  StronglySorted (fun p q => fst p <= fst q) l ->
  StronglySorted (fun p q => fst p <= fst q) (insert_indexed i e l).
Proof.
  intros Hs. induction Hs as [|[j e'] l Hs IH Hj]; simpl.
  - repeat constructor.
  - destruct (Z.ltb_spec i j).
    + constructor; [now constructor|]. constructor; [simpl; lia|].
      eapply List.Forall_impl; [|exact Hj]. simpl. intros; lia.
    + constructor; [exact IH|].
      eapply Permutation_Forall; [symmetry; apply insert_indexed_perm|].
      constructor; [simpl; lia|exact Hj].
Qed.

Lemma key_order_split (keys : list string) :
  key_order keys = (index_keys keys ++ name_keys keys)%list.
Proof.
  unfold key_order, objectEntries, index_keys, name_keys.
  rewrite map_app, map_map. f_equal.
  unfold named_entries, is_array_index.
  induction keys as [|k keys IH]; simpl; [reflexivity|].
  destruct (array_index k); simpl; now rewrite IH.
Qed.

Lemma indexed_entries_invariant (keys : list string) :
  let entries := indexed_entries (map (fun k => (k, tt)) keys) in
  StronglySorted (fun p q => fst p <= fst q) entries /\
  Forall (fun p => array_index (fst (snd p)) = Some (fst p)) entries /\
  Permutation (map (fun p => fst (snd p)) entries)
              (List.filter is_array_index keys).
Proof.
  induction keys as [|k keys (Hs & Hi & Hp)]; simpl.
  - repeat constructor.
  - unfold is_array_index at 1. destruct (array_index k) as [i|] eqn:Hk.
    + split; [now apply insert_indexed_sorted|]. split.
      * eapply Permutation_Forall; [symmetry; apply insert_indexed_perm|].
        constructor; [exact Hk|exact Hi].
      * rewrite (Permutation_map _ (insert_indexed_perm i (k, tt) _)).
        simpl. now constructor.
    + auto.
Qed.


Lemma filter_split_perm {A : Type} (f : A -> bool) (l : list A) :
  Permutation (List.filter f l ++ List.filter (fun x => negb (f x)) l) l.
Proof.
  induction l as [|x l IH]; simpl; [reflexivity|].
  destruct (f x); simpl.
  - now constructor.
  - rewrite <- Permutation_middle. now constructor.
Qed.

Lemma key_order_perm (keys : list string) : Permutation (key_order keys) keys.
Proof.
  rewrite key_order_split. unfold name_keys.
  destruct (indexed_entries_invariant keys) as (_ & _ & Hp).
  fold (index_keys keys) in Hp. rewrite Hp. apply filter_split_perm.
Qed.



(** The group stage, record by record, when no key names a member of
    [Object.prototype]. *)
Lemma groupStage_spec (engine : Engine) (groupBy : list string)
  (aggs : option (list Aggregation)) (rows : list Row) :
  Forall (fun row => plain_key (groupKey groupBy row)) rows ->
  groupStage engine groupBy aggs rows
  = array_map (groupRecord engine groupBy aggs)
      (map (fun k => (k, group_of groupBy rows k))
           (key_order (first_seen (map (groupKey groupBy) rows)))).
Proof.
  intro H. unfold groupStage. rewrite groupRows_spec by exact H.
  cbn [bind]. now rewrite objectEntries_keyed.
Qed.

Lemma groupStage_inherited (engine : Engine) (groupBy : list string)
  (aggs : option (list Aggregation)) (rows : list Row) :
  Exists (fun row => ~ plain_key (groupKey groupBy row)) rows ->
  groupStage engine groupBy aggs rows = Throw TypeError.
Proof.
  intro H. unfold groupStage. now rewrite groupRows_inherited.
Qed.





(** ** Group stage: the fields of a record *)

Ltac case_function fn name :=
  destruct (String.eqb_spec fn name) as [->|?].

Lemma spread_call_spec (engine : Engine) (f : list float -> float)
  (values : list float) :
  spread_call engine f values
  = if (max_arguments engine <? length values)%nat then Throw RangeError
    else Return (f values).
Proof.
  unfold spread_call.
  destruct (Nat.leb_spec (length values) (max_arguments engine));
    destruct (Nat.ltb_spec (max_arguments engine) (length values));
    solve [reflexivity | lia].
Qed.

(** One aggregation: it raises when it spreads too many values, and
    otherwise stores the aggregate of the column's values, or nothing for
    a function that is not recognized. *)
Lemma applyAggregation_spec (engine : Engine) (rows : list Row) (result : Row)
  (agg : Aggregation) :
  applyAggregation engine rows result agg
  = if overflows engine rows agg then Throw RangeError
    else Return
           match aggregateValue (agg_function agg)
                   (columnValues rows (agg_column agg)) with
           | Some x =>
               <[agg_column agg ++ "_" ++ agg_function agg := SNum x]> result
           | None => result
           end.
Proof.
  destruct agg as [column fn].
  unfold applyAggregation, overflows, spreads, aggregateValue.
  cbn [agg_column agg_function].
  case_function fn "sum"; [reflexivity|].
  case_function fn "avg"; [reflexivity|].
  case_function fn "count"; [reflexivity|].
  case_function fn "min".
  { cbn -[Nat.ltb length JsValue.math_min JsValue.math_max].
    destruct (columnValues rows column) as [|v vs]; [reflexivity|].
    rewrite spread_call_spec. now destruct (_ <? _)%nat. }
  case_function fn "max".
  { cbn -[Nat.ltb length JsValue.math_min JsValue.math_max].
    destruct (columnValues rows column) as [|v vs]; [reflexivity|].
    rewrite spread_call_spec. now destruct (_ <? _)%nat. }
  case_function fn "median"; [reflexivity|].
  case_function fn "std_dev"; [reflexivity|].
  repeat match goal with
         | H : fn <> ?name |- _ =>
             apply String.eqb_neq in H; rewrite ?H; clear H
         end.
  reflexivity.
Qed.

Lemma aggregateValue_unrecognized (fn : string) (values : list float) :
  recognized fn = false -> aggregateValue fn values = None.
Proof.
  unfold recognized, aggregateValue; simpl.
  case_function fn "sum"; [discriminate|].
  case_function fn "avg"; [discriminate|].
  case_function fn "count"; [discriminate|].
  case_function fn "min"; [discriminate|].
  case_function fn "max"; [discriminate|].
  case_function fn "median"; [discriminate|].
  case_function fn "std_dev"; [discriminate|].
  reflexivity.
Qed.

Lemma aggregateValue_of_recognized (fn : string) (values : list float) :
  recognized fn = true -> exists x, aggregateValue fn values = Some x.
Proof.
  unfold recognized, aggregateValue; simpl.
  case_function fn "sum"; [eauto|].
  case_function fn "avg"; [eauto|].
  case_function fn "count"; [eauto|].
  case_function fn "min"; [eauto|].
  case_function fn "max"; [eauto|].
  case_function fn "median"; [eauto|].
  case_function fn "std_dev"; [eauto|].
  discriminate.
Qed.

Lemma spreads_recognized (fn : string) :
  spreads fn = true -> recognized fn = true.
Proof.
  unfold spreads. intros [H|H]%orb_true_iff; apply String.eqb_eq in H;
    now subst.
Qed.

Lemma applyAggregation_unrecognized (engine : Engine) (rows : list Row)
  (result : Row) (agg : Aggregation) :
  recognized (agg_function agg) = false ->
  applyAggregation engine rows result agg = Return result.
Proof.
  intro H. rewrite applyAggregation_spec.
  rewrite (aggregateValue_unrecognized _ _ H). unfold overflows.
  destruct (spreads (agg_function agg)) eqn:E; [|reflexivity].
  apply spreads_recognized in E. congruence.
Qed.

(** What an aggregation that returns has done to the record. *)
Lemma applyAggregation_returns (engine : Engine) (rows : list Row)
  (result result' : Row) (agg : Aggregation) :
  applyAggregation engine rows result agg = Return result' ->
  dom result' =@{gset string} dom result ∪ list_to_set (aggregateFields [agg])
  /\ forall col, ~ In col (aggregateFields [agg]) ->
       result' !! col = result !! col.
Proof.
  rewrite applyAggregation_spec.
  destruct (overflows engine rows agg); [discriminate|]. intros [= <-].
  unfold aggregateFields. cbn [flat_map]. rewrite app_nil_r.
  destruct (recognized (agg_function agg)) eqn:E.
  - destruct (aggregateValue_of_recognized _
                (columnValues rows (agg_column agg)) E) as [x ->].
    split.
    + rewrite dom_insert_L. set_solver.
    + intros col Hcol. apply lookup_insert_ne. intros <-. apply Hcol.
      now left.
  - rewrite (aggregateValue_unrecognized _ _ E). split; [set_solver | auto].
Qed.

Lemma last_unit_append (a b : string) (c d : ascii) :
  last_unit (a ++ String c b) d = last_unit b c.
Proof.
  revert d. induction a as [|x a IH]; intro d; [reflexivity|].
  change (String x a ++ String c b) with (String x (a ++ String c b)).
  cbn [last_unit]. apply IH.
Qed.

(** No aggregate field is called [__proto__]. *)
Lemma aggregateFields_not_proto (aggs : list Aggregation) :
  ~ In "__proto__" (aggregateFields aggs).
Proof.
  unfold aggregateFields. rewrite in_flat_map.
  intros ([column fn] & _ & Hfield). cbn [agg_column agg_function] in Hfield.
  destruct (recognized fn) eqn:E; [|destruct Hfield].
  destruct Hfield as [Hfield|[]].
  apply (f_equal (fun s => last_unit s "x")) in Hfield.
  change (column ++ "_" ++ fn) with (column ++ String "_" fn) in Hfield.
  rewrite last_unit_append in Hfield.
  apply existsb_eqb_In in E. cbn in E.
  repeat (destruct E as [<-|E]; [discriminate Hfield|]). destruct E.
Qed.

Lemma aggregateFields_cons (agg : Aggregation) (aggs : list Aggregation) :
  aggregateFields (agg :: aggs)
  = (aggregateFields [agg] ++ aggregateFields aggs)%list.
Proof. unfold aggregateFields. simpl. now rewrite app_nil_r. Qed.

Lemma forEach_applyAggregation_returns (engine : Engine) (rows : list Row)
  (aggs : list Aggregation) (result result' : Row) :
  array_forEach (applyAggregation engine rows) aggs result = Return result' ->
  dom result' =@{gset string} dom result ∪ list_to_set (aggregateFields aggs)
  /\ forall col, ~ In col (aggregateFields aggs) ->
       result' !! col = result !! col.
Proof.
  revert result. induction aggs as [|agg aggs IH]; intros result.
  - cbn. intros [= <-]. split; [set_solver | auto].
  - cbn [array_forEach].
    destruct (applyAggregation engine rows result agg) as [mid|] eqn:E;
      [|discriminate].
    cbn [bind]. intros H.
    apply applyAggregation_returns in E as [Hd Hl].
    apply IH in H as [Hd' Hl'].
    rewrite (aggregateFields_cons agg aggs). split.
    + rewrite Hd', Hd, list_to_set_app_L. set_solver.
    + intros col Hcol. rewrite Hl', Hl; [reflexivity| |];
        intro; apply Hcol, in_or_app; auto.
Qed.

Lemma assign_dom (result : Row) (col : string) (v : scalar) :
  dom (assign result col v)
  =@{gset string} dom result ∪ list_to_set (fieldColumns [col]).
Proof.
  unfold assign, fieldColumns. cbn [List.filter].
  destruct (String.eqb col "__proto__"); cbn.
  - set_solver.
  - rewrite dom_insert_L. set_solver.
Qed.

Lemma fieldColumns_cons (col : string) (cols : list string) :
  fieldColumns (col :: cols) = (fieldColumns [col] ++ fieldColumns cols)%list.
Proof.
  unfold fieldColumns. cbn [List.filter].
  now destruct (negb (String.eqb col "__proto__")).
Qed.

Lemma groupFields_dom (groupBy : list string) (key : string) :
  dom (groupFields groupBy key)
  =@{gset string} list_to_set (fieldColumns groupBy).
Proof.
  unfold groupFields. generalize (JsString.split "|" key) as parts.
  intros parts.
  assert (H : forall (start : nat) (result : Row),
    dom (fold_left
           (fun (result : Row) (entry : nat * string) =>
              let '(index, col) := entry in
              assign result col
                match nth_error parts index with
                | Some part => SStr part
                | None => SUndef
                end)
           (combine (seq start (length groupBy)) groupBy) result)
    =@{gset string} dom result ∪ list_to_set (fieldColumns groupBy)).
  { induction groupBy as [|col cols IH]; intros start result.
    - cbn. set_solver.
    - cbn [length seq combine fold_left].
      rewrite IH, assign_dom, (fieldColumns_cons col cols).
      rewrite list_to_set_app_L. set_solver. }
  rewrite H. set_solver.
Qed.

Lemma In_fieldColumns (groupBy : list string) (col : string) :
  In col (fieldColumns groupBy) <-> In col groupBy /\ col <> "__proto__".
Proof.
  unfold fieldColumns. rewrite filter_In, negb_true_iff, String.eqb_neq.
  tauto.
Qed.

Lemma elements_without_length {A : Type} (field : option (list A)) :
  has_length field = false -> elements field = [].
Proof. destruct field as [[|? ?]|]; simpl; congruence. Qed.

(** What a record that is returned holds. *)
Lemma groupRecord_returns (engine : Engine) (groupBy : list string)
  (aggs : option (list Aggregation)) (key : string) (rows : list Row)
  (record : Row) :
  groupRecord engine groupBy aggs (key, rows) = Return record ->
  dom record
  =@{gset string}
  list_to_set (fieldColumns groupBy)
  ∪ list_to_set (aggregateFields (elements aggs))
  /\ forall col, ~ In col (aggregateFields (elements aggs)) ->
       record !! col = groupFields groupBy key !! col.
Proof.
  unfold groupRecord. destruct (has_length aggs) eqn:Hlen.
  - intro H. apply forEach_applyAggregation_returns in H as [Hd Hl].
    split; [now rewrite Hd, groupFields_dom | exact Hl].
  - intros [= <-]. rewrite (elements_without_length _ Hlen), groupFields_dom.
    split; [cbn; set_solver | auto].
Qed.

Lemma array_map_In {A B : Type} (f : A -> outcome B) (l : list A)
  (out : list B) (y : B) :
  array_map f l = Return out -> In y out -> exists x, In x l /\ f x = Return y.
Proof.
  revert out. induction l as [|x t IH]; intros out; cbn.
  - intros [= <-] [].
  - destruct (f x) as [y0|] eqn:E; [|discriminate]. cbn.
    destruct (array_map f t) as [rest|]; [|discriminate]. cbn.
    intros [= <-] [<-|Hin].
    + exists x. split; [now left | exact E].
    + destruct (IH rest eq_refl Hin) as (x' & Hx' & Hfx').
      exists x'. split; [now right | exact Hfx'].
Qed.

Lemma In_array_map {A B : Type} (f : A -> outcome B) (l : list A)
  (out : list B) (x : A) :
  array_map f l = Return out -> In x l -> exists y, In y out /\ f x = Return y.
Proof.
  revert out. induction l as [|x0 t IH]; intros out; cbn.
  - intros _ [].
  - destruct (f x0) as [y0|] eqn:E; [|discriminate]. cbn.
    destruct (array_map f t) as [rest|]; [|discriminate]. cbn.
    intros [= <-] [<-|Hin].
    + exists y0. split; [now left | exact E].
    + destruct (IH rest eq_refl Hin) as (y & Hy & Hfy).
      exists y. split; [now right | exact Hfy].
Qed.

(** The steps of a run of the pipeline that returns. *)
Lemma processData_returns (engine : Engine) (rawData processed : list Row)
  (config : Config) :
  processData engine rawData config = Return processed ->
  exists filtered grouped,
    (if has_length (selected filters config)
     then applyFilters (elements (selected filters config)) rawData
     else Return rawData) = Return filtered /\
    (if has_length (selected groupBy config)
     then groupStage engine (elements (selected groupBy config))
            (selected aggregations config) filtered
     else Return filtered) = Return grouped /\
    processed = (if has_length (selected orderBy config)
                 then orderStage (elements (selected orderBy config)) grouped
                 else grouped).
Proof.
  unfold processData. intro H.
  destruct (if has_length (selected filters config) then _ else _)
    as [filtered|] eqn:Ef; [|discriminate]. cbn [bind] in H.
  destruct (if has_length (selected groupBy config) then _ else _)
    as [grouped|] eqn:Eg; [|discriminate]. cbn [bind] in H.
  injection H as <-. exists filtered, grouped. auto.
Qed.

Lemma In_ordered (config : Config) (grouped : list Row) (record : Row) :
  In record (if has_length (selected orderBy config)
             then orderStage (elements (selected orderBy config)) grouped
             else grouped)
  <-> In record grouped.
Proof.
  destruct (has_length (selected orderBy config)); [|tauto].
  split; apply Permutation_in; [apply sort_perm | symmetry; apply sort_perm].
Qed.

(** Every record of a grouped run is the record of one of its groups. *)
Lemma grouped_record (engine : Engine) (rawData processed : list Row)
  (config : Config) (record : Row) :
  has_length (selected groupBy config) = true ->
  processData engine rawData config = Return processed ->
  In record processed ->
  exists key rows,
    groupRecord engine (elements (selected groupBy config))
      (selected aggregations config) (key, rows) = Return record.
Proof.
  intros Hg H Hin.
  apply processData_returns in H as (filtered & grouped & _ & Hgr & ->).
  rewrite Hg in Hgr. apply In_ordered in Hin.
  unfold groupStage in Hgr.
  destruct (groupRows _ filtered) as [groups|]; [|discriminate].
  cbn [bind] in Hgr.
  destruct (array_map_In _ _ _ _ Hgr Hin) as ([key rows] & _ & Hrec). eauto.
Qed.

(** C9, as the code has it: with a non-empty group-by list, every record
    the pipeline returns has exactly one field per group-by column other
    than [__proto__], plus the field [<column>_<function>] of each
    aggregation whose function is one of the seven recognized names; any
    other column is absent from the record, and an aggregation with
    another function leaves the record as it is and raises nothing. *)
Theorem group_record_fields (engine : Engine) (rows : list Row)
  (config : Config) (out : list Row) (record : Row) :
  has_length (selected groupBy config) = true ->
  processData engine rows config = Return out ->
  In record out ->
  let columns := elements (selected groupBy config) in
  let fields := aggregateFields (elements (selected aggregations config)) in
  dom record
  =@{gset string} list_to_set columns ∖ {["__proto__"]} ∪ list_to_set fields /\
  (forall column,
     ~ In column columns -> ~ In column fields -> record !! column = None) /\
  record !! "__proto__" = None /\
  (forall (group : list Row) (result : Row) (agg : Aggregation),
     ~ In (agg_function agg) recognized_functions ->
     applyAggregation engine group result agg = Return result).
Proof.
  intros Hgroup Hrun Hin columns fields.
  destruct (grouped_record _ _ _ _ _ Hgroup Hrun Hin) as (key & members & Hrec).
  apply groupRecord_returns in Hrec as [Hdom _].
  assert (Hdom' : dom record
                  =@{gset string}
                  list_to_set columns ∖ {["__proto__"]} ∪ list_to_set fields).
  { rewrite Hdom. fold columns fields. apply set_eq. intro col.
    rewrite !elem_of_union, elem_of_difference, !elem_of_list_to_set,
      !list_elem_of_In, In_fieldColumns, elem_of_singleton. tauto. }
  pose proof (aggregateFields_not_proto
                (elements (selected aggregations config))) as Hproto.
  fold fields in Hproto.
  split; [exact Hdom'|]. split; [|split].
  - intros column Hc Hf. apply not_elem_of_dom. rewrite Hdom'.
    rewrite elem_of_union, elem_of_difference, !elem_of_list_to_set,
      !list_elem_of_In. tauto.
  - apply not_elem_of_dom. rewrite Hdom'.
    rewrite elem_of_union, elem_of_difference, !elem_of_list_to_set,
      !list_elem_of_In, elem_of_singleton. tauto.
  - intros group result agg Hfn. apply applyAggregation_unrecognized.
    unfold recognized.
    destruct (existsb (String.eqb (agg_function agg)) recognized_functions)
      eqn:E; [|reflexivity].
    apply existsb_eqb_In in E. contradiction.
Qed.

Lemma group_record_fields_witness :
  let config :=
    Sample.selection None (Some ["g"])
      (Some [mkAggregation "v" "sum"; mkAggregation "v" "mode"]) None in
  let record : Row := <["v_sum" := Sample.num 30]> {["g" := SStr "x"]} in
  dom record
  =@{gset string}
  list_to_set ["g"] ∖ {["__proto__"]} ∪ list_to_set ["v_sum"] /\
  (forall column,
     ~ In column ["g"] -> ~ In column ["v_sum"] -> record !! column = None) /\
  record !! "__proto__" = None /\
  (forall (group : list Row) (result : Row) (agg : Aggregation),
     ~ In (agg_function agg) recognized_functions ->
     applyAggregation Sample.engine group result agg = Return result).
Proof.
  intros config record.
  apply (group_record_fields Sample.engine Sample.sales config
           [record; <["v_sum" := Sample.num 5]> {["g" := SStr "y"]}] record).
  - reflexivity.
  - vm_compute. reflexivity.
  - simpl. left. reflexivity.
Defined.

(** C9, as stated, fails: grouping by the column [__proto__] gives a
    record without a field of that name.  Every row reads the prototype
    there, the one group has the key [[object Object]], and the
    assignment [result['__proto__'] = ...] stores nothing. *)
Lemma proto_column_gets_no_field :
  let rows : list Row := [ {["a" := Sample.num 1]}; {["a" := Sample.num 2]} ] in
  let config := Sample.selection None (Some ["__proto__"]) None None in
  has_length (selected groupBy config) = true /\
  groupKey ["__proto__"] {["a" := Sample.num 1]} = "[object Object]" /\
  processData Sample.engine rows config = Return [∅] /\
  dom (∅ : Row) ≠@{gset string} list_to_set ["__proto__"].
Proof.
  split; [reflexivity|]. split; [reflexivity|]. split.
  - vm_compute. reflexivity.
  - rewrite dom_empty_L. cbn. intro H.
    assert (Hin : "__proto__" ∈@{gset string} ∅)
      by (rewrite H; set_solver).
    set_solver.
Qed.

(** ** Group stage: what the aggregates are computed from *)

Lemma contribution_spec (cell : scalar) :
  contribution cell
  = if is_nan (JsValue.to_number cell) then [] else [JsValue.to_number cell].
Proof. now destruct cell as [| |[]|x|s|o]. Qed.

Lemma columnValues_coercible (rows : list Row) (column : string) :
  columnValues rows column = coercible (map (fun row => get row column) rows).
Proof.
  unfold columnValues, coercible.
  induction rows as [|row rows IH]; simpl; [reflexivity|].
  rewrite IH, contribution_spec.
  now destruct (is_nan (JsValue.to_number (get row column))).
Qed.

Lemma coercible_app (cells cells' : list scalar) :
  coercible (cells ++ cells') = (coercible cells ++ coercible cells')%list.
Proof. unfold coercible. apply flat_map_app. Qed.

Lemma coercible_drops (pre post : list scalar) (cell : scalar) :
  contribution cell = [] ->
  coercible (pre ++ cell :: post) = coercible (pre ++ post).
Proof.
  intros Hnone. rewrite !coercible_app. f_equal.
  unfold coercible at 1. simpl. now rewrite Hnone.
Qed.

(** C4, as the code has it: each aggregate field is a function of exactly
    the values its column contributes within the group.  A cell
    contributes nothing when it is undefined or missing, NaN or text that
    is no numeral, so ['a','b',3] sums to 3 and counts 1; null, false and
    empty or blank text contribute 0 and true contributes 1, and they are
    counted.  [count] is the number of contributed values.  An aggregation
    raises only when [min] or [max] spreads more values than the engine
    takes. *)
Theorem aggregates_use_coercible_values (engine : Engine) (rows : list Row)
  (result : Row) (agg : Aggregation) :
  let column := agg_column agg in
  let values := coercible (map (fun row => get row column) rows) in
  columnValues rows column = values /\
  (forall rows',
     coercible (map (fun row => get row column) rows') = values ->
     applyAggregation engine rows' result agg
     = applyAggregation engine rows result agg) /\
  applyAggregation engine rows result agg
  = (if spreads (agg_function agg) &&
        (max_arguments engine <? length values)%nat
     then Throw RangeError
     else Return
            match aggregateValue (agg_function agg) values with
            | Some x => <[column ++ "_" ++ agg_function agg := SNum x]> result
            | None => result
            end) /\
  applyAggregation engine rows result (mkAggregation column "count")
  = Return (<[column ++ "_count" := SNum (JsNumber.of_nat (length values))]>
              result) /\
  (forall row : Row,
     row !! column = None -> contribution (get row column) = []) /\
  map contribution
      [SUndef; SNum nan; SStr "a"; SStr "12px"; SNull; SBool false; SStr "";
       SStr " "; SBool true; SStr " 12.5 "]
  = [[]; []; []; []; [zero]; [zero]; [zero]; [zero]; [one];
     [JsNumber.of_decimal false 125 (-1)]] /\
  (let group : list Row :=
     [ {["v" := SStr "a"]}; {["v" := SStr "b"]}; {["v" := Sample.num 3]} ] in
   applyAggregation engine group ∅ (mkAggregation "v" "sum")
   = Return {["v_sum" := Sample.num 3]} /\
   applyAggregation engine group ∅ (mkAggregation "v" "count")
   = Return {["v_count" := Sample.num 1]}).
Proof.
  intros column values.
  assert (Hvalues : columnValues rows column = values)
    by apply columnValues_coercible.
  split; [exact Hvalues|]. split; [|split; [|split; [|split; [|split]]]].
  - intros rows' H. rewrite !applyAggregation_spec. unfold overflows.
    fold column. now rewrite !columnValues_coercible, H.
  - rewrite applyAggregation_spec. unfold overflows. fold column.
    now rewrite Hvalues.
  - rewrite applyAggregation_spec. unfold overflows.
    cbn [agg_column agg_function]. now rewrite Hvalues.
  - intros row Habsent. unfold get, inherited. rewrite Habsent.
    now destruct (JsValue.prototype_lookup column).
  - vm_compute. reflexivity.
  - cbv zeta. rewrite !applyAggregation_spec. split; vm_compute; reflexivity.
Qed.

(** C4, as stated, fails: null, the empty text and false are no numbers,
    yet each of them enters the aggregates as 0.  A group of three rows
    with these cells has [count] 3, the number of its rows, and [sum]
    0. *)
Lemma null_and_blank_count_as_zero :
  let rows : list Row :=
    [ <["v" := SNull]> {["g" := SStr "x"]};
      <["v" := SStr ""]> {["g" := SStr "x"]};
      <["v" := SBool false]> {["g" := SStr "x"]} ] in
  let config :=
    Sample.selection None (Some ["g"])
      (Some [mkAggregation "v" "count"; mkAggregation "v" "sum"]) None in
  processData Sample.engine rows config
  = Return [ <["v_sum" := Sample.num 0]>
               (<["v_count" := Sample.num 3]> {["g" := SStr "x"]}) ] /\
  length rows = 3%nat.
Proof. vm_compute. split; reflexivity. Qed.

(** ** Group stage: absent cells *)

Lemma filterPredicate_same (filter : Filter) (row row' : Row) :
  same_cells row row' -> filterPredicate filter row = filterPredicate filter row'.
Proof. intros H. unfold filterPredicate. now rewrite (H (filter_column filter)). Qed.

Lemma array_filter_same (filter : Filter) (l l' : list Row) :
  Forall2 same_cells l l' ->
  same_outcome (array_filter (filterPredicate filter) l)
               (array_filter (filterPredicate filter) l').
Proof.
  intros H. induction H as [|row row' l l' Hrow Hl IH]; simpl.
  - constructor.
  - rewrite (filterPredicate_same filter row row' Hrow).
    destruct (filterPredicate filter row') as [keep|e]; simpl; [|reflexivity].
    destruct (array_filter (filterPredicate filter) l) as [kept|e],
             (array_filter (filterPredicate filter) l') as [kept'|e'];
      simpl in *; try contradiction; auto.
    destruct keep; [now constructor|exact IH].
Qed.

Lemma applyFilters_same (fs : list Filter) (l l' : list Row) :
  Forall2 same_cells l l' ->
  same_outcome (applyFilters fs l) (applyFilters fs l').
Proof.
  revert l l'. induction fs as [|filter fs IH]; intros l l' H; simpl.
  - exact H.
  - pose proof (array_filter_same filter l l' H) as Hf.
    destruct (array_filter (filterPredicate filter) l) as [kept|e],
             (array_filter (filterPredicate filter) l') as [kept'|e'];
      simpl in *; try contradiction; auto.
Qed.

Lemma groupKey_same (groupBy : list string) (row row' : Row) :
  same_cells row row' -> groupKey groupBy row = groupKey groupBy row'.
Proof.
  intros H. unfold groupKey. f_equal. apply map_ext. intros col. apply H.
Qed.

Lemma map_groupKey_same (groupBy : list string) (l l' : list Row) :
  Forall2 same_cells l l' ->
  map (groupKey groupBy) l = map (groupKey groupBy) l'.
Proof.
  intros H. induction H as [|row row' l l' Hrow Hl IH]; simpl; [reflexivity|].
  now rewrite IH, (groupKey_same groupBy row row' Hrow).
Qed.

Lemma group_of_same (groupBy : list string) (l l' : list Row) (key : string) :
  Forall2 same_cells l l' ->
  Forall2 same_cells (group_of groupBy l key) (group_of groupBy l' key).
Proof.
  intros H. unfold group_of.
  induction H as [|row row' l l' Hrow Hl IH]; simpl; [constructor|].
  rewrite (groupKey_same groupBy row row' Hrow).
  destruct (String.eqb (groupKey groupBy row') key); [now constructor|exact IH].
Qed.

Lemma columnValues_same (l l' : list Row) (column : string) :
  Forall2 same_cells l l' -> columnValues l column = columnValues l' column.
Proof.
  intros H. unfold columnValues. f_equal.
  induction H as [|row row' l l' Hrow Hl IH]; simpl; [reflexivity|].
  now rewrite IH, (Hrow column).
Qed.

Lemma groupRecord_same (engine : Engine) (groupBy : list string)
  (aggs : option (list Aggregation)) (key : string) (l l' : list Row) :
  Forall2 same_cells l l' ->
  groupRecord engine groupBy aggs (key, l)
  = groupRecord engine groupBy aggs (key, l').
Proof.
  intros H. unfold groupRecord.
  destruct (has_length aggs); [|reflexivity].
  generalize (groupFields groupBy key) as result.
  induction (elements aggs) as [|agg rest IH]; intros result;
    cbn [array_forEach]; [reflexivity|].
  assert (Hagg : applyAggregation engine l result agg
                 = applyAggregation engine l' result agg).
  { unfold applyAggregation.
    now rewrite (columnValues_same l l' (agg_column agg) H). }
  rewrite Hagg.
  destruct (applyAggregation engine l' result agg); cbn [bind];
    [apply IH | reflexivity].
Qed.

Lemma plain_key_dec (key : string) : {plain_key key} + {~ plain_key key}.
Proof.
  unfold plain_key. destruct (JsValue.prototype_lookup key);
    [right; discriminate | left; reflexivity].
Defined.

Lemma plain_keys_same (groupBy : list string) (l l' : list Row) :
  Forall2 same_cells l l' ->
  Forall (fun row => plain_key (groupKey groupBy row)) l ->
  Forall (fun row => plain_key (groupKey groupBy row)) l'.
Proof.
  induction 1 as [|row row' l l' Hrow Hl IH]; intro H; constructor.
  - apply Forall_cons_1 in H as [H _].
    now rewrite <- (groupKey_same groupBy row row' Hrow).
  - apply IH. now apply Forall_cons_1 in H as [_ H].
Qed.

Lemma inherited_keys_same (groupBy : list string) (l l' : list Row) :
  Forall2 same_cells l l' ->
  Exists (fun row => ~ plain_key (groupKey groupBy row)) l ->
  Exists (fun row => ~ plain_key (groupKey groupBy row)) l'.
Proof.
  induction 1 as [|row row' l l' Hrow Hl IH]; intro H.
  - now apply Exists_nil in H.
  - apply Exists_cons in H as [H|H].
    + left. now rewrite <- (groupKey_same groupBy row row' Hrow).
    + right. now apply IH.
Qed.

Lemma array_map_ext_in {A B : Type} (f g : A -> outcome B) (l : list A) :
  (forall x, In x l -> f x = g x) -> array_map f l = array_map g l.
Proof.
  induction l as [|x t IH]; intro H; cbn; [reflexivity|].
  rewrite (H x) by now left. rewrite IH; [reflexivity|].
  intros; apply H; now right.
Qed.

Lemma array_map_map {A B C : Type} (f : B -> outcome C) (g : A -> B)
  (l : list A) :
  array_map f (map g l) = array_map (fun x => f (g x)) l.
Proof.
  induction l as [|x t IH]; cbn; [reflexivity|]. now rewrite IH.
Qed.

Lemma groupStage_same (engine : Engine) (groupBy : list string)
  (aggs : option (list Aggregation)) (l l' : list Row) :
  Forall2 same_cells l l' ->
  groupStage engine groupBy aggs l = groupStage engine groupBy aggs l'.
Proof.
  intros H.
  destruct (List.Forall_Exists_dec (fun row => plain_key (groupKey groupBy row))
              (fun row => plain_key_dec (groupKey groupBy row)) l)
    as [Hplain|Hinh].
  - rewrite !groupStage_spec
      by (try exact Hplain; now apply (plain_keys_same groupBy l l')).
    rewrite (map_groupKey_same groupBy l l' H), !array_map_map.
    apply array_map_ext_in. intros key _.
    apply groupRecord_same, group_of_same, H.
  - rewrite !groupStage_inherited
      by (try exact Hinh; now apply (inherited_keys_same groupBy l l')).
    reflexivity.
Qed.

(** With grouping on, the pipeline reads its rows through their cells
    only. *)
Lemma processData_same (engine : Engine) (rows rows' : list Row)
  (config : Config) :
  has_length (selected groupBy config) = true ->
  Forall2 same_cells rows rows' ->
  processData engine rows config = processData engine rows' config.
Proof.
  intros Hgroup H. unfold processData. rewrite Hgroup.
  assert (Hf : same_outcome
                 (if has_length (selected filters config)
                  then applyFilters (elements (selected filters config)) rows
                  else Return rows)
                 (if has_length (selected filters config)
                  then applyFilters (elements (selected filters config)) rows'
                  else Return rows')).
  { destruct (has_length (selected filters config));
      [now apply applyFilters_same|exact H]. }
  destruct (if has_length (selected filters config)
            then applyFilters (elements (selected filters config)) rows
            else Return rows) as [filtered|e],
           (if has_length (selected filters config)
            then applyFilters (elements (selected filters config)) rows'
            else Return rows') as [filtered'|e'];
    simpl in *; try contradiction; [|now subst].
  now rewrite (groupStage_same _ _ _ filtered filtered' Hf).
Qed.

Lemma same_cells_refl (row : Row) : same_cells row row.
Proof. intros column. reflexivity. Qed.

Lemma Forall2_same_cells_refl (l : list Row) : Forall2 same_cells l l.
Proof. induction l; constructor; auto using same_cells_refl. Qed.

Lemma insert_undefined_same (row : Row) (column : string) :
  row !! column = None -> plain_key column ->
  same_cells (<[column := SUndef]> row) row.
Proof.
  intros Habsent Hplain c. unfold get.
  destruct (decide (column = c)) as [<-|Hne].
  - rewrite lookup_insert_eq, Habsent. unfold inherited. now rewrite Hplain.
  - now rewrite lookup_insert_ne.
Qed.

(** C3, as the code has it: for aggregation an absent key is the same as an
    explicit undefined, not an explicit null, as long as the key is not
    called like a member of [Object.prototype]. With a non-empty group-by
    list, writing undefined into such a key that a row lacks leaves the
    outcome of the pipeline unchanged; the row contributes no value to the
    aggregates of that column, whereas with an explicit null it
    contributes the value 0. *)
Theorem absent_key_reads_as_undefined (engine : Engine)
  (pre post : list Row) (row : Row) (column : string) (config : Config) :
  has_length (selected groupBy config) = true ->
  row !! column = None ->
  plain_key column ->
  processData engine (pre ++ <[column := SUndef]> row :: post) config
  = processData engine (pre ++ row :: post) config /\
  columnValues (pre ++ row :: post) column
  = (columnValues pre column ++ columnValues post column)%list /\
  columnValues (pre ++ <[column := SNull]> row :: post) column
  = (columnValues pre column ++ zero :: columnValues post column)%list.
Proof.
  intros Hgroup Habsent Hplain. split; [|split].
  - apply processData_same; [exact Hgroup|].
    apply Forall2_app; [apply Forall2_same_cells_refl|].
    constructor; [now apply insert_undefined_same|apply Forall2_same_cells_refl].
  - unfold columnValues. rewrite map_app, List.filter_app. simpl.
    now rewrite (get_absent _ _ Habsent Hplain).
  - assert (Hget : get (<[column := SNull]> row) column = SNull)
      by (unfold get; now rewrite lookup_insert_eq).
    unfold columnValues. rewrite map_app, List.filter_app. simpl.
    now rewrite Hget.
Qed.

Lemma absent_key_reads_as_undefined_witness :
  let config :=
    Sample.selection None (Some ["g"]) (Some [mkAggregation "v" "count"]) None in
  let row : Row := {["g" := SStr "x"]} in
  processData Sample.engine ([] ++ <["v" := SUndef]> row :: []) config
  = processData Sample.engine ([] ++ row :: []) config /\
  columnValues ([] ++ row :: []) "v"
  = (columnValues [] "v" ++ columnValues [] "v")%list /\
  columnValues ([] ++ <["v" := SNull]> row :: []) "v"
  = (columnValues [] "v" ++ zero :: columnValues [] "v")%list.
Proof.
  intros config row.
  apply (absent_key_reads_as_undefined Sample.engine [] [] row "v" config);
    reflexivity.
Defined.

(** C3, as stated, fails: the row [{g:'x'}] has no key [v]; counting [v]
    within its group gives 0, and 1 once [v] is set to null. *)
Lemma null_is_counted :
  let config :=
    Sample.selection None (Some ["g"]) (Some [mkAggregation "v" "count"]) None in
  let row : Row := {["g" := SStr "x"]} in
  row !! "v" = None /\
  processData Sample.engine [row] config
  = Return [ <["v_count" := Sample.num 0]> {["g" := SStr "x"]} ] /\
  processData Sample.engine [<["v" := SNull]> row] config
  = Return [ <["v_count" := Sample.num 1]> {["g" := SStr "x"]} ] /\
  processData Sample.engine [<["v" := SNull]> row] config
  <> processData Sample.engine [row] config.
Proof.
  intros config row. repeat split; try (vm_compute; reflexivity).
  intros H.
  apply (f_equal
           (fun o : outcome (list Row) =>
              match o with
              | Return [record] =>
                  match record !! "v_count" with
                  | Some (SNum x) => is_zero x
                  | _ => false
                  end
              | _ => false
              end)) in H.
  vm_compute in H. discriminate H.
Qed.

(** * Further properties of the pipeline *)

(** ** Filter stage: when it raises *)

(** A filter raises exactly when it is a [between] without bounds, and
    then a TypeError, whatever the row. *)
Lemma filterPredicate_spec (filter : Filter) (row : Row) :
  filterPredicate filter row
  = if without_bounds filter then Throw TypeError
    else Return (passes filter row).
Proof.
  unfold passes, filterPredicate, without_bounds.
  destruct filter as [column operator value];
    cbn [filter_column filter_operator filter_value].
  destruct (String.eqb operator "between") eqn:Hb.
  - apply String.eqb_eq in Hb; subst operator; cbn.
    destruct value as [[]|]; cbn; try reflexivity;
      match goal with
      | |- context [if ?c then _ else _] => destruct c
      end;
      cbn; try reflexivity;
      match goal with
      | |- Return ?b = _ => now destruct b
      end.
  - cbn.
    repeat match goal with
           | |- context [if String.eqb operator ?s then _ else _] =>
               destruct (String.eqb operator s)
           end;
      match goal with
      | |- Return ?b = _ => now destruct b
      end.
Qed.

Lemma filterPredicate_throws (filter : Filter) (row : Row) (e : exn) :
  filterPredicate filter row = Throw e
  <-> e = TypeError /\ without_bounds filter = true.
Proof.
  rewrite filterPredicate_spec. destruct (without_bounds filter).
  - split; [intros [= <-]; auto | now intros [-> _]].
  - split; [discriminate | intros [_ H]; discriminate H].
Qed.

Lemma filterPredicate_returns (filter : Filter) (row : Row) :
  without_bounds filter = false ->
  exists keep, filterPredicate filter row = Return keep.
Proof. intro H. rewrite filterPredicate_spec, H. eauto. Qed.

Lemma array_filter_returns {A : Type} (p : A -> outcome bool) (l : list A) :
  (forall x, In x l -> exists keep, p x = Return keep) ->
  exists kept, array_filter p l = Return kept.
Proof.
  induction l as [|x t IH]; intro H; cbn; eauto.
  destruct (H x) as [keep ->]; [now left|].
  destruct IH as [rest ->]; [intros; apply H; now right|].
  cbn. eauto.
Qed.

Lemma applyFilters_returns (fs : list Filter) (rows : list Row) :
  (forall filter, In filter fs -> without_bounds filter = false) ->
  exists kept, applyFilters fs rows = Return kept.
Proof.
  revert rows. induction fs as [|filter rest IH]; intros rows H; cbn; eauto.
  destruct (array_filter_returns (filterPredicate filter) rows) as [kept ->].
  - intros row _. apply filterPredicate_returns, H. now left.
  - cbn. apply IH. intros; apply H; now right.
Qed.

(** ** Filter stage: the rows it keeps *)

Lemma array_filter_spec {A : Type} (p : A -> outcome bool) (l kept : list A) :
  array_filter p l = Return kept ->
  kept = List.filter
           (fun x => match p x with Return true => true | _ => false end) l.
Proof.
  revert kept. induction l as [|x t IH]; intros kept; cbn.
  - now intros [= <-].
  - destruct (p x) as [keep|]; cbn; [|discriminate].
    destruct (array_filter p t) as [rest|]; cbn; [|discriminate].
    intros [= <-]. rewrite (IH rest eq_refl). now destruct keep.
Qed.

Lemma filter_filter_andb {A : Type} (f g : A -> bool) (l : list A) :
  List.filter g (List.filter f l) = List.filter (fun x => f x && g x) l.
Proof.
  induction l as [|x t IH]; cbn; [reflexivity|].
  destruct (f x); cbn; [destruct (g x)|]; now rewrite IH.
Qed.

Lemma applyFilters_spec (fs : list Filter) (rows kept : list Row) :
  applyFilters fs rows = Return kept ->
  kept = List.filter (passes_all fs) rows.
Proof.
  revert rows kept. induction fs as [|filter rest IH]; intros rows kept; cbn.
  - intros [= <-]. unfold passes_all; cbn.
    induction rows as [|r t IHt]; cbn; congruence.
  - destruct (array_filter (filterPredicate filter) rows) as [mid|] eqn:E; cbn;
      [|discriminate].
    intro H. apply IH in H. apply array_filter_spec in E. subst.
    now rewrite filter_filter_andb.
Qed.

Lemma forallb_perm {A : Type} (f : A -> bool) (l l' : list A) :
  Permutation l l' -> forallb f l = forallb f l'.
Proof.
  induction 1; cbn; try congruence.
  now rewrite !andb_assoc, (andb_comm (f y)).
Qed.

(** X2: when the filter stage returns, it returns the rows on which the
    test of every filter is true, in input order; the same filters listed
    in another order give the same rows, if that run returns as well. *)
Theorem filter_stage_keeps_passing_rows (fs fs' : list Filter)
  (rows kept kept' : list Row) :
  Permutation fs fs' ->
  applyFilters fs rows = Return kept ->
  applyFilters fs' rows = Return kept' ->
  kept = List.filter (passes_all fs) rows /\ kept' = kept.
Proof.
  intros Hp H H'. apply applyFilters_spec in H, H'. subst. split; [reflexivity|].
  apply List.filter_ext. intro row. unfold passes_all.
  symmetry. now apply forallb_perm.
Qed.

Lemma filter_stage_keeps_passing_rows_witness :
  let above := mkFilter "a" "greater_than" (FScalar (Sample.num 1)) in
  let below := mkFilter "a" "less_than" (FScalar (Sample.num 3)) in
  let kept : list Row := [ {["a" := Sample.num 2]} ] in
  kept = List.filter (passes_all [above; below]) Sample.abc /\ kept = kept.
Proof.
  intros above below kept.
  apply (filter_stage_keeps_passing_rows [above; below] [below; above]
           Sample.abc kept kept).
  - apply perm_swap.
  - vm_compute. reflexivity.
  - vm_compute. reflexivity.
Defined.

(** *** When the stage raises *)

Lemma array_filter_throws (filter : Filter) (rows : list Row) (e : exn) :
  array_filter (filterPredicate filter) rows = Throw e
  <-> e = TypeError /\ without_bounds filter = true /\ rows <> [].
Proof.
  destruct (without_bounds filter) eqn:Hb.
  - destruct rows as [|row rest]; cbn.
    + split; [discriminate | intros (_ & _ & H); now destruct H].
    + rewrite filterPredicate_spec, Hb. cbn.
      split; [intros [= <-]; repeat split; discriminate | now intros [-> _]].
  - split; [|intros (_ & H & _); discriminate H].
    destruct (array_filter_returns (filterPredicate filter) rows) as [kept ->];
      [|discriminate].
    intros row _. now apply filterPredicate_returns.
Qed.

Lemma applyFilters_throws (fs : list Filter) (rows : list Row) (e : exn) :
  applyFilters fs rows = Throw e
  <-> e = TypeError /\
      exists pre filter post reached,
        fs = (pre ++ filter :: post)%list /\
        applyFilters pre rows = Return reached /\
        reached <> [] /\
        without_bounds filter = true.
Proof.
  revert rows. induction fs as [|f rest IH]; intros rows.
  - cbn. split; [discriminate|].
    intros (_ & pre & filter & post & reached & H & _). now destruct pre.
  - cbn [applyFilters].
    destruct (array_filter (filterPredicate f) rows) as [mid|e'] eqn:E; cbn.
    + rewrite IH. split.
      * intros (He & pre & filter & post & reached & -> & Hpre & Hne & Hb).
        split; [exact He|].
        exists (f :: pre), filter, post, reached. cbn. rewrite E. cbn. auto.
      * intros (He & pre & filter & post & reached & Hfs & Hpre & Hne & Hb).
        split; [exact He|].
        destruct pre as [|f' pre]; cbn in Hfs; injection Hfs as <- ->.
        -- cbn in Hpre. injection Hpre as <-.
           assert (Ht : array_filter (filterPredicate f) rows = Throw TypeError)
             by (apply array_filter_throws; auto).
           congruence.
        -- cbn in Hpre. rewrite E in Hpre. cbn in Hpre.
           exists pre, filter, post, reached. auto.
    + apply array_filter_throws in E as (-> & Hb & Hne). split.
      * intros [= <-]. split; [reflexivity|].
        exists [], f, rest, rows. cbn. auto.
      * now intros [-> _].
Qed.

(** ** Pass-through mode *)

Lemma filter_sublist {A : Type} (f : A -> bool) (l : list A) :
  sublist (List.filter f l) l.
Proof.
  induction l as [|x t IH]; cbn; [constructor|].
  destruct (f x); now constructor.
Qed.

Lemma filter_all_true {A : Type} (f : A -> bool) (l : list A) :
  (forall x, f x = true) -> List.filter f l = l.
Proof.
  intro H. induction l as [|x t IH]; cbn; [reflexivity|].
  now rewrite H, IH.
Qed.

(** The filter stage is [applyFilters], also when there are no filters. *)
Lemma filter_stage_eq (rawData : list Row) (config : Config) :
  (if has_length (selected filters config)
   then applyFilters (elements (selected filters config)) rawData
   else Return rawData)
  = applyFilters (elements (selected filters config)) rawData.
Proof.
  destruct (has_length (selected filters config)) eqn:Hlen; [reflexivity|].
  now rewrite (elements_without_length _ Hlen).
Qed.

Lemma filter_stage_spec (rawData kept : list Row) (config : Config) :
  (if has_length (selected filters config)
   then applyFilters (elements (selected filters config)) rawData
   else Return rawData) = Return kept ->
  kept = List.filter (passes_all (elements (selected filters config))) rawData.
Proof. rewrite filter_stage_eq. apply applyFilters_spec. Qed.

(** A run that returns: the rows that pass the filters are grouped, if
    there are group-by columns, and then ordered, if there are sort
    specs. *)
Lemma processData_stages (engine : Engine) (rawData processed : list Row)
  (config : Config) :
  processData engine rawData config = Return processed ->
  let kept :=
    List.filter (passes_all (elements (selected filters config))) rawData in
  exists grouped,
    (if has_length (selected groupBy config)
     then groupStage engine (elements (selected groupBy config))
            (selected aggregations config) kept
     else Return kept) = Return grouped /\
    processed =
      if has_length (selected orderBy config)
      then orderStage (elements (selected orderBy config)) grouped
      else grouped.
Proof.
  intros H.
  apply processData_returns in H as (filtered & grouped & Hf & Hg & ->).
  apply filter_stage_spec in Hf. subst filtered. cbv zeta. eauto.
Qed.

(** X4: without group-by columns the rows are passed through: the output
    holds the input rows that pass every filter, each as often as the
    input has it; with no sort specs they stand in input order, and sort
    specs only rearrange them. *)
Theorem pass_through_rows (engine : Engine) (rawData processed : list Row)
  (config : Config) :
  has_length (selected groupBy config) = false ->
  processData engine rawData config = Return processed ->
  let kept :=
    List.filter (passes_all (elements (selected filters config))) rawData in
  sublist kept rawData /\
  Permutation processed kept /\
  (has_length (selected orderBy config) = false -> processed = kept).
Proof.
  intros Hg H. apply processData_stages in H as (grouped & Hgr & ->).
  cbv zeta. rewrite Hg in Hgr. injection Hgr as <-.
  split; [apply filter_sublist|].
  destruct (has_length (selected orderBy config)).
  - split; [apply sort_perm | discriminate].
  - split; [reflexivity | reflexivity].
Qed.

Lemma pass_through_rows_witness :
  let filter := mkFilter "a" "greater_than" (FScalar (Sample.num 1)) in
  let config :=
    Sample.selection (Some [filter]) None None
      (Some [mkOrderSpec "a" "desc"]) in
  let processed : list Row :=
    [ {["a" := Sample.num 3]}; {["a" := Sample.num 2]} ] in
  let kept := List.filter (passes_all [filter]) Sample.abc in
  sublist kept Sample.abc /\
  Permutation processed kept /\
  (has_length (selected orderBy config) = false -> processed = kept).
Proof.
  intros filter config processed.
  apply (pass_through_rows Sample.engine Sample.abc processed config).
  - reflexivity.
  - vm_compute. reflexivity.
Defined.

(** ** Groups partition the rows *)

Lemma concat_map_nil {A B : Type} (l : list A) :
  concat (map (fun _ => @nil B) l) = [].
Proof. induction l; cbn; auto. Qed.

Lemma keyed_partition {A : Type} (key : A -> string) (rows : list A)
  (ks : list string) :
  List.NoDup ks ->
  (forall r, In r rows -> In (key r) ks) ->
  Permutation
    (concat (map (fun k => List.filter (fun r => String.eqb (key r) k) rows) ks))
    rows.
Proof.
  intros Hnd. induction rows as [|r t IH]; intros Hin.
  - cbn. now rewrite concat_map_nil.
  - destruct (in_split (key r) ks) as (ks1 & ks2 & Hks); [apply Hin; now left|].
    assert (Hnot : ~ In (key r) (ks1 ++ ks2)%list).
    { rewrite Hks in Hnd. now apply List.NoDup_remove_2 in Hnd. }
    assert (Hrest : forall k, In k (ks1 ++ ks2)%list ->
              List.filter (fun r' => String.eqb (key r') k) (r :: t)
              = List.filter (fun r' => String.eqb (key r') k) t).
    { intros k Hk. cbn. destruct (String.eqb_spec (key r) k) as [E|_];
        [|reflexivity]. subst k. contradiction. }
    specialize (IH (fun r' H => Hin r' (or_intror H))).
    rewrite Hks in IH |- *.
    rewrite map_app, concat_app in IH |- *. cbn [map concat] in IH |- *.
    rewrite (map_ext_in _ (fun k => List.filter (fun r' => String.eqb (key r') k) t) ks1)
      by (intros k Hk; apply Hrest, in_or_app; now left).
    rewrite (map_ext_in _ (fun k => List.filter (fun r' => String.eqb (key r') k) t) ks2)
      by (intros k Hk; apply Hrest, in_or_app; now right).
    cbn [List.filter]. rewrite String.eqb_refl.
    rewrite <- app_comm_cons.
    etransitivity; [symmetry; apply Permutation_middle|].
    now apply perm_skip.
Qed.

Lemma groups_keyed (groupBy : list string) (rows : list Row)
  (grouped : list (string * list Row)) :
  groupRows groupBy rows = Return grouped ->
  objectEntries grouped
  = map (fun k => (k, group_of groupBy rows k))
        (key_order (first_seen (map (groupKey groupBy) rows))).
Proof.
  intro H. pose proof (groupRows_returns _ _ _ H) as Hplain.
  rewrite groupRows_spec in H by exact Hplain. injection H as <-.
  apply objectEntries_keyed.
Qed.

Lemma In_group_keys (groupBy : list string) (rows : list Row) (k : string) :
  In k (key_order (first_seen (map (groupKey groupBy) rows)))
  <-> exists row, In row rows /\ groupKey groupBy row = k.
Proof.
  transitivity (In k (map (groupKey groupBy) rows)).
  - split; intro H.
    + apply In_first_seen. revert H. apply Permutation_in, key_order_perm.
    + apply In_first_seen in H. revert H.
      apply Permutation_in. symmetry. apply key_order_perm.
  - rewrite in_map_iff. split; intros (row & H1 & H2); eauto.
Qed.

Lemma NoDup_group_keys (groupBy : list string) (rows : list Row) :
  List.NoDup (key_order (first_seen (map (groupKey groupBy) rows))).
Proof.
  eapply Permutation_NoDup; [symmetry; apply key_order_perm|].
  apply NoDup_first_seen.
Qed.

(** X5: when the loop that fills [grouped] returns, the groups the group
    stage iterates over partition the rows: the keys of the groups are
    pairwise different, no group is empty, a group holds rows of its key
    only, in input order, and the groups together hold every row exactly
    once.  The loop returns only if no row has a group key that is called
    like a member of [Object.prototype]. *)
Theorem groups_partition_rows (groupBy : list string) (rows : list Row)
  (grouped : list (string * list Row)) :
  groupRows groupBy rows = Return grouped ->
  let groups := objectEntries grouped in
  Permutation (concat (map snd groups)) rows /\
  List.NoDup (map fst groups) /\
  Forall (fun group =>
            snd group <> [] /\
            sublist (snd group) rows /\
            Forall (fun row => groupKey groupBy row = fst group) (snd group))
         groups /\
  Forall (fun row => plain_key (groupKey groupBy row)) rows.
Proof.
  intro Hrun. cbv zeta. rewrite (groups_keyed _ _ _ Hrun), !map_map.
  cbn [fst snd].
  split; [|split; [|split]].
  - apply (keyed_partition (groupKey groupBy)); [apply NoDup_group_keys|].
    intros r Hr. apply In_group_keys. eauto.
  - rewrite map_id. apply NoDup_group_keys.
  - apply List.Forall_forall. intros [k g] Hin.
    apply in_map_iff in Hin as (k' & [= <- <-] & Hk). cbn [fst snd].
    split; [|split].
    + apply In_group_keys in Hk as (row & Hrow & Hkey).
      intro Hnil.
      assert (Hin : In row (group_of groupBy rows k')).
      { apply filter_In. split; [exact Hrow|]. now apply String.eqb_eq. }
      rewrite Hnil in Hin. destruct Hin.
    + apply filter_sublist.
    + apply List.Forall_forall. intros row Hrow.
      apply filter_In in Hrow as [_ Hrow]. now apply String.eqb_eq.
  - exact (groupRows_returns _ _ _ Hrun).
Qed.

Lemma groups_partition_rows_witness :
  let grouped : list (string * list Row) :=
    [ ("x", [ <["v" := Sample.num 10]> {["g" := SStr "x"]};
              <["v" := Sample.num 20]> {["g" := SStr "x"]} ]);
      ("y", [ <["v" := Sample.num 5]> {["g" := SStr "y"]} ]) ] in
  let groups := objectEntries grouped in
  Permutation (concat (map snd groups)) Sample.sales /\
  List.NoDup (map fst groups) /\
  Forall (fun group =>
            snd group <> [] /\
            sublist (snd group) Sample.sales /\
            Forall (fun row => groupKey ["g"] row = fst group) (snd group))
         groups /\
  Forall (fun row => plain_key (groupKey ["g"] row)) Sample.sales.
Proof.
  intros grouped.
  apply (groups_partition_rows ["g"] Sample.sales grouped).
  vm_compute. reflexivity.
Defined.

(** ** Group-by fields hold the text of the cells *)

Lemma bar_free_cons (a : ascii) (t : string) :
  bar_free (String a t) = true <-> a <> "|"%char /\ bar_free t = true.
Proof.
  unfold bar_free.
  change (JsString.includes (String a t) "|")
    with ((if ascii_dec "|" a then String.prefix "" t else false)
          || JsString.includes t "|").
  replace (String.prefix "" t) with true by now destruct t.
  destruct (ascii_dec "|" a) as [<-|Hne]; cbn [orb negb].
  - split; [discriminate | intros [H _]; now destruct H].
  - split; [intro H; split; [congruence | exact H] | now intros [_ H]].
Qed.

Lemma split_bar_free (p : string) :
  bar_free p = true -> JsString.split "|" p = [p].
Proof.
  induction p as [|a t IH]; [reflexivity|].
  intros [Hne Ht]%bar_free_cons. cbn.
  destruct (Ascii.eqb_spec a "|"); [contradiction|]. now rewrite (IH Ht).
Qed.

Lemma split_app_bar (p s : string) :
  bar_free p = true ->
  JsString.split "|" (p ++ String "|" s) = p :: JsString.split "|" s.
Proof.
  induction p as [|a t IH]; [reflexivity|].
  intros [Hne Ht]%bar_free_cons.
  change (String a t ++ String "|" s) with (String a (t ++ String "|" s)).
  cbn [JsString.split].
  destruct (Ascii.eqb_spec a "|"); [contradiction|]. now rewrite (IH Ht).
Qed.

Lemma split_join (parts : list string) :
  parts <> [] ->
  Forall (fun p => bar_free p = true) parts ->
  JsString.split "|" (JsString.join "|" parts) = parts.
Proof.
  induction parts as [|p rest IH]; [congruence|]. intros _ H.
  apply Forall_cons_1 in H as [Hp Hrest].
  destruct rest as [|q rest]; [now apply split_bar_free|].
  change (JsString.join "|" (p :: q :: rest))
    with (p ++ String "|" (JsString.join "|" (q :: rest))).
  rewrite (split_app_bar _ _ Hp), IH; [reflexivity | discriminate | exact Hrest].
Qed.

Section GroupFields.

Variable parts : list string.

Let step (result : Row) (entry : nat * string) : Row :=
  let '(index, col) := entry in
  assign result col
    match nth_error parts index with
    | Some part => SStr part
    | None => SUndef
    end.

Lemma fold_fields_other (entries : list (nat * string)) (result : Row)
  (col : string) :
  ~ In col (map snd entries) ->
  fold_left step entries result !! col = result !! col.
Proof.
  revert result. induction entries as [|[i c] rest IH]; intros result Hnot;
    [reflexivity|].
  cbn [fold_left]. rewrite IH by (intro; apply Hnot; now right).
  cbn. unfold assign. destruct (String.eqb c "__proto__"); [reflexivity|].
  apply lookup_insert_ne. intros ->. apply Hnot. now left.
Qed.

Lemma fold_fields_lookup (text : string -> string)
  (entries : list (nat * string)) (result : Row) (col : string) :
  (forall i c, In (i, c) entries -> nth_error parts i = Some (text c)) ->
  In col (map snd entries) ->
  col <> "__proto__" ->
  fold_left step entries result !! col = Some (SStr (text col)).
Proof.
  intros Hall Hin Hcol. revert result Hall Hin.
  induction entries as [|[i c] rest IH]; intros result Hall Hin;
    [destruct Hin|].
  cbn [fold_left].
  destruct (in_dec string_dec col (map snd rest)) as [Hrest|Hrest].
  - apply IH; [|exact Hrest]. intros; apply Hall; now right.
  - rewrite fold_fields_other by exact Hrest.
    destruct Hin as [Hc|Hc]; [|contradiction]. cbn in Hc. subst c.
    cbn. rewrite (Hall i col) by now left. unfold assign.
    apply String.eqb_neq in Hcol. rewrite Hcol. apply lookup_insert_eq.
Qed.

End GroupFields.

Lemma In_indexed_nth {A : Type} (l : list A) (start i : nat) (x : A) :
  In (i, x) (combine (seq start (length l)) l) ->
  (start <= i)%nat /\ nth_error l (i - start) = Some x.
Proof.
  revert start. induction l as [|y t IH]; intros start; cbn; [tauto|].
  intros [[= <- <-]|H].
  - rewrite Nat.sub_diag. split; [lia | reflexivity].
  - apply IH in H as [Hle H]. split; [lia|].
    replace (i - start)%nat with (S (i - S start)) by lia. exact H.
Qed.

Lemma groupFields_lookup (groupBy : list string) (row : Row) (col : string) :
  In col groupBy ->
  col <> "__proto__" ->
  Forall (fun c => bar_free (JsValue.join_item (get row c)) = true) groupBy ->
  groupFields groupBy (groupKey groupBy row) !! col
  = Some (SStr (JsValue.join_item (get row col))).
Proof.
  intros Hin Hcol Hfree. unfold groupFields, groupKey, JsValue.join.
  rewrite List.map_map, split_join.
  - apply (fold_fields_lookup _ (fun c => JsValue.join_item (get row c)));
      [| |exact Hcol].
    + intros i c H. apply In_indexed_nth in H as [_ H].
      rewrite Nat.sub_0_r in H.
      exact (map_nth_error (fun x => JsValue.join_item (get row x)) i groupBy H).
    + now rewrite indexed_from_untag.
  - destruct groupBy; [destruct Hin | discriminate].
  - apply List.Forall_forall. intros p Hp.
    apply in_map_iff in Hp as (c & <- & Hc).
    revert c Hc. now apply List.Forall_forall.
Qed.

Lemma groupStage_returns (engine : Engine) (groupBy : list string)
  (aggs : option (list Aggregation)) (rows out : list Row) :
  groupStage engine groupBy aggs rows = Return out ->
  Forall (fun row => plain_key (groupKey groupBy row)) rows /\
  array_map (groupRecord engine groupBy aggs)
    (map (fun k => (k, group_of groupBy rows k))
         (key_order (first_seen (map (groupKey groupBy) rows))))
  = Return out.
Proof.
  intro H.
  assert (Hplain : Forall (fun row => plain_key (groupKey groupBy row)) rows).
  { unfold groupStage in H.
    destruct (groupRows groupBy rows) as [grouped|] eqn:E; [|discriminate].
    exact (groupRows_returns _ _ _ E). }
  split; [exact Hplain|]. now rewrite <- groupStage_spec.
Qed.

(** In a group stage that returns, every row has the record of its
    group. *)
Lemma In_groupStage (engine : Engine) (groupBy : list string)
  (aggs : option (list Aggregation)) (rows out : list Row) (row : Row) :
  groupStage engine groupBy aggs rows = Return out ->
  In row rows ->
  exists record,
    In record out /\
    groupRecord engine groupBy aggs
      (groupKey groupBy row, group_of groupBy rows (groupKey groupBy row))
    = Return record.
Proof.
  intros H Hin. apply groupStage_returns in H as [_ H].
  apply (In_array_map _ _ _ _ H).
  apply (in_map (fun k => (k, group_of groupBy rows k))).
  apply In_group_keys. eauto.
Qed.

(** X6: in grouped output a group-by field holds text.  A row that passes
    the filters, and whose group-by cells print without [|], has a record
    in the output whose group-by fields are the texts of the row's cells as
    [join] prints them (a number in decimal, null and undefined as the
    empty text, an inherited object as its text), except for a field that
    an aggregate of the same name overwrote and for the column
    [__proto__], which gets no field. *)
Theorem group_fields_are_text (engine : Engine) (rawData processed : list Row)
  (config : Config) (row : Row) :
  let columns := elements (selected groupBy config) in
  has_length (selected groupBy config) = true ->
  processData engine rawData config = Return processed ->
  In row rawData ->
  passes_all (elements (selected filters config)) row = true ->
  Forall (fun col => bar_free (JsValue.join_item (get row col)) = true)
         columns ->
  exists record,
    In record processed /\
    forall col,
      In col columns ->
      col <> "__proto__" ->
      ~ In col (aggregateFields (elements (selected aggregations config))) ->
      record !! col = Some (SStr (JsValue.join_item (get row col))).
Proof.
  cbv zeta. intros Hg H Hin Hpass Hfree.
  apply processData_stages in H as (grouped & Hgr & ->). rewrite Hg in Hgr.
  destruct (In_groupStage _ _ _ _ _ row Hgr) as (record & Hrec & Hrun).
  { apply filter_In. split; [exact Hin | exact Hpass]. }
  exists record. split; [now apply In_ordered|].
  intros col Hcol Hproto Hnot.
  apply groupRecord_returns in Hrun as [_ Hl].
  rewrite Hl by exact Hnot. now apply groupFields_lookup.
Qed.

Lemma group_fields_are_text_witness :
  let config :=
    Sample.selection None (Some ["v"]) (Some [mkAggregation "v" "count"]) None in
  let processed : list Row :=
    [ <["v_count" := Sample.num 1]> {["v" := SStr "5"]};
      <["v_count" := Sample.num 1]> {["v" := SStr "10"]};
      <["v_count" := Sample.num 1]> {["v" := SStr "20"]} ] in
  let row : Row := <["v" := Sample.num 10]> {["g" := SStr "x"]} in
  exists record,
    In record processed /\
    forall col,
      In col ["v"] -> col <> "__proto__" -> ~ In col ["v_count"] ->
      record !! col = Some (SStr (JsValue.join_item (get row col))).
Proof.
  intros config processed row.
  apply (group_fields_are_text Sample.engine Sample.sales processed config row).
  - reflexivity.
  - vm_compute. reflexivity.
  - left. reflexivity.
  - reflexivity.
  - repeat constructor.
Defined.

(** ** When the pipeline raises, and when it returns *)

Lemma filter_length {A : Type} (f : A -> bool) (l : list A) :
  (length (List.filter f l) <= length l)%nat.
Proof.
  induction l as [|x t IH]; cbn; [lia|]. destruct (f x); cbn; lia.
Qed.

Lemma overflows_length (engine : Engine) (rows : list Row) (agg : Aggregation) :
  overflows engine rows agg = true ->
  spreads (agg_function agg) = true /\
  (max_arguments engine < length rows)%nat.
Proof.
  unfold overflows. intros [Hs Hlt]%andb_true_iff. split; [exact Hs|].
  apply Nat.ltb_lt in Hlt. unfold columnValues in Hlt.
  pose proof (filter_length (fun val => negb (is_nan val))
                (map (fun row => JsValue.to_number (get row (agg_column agg)))
                     rows)) as H.
  rewrite length_map in H. lia.
Qed.

(** The aggregations of one group raise when one of them spreads too many
    values, and return otherwise. *)
Lemma forEach_applyAggregation_outcome (engine : Engine) (rows : list Row)
  (aggs : list Aggregation) (result : Row) :
  if existsb (overflows engine rows) aggs
  then array_forEach (applyAggregation engine rows) aggs result
       = Throw RangeError
  else exists record,
         array_forEach (applyAggregation engine rows) aggs result
         = Return record.
Proof.
  revert result.
  induction aggs as [|agg rest IH]; intro result; cbn [existsb array_forEach].
  - eauto.
  - rewrite applyAggregation_spec.
    destruct (overflows engine rows agg); cbn [orb bind]; [reflexivity|].
    apply IH.
Qed.

Lemma groupRecord_outcome (engine : Engine) (groupBy : list string)
  (aggs : option (list Aggregation)) (key : string) (rows : list Row) :
  if existsb (overflows engine rows) (elements aggs)
  then groupRecord engine groupBy aggs (key, rows) = Throw RangeError
  else exists record,
         groupRecord engine groupBy aggs (key, rows) = Return record.
Proof.
  unfold groupRecord. destruct (has_length aggs) eqn:Hlen.
  - apply forEach_applyAggregation_outcome.
  - rewrite (elements_without_length _ Hlen). cbn. eauto.
Qed.

Lemma array_map_outcome {A B : Type} (f : A -> outcome B) (bad : A -> bool)
  (e : exn) (l : list A) :
  (forall x, In x l ->
     if bad x then f x = Throw e else exists y, f x = Return y) ->
  if existsb bad l then array_map f l = Throw e
  else exists out, array_map f l = Return out.
Proof.
  induction l as [|x t IH]; intro H; cbn [existsb array_map]; [eauto|].
  pose proof (H x (or_introl eq_refl)) as Hx.
  destruct (bad x); cbn [orb].
  - now rewrite Hx.
  - destruct Hx as [y ->]. cbn [bind].
    specialize (IH (fun x' Hin => H x' (or_intror Hin))).
    destruct (existsb bad t).
    + now rewrite IH.
    + destruct IH as [out ->]. cbn. eauto.
Qed.

(** Some group of the rows has an aggregation that spreads too many
    values. *)
Lemma group_overflows_iff (engine : Engine) (groupBy : list string)
  (aggs : option (list Aggregation)) (rows : list Row) :
  existsb (fun entry : string * list Row =>
             existsb (overflows engine (snd entry)) (elements aggs))
          (map (fun k => (k, group_of groupBy rows k))
               (key_order (first_seen (map (groupKey groupBy) rows))))
  = true
  <-> exists row agg,
        In row rows /\ In agg (elements aggs) /\
        overflows engine (group_of groupBy rows (groupKey groupBy row)) agg
        = true.
Proof.
  rewrite existsb_exists. split.
  - intros ([k members] & Hin & Hex).
    apply in_map_iff in Hin as (k' & [= <- <-] & Hk).
    apply In_group_keys in Hk as (row & Hrow & <-).
    apply existsb_exists in Hex as (agg & Hagg & Hov). cbn [snd] in Hov.
    eauto.
  - intros (row & agg & Hrow & Hagg & Hov).
    exists (groupKey groupBy row,
            group_of groupBy rows (groupKey groupBy row)).
    split.
    + apply (in_map (fun k => (k, group_of groupBy rows k))).
      apply In_group_keys. eauto.
    + apply existsb_exists. eauto.
Qed.

(** The three outcomes of the group stage. *)
Lemma groupStage_outcome (engine : Engine) (groupBy : list string)
  (aggs : option (list Aggregation)) (rows : list Row) :
  (groupStage engine groupBy aggs rows = Throw TypeError
   <-> exists row, In row rows /\ ~ plain_key (groupKey groupBy row)) /\
  (groupStage engine groupBy aggs rows = Throw RangeError
   <-> (forall row, In row rows -> plain_key (groupKey groupBy row)) /\
       exists row agg,
         In row rows /\ In agg (elements aggs) /\
         overflows engine (group_of groupBy rows (groupKey groupBy row)) agg
         = true).
Proof.
  destruct (List.Forall_Exists_dec
              (fun row => plain_key (groupKey groupBy row))
              (fun row => plain_key_dec (groupKey groupBy row)) rows)
    as [Hall|Hex].
  - rewrite groupStage_spec by exact Hall.
    pose proof (array_map_outcome (groupRecord engine groupBy aggs)
                  (fun entry : string * list Row =>
                     existsb (overflows engine (snd entry)) (elements aggs))
                  RangeError
                  (map (fun k => (k, group_of groupBy rows k))
                       (key_order (first_seen (map (groupKey groupBy) rows)))))
      as Hout.
    rewrite <- group_overflows_iff.
    rewrite List.Forall_forall in Hall.
    destruct (existsb _ (map _ _)).
    + rewrite Hout by (intros [k members] _; apply groupRecord_outcome).
      split.
      * split; [discriminate|]. intros (row & Hrow & Hnot).
        elim Hnot. now apply Hall.
      * split; [auto | reflexivity].
    + destruct Hout as [out ->];
        [intros [k members] _; apply groupRecord_outcome|].
      split.
      * split; [discriminate|]. intros (row & Hrow & Hnot).
        elim Hnot. now apply Hall.
      * split; [discriminate | intros [_ H]; discriminate H].
  - rewrite groupStage_inherited by exact Hex.
    apply List.Exists_exists in Hex. split.
    + split; [intros _; exact Hex | reflexivity].
    + split; [discriminate|]. intros [Hall _].
      destruct Hex as (row & Hrow & Hnot). elim Hnot. now apply Hall.
Qed.

(** The pipeline stage by stage: an exception of the filter stage or of
    the group stage ends the run. *)
Lemma processData_outcome (engine : Engine) (rawData : list Row)
  (config : Config) :
  processData engine rawData config
  = match applyFilters (elements (selected filters config)) rawData with
    | Throw e => Throw e
    | Return kept =>
        match (if has_length (selected groupBy config)
               then groupStage engine (elements (selected groupBy config))
                      (selected aggregations config) kept
               else Return kept) with
        | Throw e => Throw e
        | Return grouped =>
            Return (if has_length (selected orderBy config)
                    then orderStage (elements (selected orderBy config))
                           grouped
                    else grouped)
        end
    end.
Proof.
  unfold processData. rewrite filter_stage_eq.
  destruct (applyFilters _ rawData) as [kept|e]; [|reflexivity]. cbn [bind].
  now destruct (if has_length (selected groupBy config) then _ else _).
Qed.

(** X1: when the pipeline returns.  [processData] returns a row sequence
    when every [between] filter of the configuration has a value other
    than null and undefined and, if there are group-by columns, no row has
    a group key that is called like a member of [Object.prototype] and the
    engine takes as many arguments as there are rows, or no aggregation is
    a [min] or [max]. *)
Theorem pipeline_returns (engine : Engine) (rawData : list Row)
  (config : Config) :
  (forall filter, In filter (elements (selected filters config)) ->
     without_bounds filter = false) ->
  (has_length (selected groupBy config) = true ->
   (forall row, In row rawData ->
      plain_key (groupKey (elements (selected groupBy config)) row)) /\
   (forall agg, In agg (elements (selected aggregations config)) ->
      spreads (agg_function agg) = true ->
      (length rawData <= max_arguments engine)%nat)) ->
  exists processed, processData engine rawData config = Return processed.
Proof.
  intros Hf Hg. rewrite processData_outcome.
  destruct (applyFilters_returns _ rawData Hf) as [kept Hk]. rewrite Hk.
  apply applyFilters_spec in Hk.
  destruct (has_length (selected groupBy config)); [|eauto].
  destruct (Hg eq_refl) as [Hplain Hfew].
  destruct (groupStage_outcome engine (elements (selected groupBy config))
              (selected aggregations config) kept) as [Htype Hrange].
  destruct (groupStage _ _ _ kept) as [grouped|[|]]; [eauto | exfalso..].
  - destruct (proj1 Htype eq_refl) as (row & Hrow & Hnot). apply Hnot.
    apply Hplain. subst kept. now apply filter_In in Hrow as [Hrow _].
  - destruct (proj1 Hrange eq_refl) as (_ & row & agg & _ & Hagg & Hov).
    apply overflows_length in Hov as [Hs Hlt].
    specialize (Hfew agg Hagg Hs).
    pose proof (filter_length
                  (fun r => String.eqb
                              (groupKey (elements (selected groupBy config)) r)
                              (groupKey (elements (selected groupBy config))
                                 row)) kept) as H1.
    fold (group_of (elements (selected groupBy config)) kept
            (groupKey (elements (selected groupBy config)) row)) in H1.
    subst kept.
    pose proof (filter_length
                  (passes_all (elements (selected filters config))) rawData).
    lia.
Qed.

Lemma pipeline_returns_witness :
  exists processed,
    processData Sample.engine Sample.sales
      (Sample.selection
         (Some [mkFilter "v" "between" (FArr [Sample.num 2; Sample.num 30])])
         (Some ["g"]) (Some [mkAggregation "v" "min"]) None)
    = Return processed.
Proof.
  apply pipeline_returns.
  - intros filter [<-|[]]. reflexivity.
  - intros _. split.
    + intros row [<-|[<-|[<-|[]]]]; reflexivity.
    + intros agg _ _. cbn. lia.
Defined.

(** X3: when the pipeline raises.  [processData] raises a TypeError
    exactly when some [between] filter has no bounds (its value is null or
    undefined) and at least one row is left when its turn comes, or when
    the filters return and a row they keep is grouped by a key that is
    called like a member of [Object.prototype].  It raises a RangeError
    exactly when the filters return, the kept rows are grouped by other
    keys and a [min] or [max] aggregation spreads more values of a group
    than the engine takes arguments.  A [between] filter without bounds
    that no row reaches does no harm. *)
Theorem pipeline_throws_iff (engine : Engine) (rawData : list Row)
  (config : Config) :
  let fs := elements (selected filters config) in
  let columns := elements (selected groupBy config) in
  let kept := List.filter (passes_all fs) rawData in
  (processData engine rawData config = Throw TypeError
   <-> (exists pre filter post reached,
          fs = (pre ++ filter :: post)%list /\
          applyFilters pre rawData = Return reached /\
          reached <> [] /\
          without_bounds filter = true) \/
       (applyFilters fs rawData = Return kept /\
        has_length (selected groupBy config) = true /\
        exists row, In row kept /\ ~ plain_key (groupKey columns row))) /\
  (processData engine rawData config = Throw RangeError
   <-> applyFilters fs rawData = Return kept /\
       has_length (selected groupBy config) = true /\
       (forall row, In row kept -> plain_key (groupKey columns row)) /\
       exists row agg,
         In row kept /\
         In agg (elements (selected aggregations config)) /\
         overflows engine (group_of columns kept (groupKey columns row)) agg
         = true).
Proof.
  cbv zeta. rewrite processData_outcome.
  pose proof (applyFilters_throws (elements (selected filters config)) rawData)
    as Hthrows.
  destruct (applyFilters (elements (selected filters config)) rawData)
    as [kept|e] eqn:Ek.
  - apply applyFilters_spec in Ek as Hkept. rewrite <- Hkept.
    assert (Hno : ~ exists pre filter post reached,
                      elements (selected filters config)
                      = (pre ++ filter :: post)%list /\
                      applyFilters pre rawData = Return reached /\
                      reached <> [] /\ without_bounds filter = true).
    { intro H.
      assert (Ht : Return kept = Throw TypeError :> outcome (list Row))
        by (apply Hthrows; auto).
      discriminate Ht. }
    destruct (has_length (selected groupBy config)).
    + destruct (groupStage_outcome engine
                  (elements (selected groupBy config))
                  (selected aggregations config) kept) as [Htype Hrange].
      destruct (groupStage _ _ _ kept) as [grouped|[|]].
      * split; (split; [discriminate|]).
        -- intros [H|(_ & _ & H)]; [contradiction|].
           apply Htype in H. discriminate H.
        -- intros (_ & _ & H). apply Hrange in H. discriminate H.
      * split.
        -- split; [|reflexivity]. intros _. right.
           split; [reflexivity|]. split; [reflexivity|]. now apply Htype.
        -- split; [discriminate|].
           intros (_ & _ & H). apply Hrange in H. discriminate H.
      * split.
        -- split; [discriminate|].
           intros [H|(_ & _ & H)]; [contradiction|].
           apply Htype in H. discriminate H.
        -- split; [|reflexivity]. intros _.
           split; [reflexivity|]. split; [reflexivity|]. now apply Hrange.
    + split; split; try discriminate.
      * intros [H|(_ & H & _)]; [contradiction | discriminate H].
      * intros (_ & H & _). discriminate H.
  - pose proof (proj1 (Hthrows e) eq_refl) as [-> Hreach]. split; split.
    + intros _. now left.
    + reflexivity.
    + discriminate.
    + intros [H _]. discriminate H.
Qed.

(** ** Order stage: what sorting leaves alone *)

Lemma StronglySorted_map {A B : Type} (f : B -> A) (R : A -> A -> Prop)
  (l : list B) :
  StronglySorted (fun x y => R (f x) (f y)) l -> StronglySorted R (map f l).
Proof.
  induction 1 as [|x t Hs IH Hx]; cbn; constructor; [exact IH|].
  apply List.Forall_forall. intros y Hy.
  apply in_map_iff in Hy as (y' & <- & Hy').
  revert y' Hy'. now apply List.Forall_forall.
Qed.

Lemma StronglySorted_In {A : Type} (R : A -> A -> Prop) (l : list A) :
  StronglySorted R l ->
  StronglySorted (fun x y => In x l /\ In y l /\ R x y) l.
Proof.
  induction 1 as [|x t Hs IH Hx]; constructor.
  - eapply StronglySorted_weaken; [|exact IH].
    cbn. intros a b (Ha & Hb & Hab). auto.
  - apply List.Forall_forall. intros y Hy.
    split; [now left|]. split; [now right|].
    revert y Hy. now apply List.Forall_forall.
Qed.

Section SortFixed.

Context {A : Type} (cmp : A -> A -> float).

Lemma sort_sorted (l : list A) :
  StronglySorted (fun x y => ranks_after cmp x y = false) l ->
  JsValue.sort cmp l = l.
Proof.
  induction 1 as [|x t Hs IH Hx]; [reflexivity|].
  cbn [JsValue.sort]. rewrite IH.
  destruct t as [|y t']; [reflexivity|].
  apply Forall_cons_1 in Hx as [Hxy _]. unfold ranks_after in Hxy.
  cbn [JsValue.sort_insert]. now rewrite Hxy.
Qed.

Lemma sort_consistent_sorted (l : list A) :
  consistent_on cmp l ->
  StronglySorted (fun x y => ranks_after cmp x y = false) (JsValue.sort cmp l).
Proof.
  intro Hc.
  rewrite <- (indexed_from_untag l 0) at 1. rewrite <- sort_untag.
  apply StronglySorted_map.
  assert (Hs := sort_in_order cmp (combine (seq 0 (length l)) l)
                  (indexed_from_sorted l 0)).
  rewrite indexed_from_untag in Hs. specialize (Hs Hc).
  apply StronglySorted_In in Hs.
  eapply StronglySorted_weaken; [|exact Hs].
  cbn. intros x y (Hx & Hy & [Hb|(_ & Ha & _)]); [|exact Ha].
  assert (Hin : forall z, In z (JsValue.sort (tagged_cmp cmp)
                                  (combine (seq 0 (length l)) l)) ->
                          In (snd z) l).
  { intros z Hz. eapply Permutation_in in Hz; [|apply sort_perm].
    destruct z as [i z]. now apply in_combine_r in Hz. }
  apply (co_exclusive cmp l Hc); auto.
Qed.

End SortFixed.

(** X7: when the sort specs compare the records consistently, ordering
    is idempotent: ordering the ordered records once more changes
    nothing. *)
Theorem order_stage_idempotent (specs : list OrderSpec) (records : list Row) :
  consistent specs records = true ->
  orderStage specs (orderStage specs records) = orderStage specs records.
Proof.
  intro H. apply sort_sorted, sort_consistent_sorted.
  now apply consistent_sound.
Qed.

Lemma order_stage_idempotent_witness :
  let specs := [mkOrderSpec "a" "desc"; mkOrderSpec "b" "asc"] in
  orderStage specs (orderStage specs Sample.pairs) = orderStage specs Sample.pairs.
Proof.
  intros specs. apply (order_stage_idempotent specs Sample.pairs).
  vm_compute. reflexivity.
Defined.

(** Two records without a column read the same cell there, undefined or
    the member of [Object.prototype] of that name, and neither is below the
    other. *)
Lemma less_than_inherited (column : string) :
  JsValue.less_than (inherited column) (inherited column) = false.
Proof.
  unfold inherited. destruct (JsValue.prototype_lookup column) as [o|];
    [destruct o|]; reflexivity.
Qed.

Lemma compareRows_missing (specs : list OrderSpec) (a b : Row) :
  (forall spec, In spec specs ->
     a !! order_column spec = None /\ b !! order_column spec = None) ->
  compareRows specs a b = zero.
Proof.
  induction specs as [|spec rest IH]; intro H; [reflexivity|].
  cbn [compareRows]. unfold get.
  destruct (H spec) as [-> ->]; [now left|]. cbn zeta.
  rewrite less_than_inherited.
  apply IH. intros; apply H; now right.
Qed.

Lemma StronglySorted_all {A : Type} (R : A -> A -> Prop) (l : list A) :
  (forall x y, In x l -> In y l -> R x y) -> StronglySorted R l.
Proof.
  induction l as [|x t IH]; intro H; constructor.
  - apply IH. intros; apply H; now right.
  - apply List.Forall_forall. intros y Hy. apply H; [now left | now right].
Qed.

(** X8: sort specs that name only columns no record owns leave the
    records as they are: every comparison ties, and ties keep their
    order. *)
Theorem order_by_missing_columns (specs : list OrderSpec) (records : list Row) :
  (forall spec record, In spec specs -> In record records ->
     record !! order_column spec = None) ->
  orderStage specs records = records.
Proof.
  intro H. apply sort_sorted, StronglySorted_all.
  intros a b Ha Hb. unfold ranks_after.
  rewrite compareRows_missing; [reflexivity|].
  intros spec Hs. split; now apply H.
Qed.

Lemma order_by_missing_columns_witness :
  orderStage [mkOrderSpec "v" "desc"] Sample.pairs = Sample.pairs.
Proof.
  apply (order_by_missing_columns [mkOrderSpec "v" "desc"] Sample.pairs).
  intros spec record [<-|[]] [<-|[<-|[<-|[]]]]; reflexivity.
Defined.

(** X9: the order stage only rearranges: for every list of sort specs,
    also one whose comparator is inconsistent on the records, its output
    is a permutation of its input and has the same length. *)
Theorem order_stage_permutes (specs : list OrderSpec) (records : list Row) :
  Permutation (orderStage specs records) records /\
  length (orderStage specs records) = length records.
Proof.
  assert (H : Permutation (orderStage specs records) records)
    by apply sort_perm.
  split; [exact H | now apply Permutation_length].
Qed.

(** ** Records of distinct groups differ in a group-by field *)

Lemma NoDup_map_in {A B : Type} (f : A -> B) (l : list A) :
  (forall x y, In x l -> In y l -> f x = f y -> x = y) ->
  List.NoDup l -> List.NoDup (map f l).
Proof.
  intros Hinj Hnd. induction Hnd as [|x t Hx Hnd IH]; cbn; constructor.
  - intros Hin. apply in_map_iff in Hin as (y & Hy & Hin).
    apply Hx. rewrite (Hinj x y); auto; [now left | now right].
  - apply IH. intros a b Ha Hb. apply Hinj; now right.
Qed.

Lemma groupKey_text (groupBy : list string) (row : Row) :
  groupKey groupBy row
  = JsString.join "|" (map (fun col => JsValue.join_item (get row col)) groupBy).
Proof. unfold groupKey, JsValue.join. now rewrite List.map_map. Qed.

Lemma groupFields_proto (groupBy : list string) (key : string) :
  groupFields groupBy key !! "__proto__" = None.
Proof.
  apply not_elem_of_dom. rewrite groupFields_dom, elem_of_list_to_set,
    list_elem_of_In, In_fieldColumns. tauto.
Qed.

Lemma groupByFields_of_row (engine : Engine) (groupBy : list string)
  (aggs : option (list Aggregation)) (rows : list Row) (row record : Row) :
  Forall (fun col => bar_free (JsValue.join_item (get row col)) = true)
         groupBy ->
  (forall col, In col groupBy ->
     ~ In col (aggregateFields (elements aggs))) ->
  groupRecord engine groupBy aggs (groupKey groupBy row, rows) = Return record ->
  groupByFields groupBy record
  = map (fun col => if String.eqb col "__proto__" then None
                    else Some (SStr (JsValue.join_item (get row col))))
        groupBy.
Proof.
  intros Hfree Hnot Hrun. apply groupRecord_returns in Hrun as [_ Hl].
  apply map_ext_in. intros col Hcol. rewrite Hl by now apply Hnot.
  destruct (String.eqb col "__proto__") eqn:E.
  - apply String.eqb_eq in E. subst col. apply groupFields_proto.
  - apply String.eqb_neq in E. now apply groupFields_lookup.
Qed.

(** Rows with the same group-by fields have the same group key, when none
    of them owns a field [__proto__] that is grouped by. *)
Lemma same_fields_same_key (groupBy : list string) (row row' : Row) :
  (In "__proto__" groupBy ->
   row !! "__proto__" = None /\ row' !! "__proto__" = None) ->
  map (fun col => if String.eqb col "__proto__" then None
                  else Some (SStr (JsValue.join_item (get row col))))
      groupBy
  = map (fun col => if String.eqb col "__proto__" then None
                    else Some (SStr (JsValue.join_item (get row' col))))
        groupBy ->
  groupKey groupBy row = groupKey groupBy row'.
Proof.
  intros Hown Heq. rewrite !groupKey_text. f_equal.
  apply map_ext_in. intros col Hcol.
  assert (H := proj1 map_ext_in_iff Heq col Hcol). cbn beta in H.
  destruct (String.eqb col "__proto__") eqn:E.
  - apply String.eqb_eq in E. subst col.
    destruct (Hown Hcol) as [Hr Hr']. unfold get. now rewrite Hr, Hr'.
  - now injection H.
Qed.

Lemma NoDup_array_map {A B C : Type} (f : A -> outcome B) (g : B -> C)
  (l : list A) (out : list B) :
  array_map f l = Return out ->
  (forall x x' y y',
     In x l -> In x' l -> f x = Return y -> f x' = Return y' ->
     g y = g y' -> x = x') ->
  List.NoDup l -> List.NoDup (map g out).
Proof.
  intros Hrun Hinj Hnd. revert out Hrun.
  induction Hnd as [|x t Hx Hnd IH]; intros out; cbn.
  - intros [= <-]. constructor.
  - destruct (f x) as [y|] eqn:E; [|discriminate]. cbn.
    destruct (array_map f t) as [rest|] eqn:Et; [|discriminate]. cbn.
    intros [= <-]. cbn. constructor.
    + intros Hin. apply in_map_iff in Hin as (y' & Hy' & Hin).
      destruct (array_map_In _ _ _ _ Et Hin) as (x' & Hx' & Hfx').
      apply Hx. rewrite (Hinj x x' y y'); auto; [now left | now right].
    + apply IH; [|reflexivity]. intros a b ya yb Ha Hb. apply Hinj; now right.
Qed.

Lemma grouped_distinct (engine : Engine) (groupBy : list string)
  (aggs : option (list Aggregation)) (rows out : list Row) :
  groupStage engine groupBy aggs rows = Return out ->
  (forall row, In row rows ->
     Forall (fun col => bar_free (JsValue.join_item (get row col)) = true)
            groupBy) ->
  (forall col, In col groupBy ->
     ~ In col (aggregateFields (elements aggs))) ->
  (forall row, In row rows -> In "__proto__" groupBy ->
     row !! "__proto__" = None) ->
  List.NoDup (map (groupByFields groupBy) out).
Proof.
  intros Hrun Hfree Hnot Hown. apply groupStage_returns in Hrun as [_ Hrun].
  apply (NoDup_array_map _ _ _ _ Hrun).
  - intros e e' r r' He He' Hr Hr' Heq.
    apply in_map_iff in He as (k & <- & Hk), He' as (k' & <- & Hk').
    apply In_group_keys in Hk as (row & Hrow & <-).
    apply In_group_keys in Hk' as (row' & Hrow' & <-).
    rewrite (groupByFields_of_row _ _ _ _ _ _ (Hfree row Hrow) Hnot Hr),
      (groupByFields_of_row _ _ _ _ _ _ (Hfree row' Hrow') Hnot Hr') in Heq.
    apply same_fields_same_key in Heq; [now rewrite Heq|].
    intro Hp. split; now apply Hown.
  - apply NoDup_map_in; [|apply NoDup_group_keys].
    intros k k' _ _ Heq. now injection Heq.
Qed.

(** X10: no two records of a grouped output agree on all group-by fields,
    provided the group-by cells of the rows print without [|], no aggregate
    field bears the name of a group-by column and, when [__proto__] is a
    group-by column, no row owns a field of that name (a record gets no
    field [__proto__], so rows that differ there only would give records
    with the same group-by fields). *)
Theorem groups_are_distinct (engine : Engine) (rawData processed : list Row)
  (config : Config) :
  let columns := elements (selected groupBy config) in
  has_length (selected groupBy config) = true ->
  processData engine rawData config = Return processed ->
  (forall row, In row rawData ->
     Forall (fun col => bar_free (JsValue.join_item (get row col)) = true)
            columns) ->
  (forall col, In col columns ->
     ~ In col (aggregateFields (elements (selected aggregations config)))) ->
  (forall row, In row rawData -> In "__proto__" columns ->
     row !! "__proto__" = None) ->
  List.NoDup (map (groupByFields columns) processed).
Proof.
  cbv zeta. intros Hg H Hfree Hnot Hown.
  apply processData_stages in H as (grouped & Hgr & ->). rewrite Hg in Hgr.
  eapply Permutation_NoDup.
  - apply Permutation_map.
    instantiate (1 := grouped).
    destruct (has_length (selected orderBy config)); [|reflexivity].
    symmetry. apply sort_perm.
  - apply (grouped_distinct _ _ _ _ _ Hgr); [|exact Hnot|].
    + intros row Hrow. apply filter_In in Hrow as [Hrow _]. now apply Hfree.
    + intros row Hrow. apply filter_In in Hrow as [Hrow _]. now apply Hown.
Qed.

Lemma groups_are_distinct_witness :
  let config :=
    Sample.selection None (Some ["a"; "__proto__"; "b"]) None None in
  let processed : list Row :=
    [ <["b" := SStr "1"]> {["a" := SStr "1"]};
      <["b" := SStr "2"]> {["a" := SStr "1"]};
      <["b" := SStr "0"]> {["a" := SStr "2"]} ] in
  List.NoDup (map (groupByFields ["a"; "__proto__"; "b"]) processed).
Proof.
  intros config processed.
  apply (groups_are_distinct Sample.engine Sample.pairs processed config).
  - reflexivity.
  - vm_compute. reflexivity.
  - intros row [<-|[<-|[<-|[]]]]; repeat constructor.
  - intros col _ [].
  - intros row [<-|[<-|[<-|[]]]] _; reflexivity.
Defined.

(** ** Filter stage: cells that are not numbers *)

Lemma Prim2SF_nan (x : float) : is_nan x = true -> Prim2SF x = S754_nan.
Proof. intro H. unfold Prim2SF. now rewrite H. Qed.

Lemma float_compare_nan (x y : float) :
  is_nan x = true ->
  (x <? y)%float = false /\ (y <? x)%float = false /\
  (x <=? y)%float = false /\ (y <=? x)%float = false.
Proof.
  intro H. rewrite !ltb_spec, !leb_spec, (Prim2SF_nan x H).
  unfold SFltb, SFleb, SFcompare.
  now destruct (Prim2SF y) as [?|?| |? ? ?].
Qed.

(** X11: the filters [greater_than], [less_than] and [between] let no row
    through whose cell does not convert to a number ([Number(cell)] is
    NaN): a missing cell, text that is not a numeral, NaN itself. *)
Theorem comparison_filters_drop_non_numeric (filter : Filter) (row : Row) :
  In (filter_operator filter) ["greater_than"; "less_than"; "between"] ->
  is_nan (JsValue.to_number (get row (filter_column filter))) = true ->
  passes filter row = false.
Proof.
  intros Hop Hnan. unfold passes, filterPredicate.
  destruct filter as [column operator value]. cbn in Hop, Hnan |- *.
  destruct Hop as [<-|[<-|[<-|[]]]]; cbn.
  - destruct (float_compare_nan _ (JsValue.fto_number value) Hnan)
      as (_ & -> & _). reflexivity.
  - destruct (float_compare_nan _ (JsValue.fto_number value) Hnan)
      as (-> & _). reflexivity.
  - destruct (value_at value 0) as [low|]; cbn; [|reflexivity].
    destruct (float_compare_nan _ (JsValue.to_number low) Hnan)
      as (_ & _ & _ & ->). reflexivity.
Qed.

Lemma comparison_filters_drop_non_numeric_witness :
  passes (mkFilter "g" "less_than" (FScalar (Sample.num 100)))
         (<["v" := Sample.num 10]> {["g" := SStr "x"]})
  = false.
Proof.
  apply comparison_filters_drop_non_numeric.
  - right. left. reflexivity.
  - vm_compute. reflexivity.
Defined.

(** ** Group stage: the least and the greatest value *)

Lemma Prim2SF_zero (x : float) :
  is_nan x = false -> is_zero x = true -> exists s, Prim2SF x = S754_zero s.
Proof.
  intros Hn Hz. unfold Prim2SF. rewrite Hn, Hz. eauto.
Qed.

Lemma float_ltb_irrefl (x : float) : (x <? x)%float = false.
Proof.
  destruct (x <? x)%float eqn:E; [|reflexivity].
  now rewrite (float_ltb_asym _ _ E) in E.
Qed.

Lemma float_ltb_trans (x y z : float) :
  is_nan x = false -> is_nan y = false -> is_nan z = false ->
  (x <? y)%float = true -> (y <? z)%float = true -> (x <? z)%float = true.
Proof.
  intros Hx Hy Hz Hxy Hyz.
  destruct (x <? z)%float eqn:E; [reflexivity|].
  pose proof (float_ltb_negtrans y z x Hy Hz Hx (float_ltb_asym _ _ Hyz) E).
  congruence.
Qed.

Lemma float_ltb_zeros (v a b : float) :
  is_nan a = false -> is_nan b = false ->
  is_zero a = true -> is_zero b = true ->
  (v <? a)%float = (v <? b)%float /\ (a <? v)%float = (b <? v)%float.
Proof.
  intros Ha Hb Za Zb. rewrite !ltb_spec.
  destruct (Prim2SF_zero a Ha Za) as [sa ->], (Prim2SF_zero b Hb Zb) as [sb ->].
  unfold SFltb, SFcompare. now destruct (Prim2SF v) as [?|?| |? ? ?].
Qed.

Lemma float_not_below_infinity (x : float) :
  is_nan x = false -> (x <? infinity)%float = false -> x = infinity.
Proof.
  intros Hn H. apply Prim2SF_inj. rewrite ltb_spec in H.
  apply Prim2SF_not_nan in Hn.
  change (Prim2SF infinity) with (S754_infinity false) in *.
  unfold SFltb, SFcompare in H.
  destruct (Prim2SF x) as [?|[]| |[] ? ?]; try discriminate; congruence.
Qed.

Lemma float_not_above_neg_infinity (x : float) :
  is_nan x = false -> (neg_infinity <? x)%float = false -> x = neg_infinity.
Proof.
  intros Hn H. apply Prim2SF_inj. rewrite ltb_spec in H.
  apply Prim2SF_not_nan in Hn.
  change (Prim2SF neg_infinity) with (S754_infinity true) in *.
  unfold SFltb, SFcompare in H.
  destruct (Prim2SF x) as [?|[]| |[] ? ?]; try discriminate; congruence.
Qed.

Section LeastAndGreatest.

Let not_nan (values : list float) : Prop :=
  Forall (fun v => is_nan v = false) values.

Let min_step (lowest x : float) : float :=
  if is_nan lowest || is_nan x then nan
  else if is_zero x && get_sign x && is_zero lowest then x
  else if (x <? lowest)%float then x else lowest.

Let max_step (highest x : float) : float :=
  if is_nan highest || is_nan x then nan
  else if is_zero x && negb (get_sign x) && is_zero highest then x
  else if (highest <? x)%float then x else highest.

Lemma math_min_from (values seen : list float) (lowest : float) :
  not_nan values -> not_nan seen -> is_nan lowest = false ->
  (forall v, In v seen -> (v <? lowest)%float = false) ->
  In lowest seen \/ (seen = [] /\ lowest = infinity) ->
  let m := fold_left min_step values lowest in
  (forall v, In v (seen ++ values)%list -> (v <? m)%float = false) /\
  (In m (seen ++ values)%list \/ ((seen ++ values)%list = [] /\ m = infinity)).
Proof.
  revert seen lowest.
  induction values as [|x rest IH]; intros seen lowest Hv Hs Hn Hlow Hin.
  - cbn. rewrite app_nil_r. auto.
  - apply Forall_cons_1 in Hv as [Hx Hrest]. cbn [fold_left].
    replace (seen ++ x :: rest)%list with ((seen ++ [x]) ++ rest)%list
      by now rewrite <- app_assoc.
    assert (Hs' : not_nan (seen ++ [x])%list).
    { apply Forall_app. split; [exact Hs | now constructor]. }
    assert (Hstep : min_step lowest x
                    = if is_zero x && get_sign x && is_zero lowest then x
                      else if (x <? lowest)%float then x else lowest)
      by (unfold min_step; now rewrite Hn, Hx).
    rewrite Hstep. clear Hstep.
    destruct (is_zero x && get_sign x && is_zero lowest) eqn:Ez.
    + apply andb_true_iff in Ez as [Ez Zl]. apply andb_true_iff in Ez as [Zx _].
      apply IH; auto.
      * intros v [Hv|[<-|[]]]%in_app_or; [|apply float_ltb_irrefl].
        destruct (float_ltb_zeros v x lowest Hx Hn Zx Zl) as [-> _]. auto.
      * left. apply in_or_app. right. now left.
    + destruct (x <? lowest)%float eqn:Elt.
      * apply IH; auto.
        -- intros v [Hv|[<-|[]]]%in_app_or; [|apply float_ltb_irrefl].
           destruct (v <? x)%float eqn:E; [|reflexivity].
           assert (Hvn : is_nan v = false)
             by exact (proj1 (List.Forall_forall _ _) Hs v Hv).
           rewrite <- (Hlow v Hv). symmetry.
           now apply (float_ltb_trans v x lowest).
        -- left. apply in_or_app. right. now left.
      * apply IH; auto.
        -- intros v [Hv|[<-|[]]]%in_app_or; auto.
        -- left. apply in_or_app. destruct Hin as [Hin|[-> ->]].
           ++ now left.
           ++ right. left. now apply float_not_below_infinity.
Qed.

Lemma math_max_from (values seen : list float) (highest : float) :
  not_nan values -> not_nan seen -> is_nan highest = false ->
  (forall v, In v seen -> (highest <? v)%float = false) ->
  In highest seen \/ (seen = [] /\ highest = neg_infinity) ->
  let m := fold_left max_step values highest in
  (forall v, In v (seen ++ values)%list -> (m <? v)%float = false) /\
  (In m (seen ++ values)%list \/
   ((seen ++ values)%list = [] /\ m = neg_infinity)).
Proof.
  revert seen highest.
  induction values as [|x rest IH]; intros seen highest Hv Hs Hn Hhigh Hin.
  - cbn. rewrite app_nil_r. auto.
  - apply Forall_cons_1 in Hv as [Hx Hrest]. cbn [fold_left].
    replace (seen ++ x :: rest)%list with ((seen ++ [x]) ++ rest)%list
      by now rewrite <- app_assoc.
    assert (Hs' : not_nan (seen ++ [x])%list).
    { apply Forall_app. split; [exact Hs | now constructor]. }
    assert (Hstep : max_step highest x
                    = if is_zero x && negb (get_sign x) && is_zero highest
                      then x
                      else if (highest <? x)%float then x else highest)
      by (unfold max_step; now rewrite Hn, Hx).
    rewrite Hstep. clear Hstep.
    destruct (is_zero x && negb (get_sign x) && is_zero highest) eqn:Ez.
    + apply andb_true_iff in Ez as [Ez Zl]. apply andb_true_iff in Ez as [Zx _].
      apply IH; auto.
      * intros v [Hv|[<-|[]]]%in_app_or; [|apply float_ltb_irrefl].
        destruct (float_ltb_zeros v x highest Hx Hn Zx Zl) as [_ ->]. auto.
      * left. apply in_or_app. right. now left.
    + destruct (highest <? x)%float eqn:Elt.
      * apply IH; auto.
        -- intros v [Hv|[<-|[]]]%in_app_or; [|apply float_ltb_irrefl].
           destruct (x <? v)%float eqn:E; [|reflexivity].
           assert (Hvn : is_nan v = false)
             by exact (proj1 (List.Forall_forall _ _) Hs v Hv).
           rewrite <- (Hhigh v Hv). symmetry.
           now apply (float_ltb_trans highest x v).
        -- left. apply in_or_app. right. now left.
      * apply IH; auto.
        -- intros v [Hv|[<-|[]]]%in_app_or; auto.
        -- left. apply in_or_app. destruct Hin as [Hin|[-> ->]].
           ++ now left.
           ++ right. left. now apply float_not_above_neg_infinity.
Qed.

End LeastAndGreatest.

Lemma columnValues_not_nan (rows : list Row) (column : string) :
  Forall (fun v => is_nan v = false) (columnValues rows column).
Proof.
  apply List.Forall_forall. intros v Hv. unfold columnValues in Hv.
  apply filter_In in Hv as [_ Hv]. now apply negb_true_iff.
Qed.

Lemma overflows_min_max (engine : Engine) (rows : list Row) (column : string) :
  overflows engine rows (mkAggregation column "min")
  = (max_arguments engine <? length (columnValues rows column))%nat /\
  overflows engine rows (mkAggregation column "max")
  = (max_arguments engine <? length (columnValues rows column))%nat.
Proof. split; reflexivity. Qed.

(** X12: when a group has a numeric-coercible value in a column, its
    [min] and [max] aggregates of that column spread the values over the
    arguments of [Math.min] and [Math.max].  With more values than the
    engine takes arguments both raise a RangeError; otherwise they store
    two of these values, and no value of the group is below the [min] or
    above the [max]. *)
Theorem min_max_aggregates (engine : Engine) (rows : list Row) (result : Row)
  (column : string) :
  let values := columnValues rows column in
  values <> [] ->
  ((max_arguments engine < length values)%nat ->
   applyAggregation engine rows result (mkAggregation column "min")
   = Throw RangeError /\
   applyAggregation engine rows result (mkAggregation column "max")
   = Throw RangeError) /\
  ((length values <= max_arguments engine)%nat ->
   exists lowest highest,
     applyAggregation engine rows result (mkAggregation column "min")
     = Return (<[column ++ "_min" := SNum lowest]> result) /\
     applyAggregation engine rows result (mkAggregation column "max")
     = Return (<[column ++ "_max" := SNum highest]> result) /\
     In lowest values /\ In highest values /\
     forall v, In v values ->
       (v <? lowest)%float = false /\ (highest <? v)%float = false).
Proof.
  cbv zeta. intro Hne.
  destruct (overflows_min_max engine rows column) as [Omin Omax].
  rewrite !applyAggregation_spec, Omin, Omax. split.
  - intro Hlt. apply Nat.ltb_lt in Hlt. now rewrite Hlt.
  - intro Hle. apply Nat.ltb_ge in Hle. rewrite Hle.
    pose proof (columnValues_not_nan rows column) as Hnan.
    destruct (math_min_from (columnValues rows column) [] infinity)
      as [Hlow [Hin|[E _]]];
      [exact Hnan | constructor | reflexivity | intros ? [] | now right | |
       now destruct Hne].
    destruct (math_max_from (columnValues rows column) [] neg_infinity)
      as [Hhigh [Hin'|[E _]]];
      [exact Hnan | constructor | reflexivity | intros ? [] | now right | |
       now destruct Hne].
    cbn [app] in *.
    exists (JsValue.math_min (columnValues rows column)),
           (JsValue.math_max (columnValues rows column)).
    cbn [agg_function agg_column].
    change (aggregateValue "min" (columnValues rows column))
      with (Some (match columnValues rows column with
                  | [] => zero
                  | _ => JsValue.math_min (columnValues rows column)
                  end)).
    change (aggregateValue "max" (columnValues rows column))
      with (Some (match columnValues rows column with
                  | [] => zero
                  | _ => JsValue.math_max (columnValues rows column)
                  end)).
    destruct (columnValues rows column) as [|v0 vs] eqn:Ev; [congruence|].
    split; [reflexivity|]. split; [reflexivity|].
    split; [exact Hin|]. split; [exact Hin'|].
    intros v Hv. split; [now apply Hlow | now apply Hhigh].
Qed.

Lemma min_max_aggregates_witness :
  let values := columnValues Sample.sales "v" in
  let few := mkEngine 2 in
  ((max_arguments few < length values)%nat ->
   applyAggregation few Sample.sales ∅ (mkAggregation "v" "min")
   = Throw RangeError /\
   applyAggregation few Sample.sales ∅ (mkAggregation "v" "max")
   = Throw RangeError) /\
  ((length values <= max_arguments few)%nat ->
   exists lowest highest,
     applyAggregation few Sample.sales ∅ (mkAggregation "v" "min")
     = Return (<["v_min" := SNum lowest]> ∅) /\
     applyAggregation few Sample.sales ∅ (mkAggregation "v" "max")
     = Return (<["v_max" := SNum highest]> ∅) /\
     In lowest values /\ In highest values /\
     forall v, In v values ->
       (v <? lowest)%float = false /\ (highest <? v)%float = false).
Proof.
  apply (min_max_aggregates (mkEngine 2) Sample.sales ∅ "v").
  vm_compute. discriminate.
Defined.

(** * Properties of the code around the pipeline *)

(** ** Statistics *)

Lemma set_add_length (set : list scalar) (v : scalar) :
  (length set <= length (set_add set v) <= S (length set))%nat /\
  (1 <= length (set_add set v))%nat.
Proof.
  unfold set_add. destruct (JsValue.array_includes set v) eqn:E.
  - split; [lia|]. destruct set; [discriminate | cbn; lia].
  - rewrite length_app. cbn. lia.
Qed.

Lemma new_Set_length_from (values set : list scalar) :
  (length set <= length (fold_left set_add values set)
   <= length set + length values)%nat.
Proof.
  revert set. induction values as [|v rest IH]; intro set; cbn; [lia|].
  specialize (IH (set_add set v)).
  destruct (set_add_length set v) as [? _]. lia.
Qed.

Lemma new_Set_length (values : list scalar) :
  (length (new_Set values) <= length values)%nat /\
  (values <> [] -> 1 <= length (new_Set values))%nat.
Proof.
  unfold new_Set. split.
  - apply (new_Set_length_from values []).
  - destruct values as [|v rest]; [congruence|]. intros _. cbn [fold_left].
    pose proof (new_Set_length_from rest (set_add [] v)) as [H _].
    destruct (set_add_length [] v) as [_ ?]. lia.
Qed.

Lemma fold_insert_lookup {V : Type} (value : string -> V)
  (keys : list string) (acc : gmap string V) (key : string) :
  fold_left (fun (acc : gmap string V) k => <[k := value k]> acc) keys acc
  !! key
  = if decide (key ∈ keys) then Some (value key) else acc !! key.
Proof.
  revert acc. induction keys as [|k rest IH]; intro acc; cbn [fold_left].
  - destruct (decide (key ∈ [])) as [H|]; [|reflexivity].
    now apply elem_of_nil in H.
  - rewrite IH.
    destruct (decide (key ∈ rest)) as [Hr|Hr];
      destruct (decide (key ∈ k :: rest)) as [Hk|Hk]; try reflexivity.
    + exfalso. apply Hk. now right.
    + apply elem_of_cons in Hk as [->|]; [|contradiction].
      apply lookup_insert_eq.
    + apply lookup_insert_ne. intros ->. apply Hk. now left.
Qed.

Lemma elem_of_objectKeys (row : Row) (key : string) :
  key ∈ objectKeys row <-> is_Some (row !! key).
Proof.
  unfold objectKeys. rewrite list_elem_of_fmap. split.
  - intros ([k v] & -> & H). apply elem_of_map_to_list in H. now exists v.
  - intros [v H]. exists (key, v). split; [reflexivity|].
    now apply elem_of_map_to_list.
Qed.

Lemma uniqueValues_lookup (processedData : list Row) (key : string) :
  uniqueValues (statistics processedData) !! key
  = if decide (is_Some (first_or_empty processedData !! key))
    then Some (length (new_Set (map (fun row => get row key) processedData)))
    else None.
Proof.
  cbn [uniqueValues statistics].
  rewrite (fold_insert_lookup
             (fun key => length (new_Set (map (fun row => get row key)
                                              processedData)))).
  destruct (decide (key ∈ _)) as [H|H];
    destruct (decide (is_Some _)) as [H'|H']; try reflexivity.
  - apply elem_of_objectKeys in H. contradiction.
  - apply elem_of_objectKeys in H'. contradiction.
Qed.

(** X13: [uniqueValues] has entries only for the columns the first
    processed row owns, and every entry lies between 1 and [rowCount]. *)
Theorem unique_values_bounds (processedData : list Row) (key : string)
  (n : nat) :
  uniqueValues (statistics processedData) !! key = Some n ->
  is_Some (first_or_empty processedData !! key) /\
  (1 <= n <= rowCount (statistics processedData))%nat.
Proof.
  rewrite uniqueValues_lookup.
  destruct (decide (is_Some _)) as [H|H]; [|discriminate].
  intros [= <-]. split; [exact H|].
  cbn [rowCount statistics].
  destruct (new_Set_length (map (fun row => get row key) processedData))
    as [Hle Hge].
  rewrite length_map in Hle. split; [apply Hge | exact Hle].
  destruct processedData; [|discriminate].
  cbn in H. rewrite lookup_empty in H. now destruct H.
Qed.

Lemma unique_values_bounds_witness :
  is_Some (first_or_empty Sample.sales !! "g") /\
  (1 <= 2 <= rowCount (statistics Sample.sales))%nat.
Proof.
  apply (unique_values_bounds Sample.sales "g" 2).
  vm_compute. reflexivity.
Defined.

Lemma set_add_fresh (seen : list string) (s : string) :
  ~ In s seen ->
  set_add (map SStr seen) (SStr s) = map SStr (seen ++ [s])%list.
Proof.
  intro Hnot. unfold set_add, JsValue.array_includes.
  replace (existsb _ _) with false; [now rewrite List.map_app|].
  symmetry. apply not_true_is_false. intro H.
  apply existsb_exists in H as (item & Hin & Heq).
  apply in_map_iff in Hin as (s' & <- & Hin). cbn in Heq.
  apply String.eqb_eq in Heq. now subst.
Qed.

Lemma new_Set_distinct_from (strs seen : list string) :
  List.NoDup (seen ++ strs)%list ->
  fold_left set_add (map SStr strs) (map SStr seen)
  = map SStr (seen ++ strs)%list.
Proof.
  revert seen. induction strs as [|s rest IH]; intros seen Hnd; cbn.
  - now rewrite app_nil_r.
  - rewrite set_add_fresh.
    + rewrite IH; rewrite <- app_assoc; [reflexivity | exact Hnd].
    + apply List.NoDup_remove_2 in Hnd. intro H. apply Hnd, in_or_app.
      now left.
Qed.

Lemma new_Set_distinct (strs : list string) :
  List.NoDup strs -> new_Set (map SStr strs) = map SStr strs.
Proof. intro H. exact (new_Set_distinct_from strs [] H). Qed.

Lemma map_array_map {A B C : Type} (f : A -> outcome B) (g : B -> C)
  (h : A -> C) (l : list A) (out : list B) :
  array_map f l = Return out ->
  (forall x y, In x l -> f x = Return y -> g y = h x) ->
  map g out = map h l.
Proof.
  revert out. induction l as [|x t IH]; intros out; cbn.
  - now intros [= <-].
  - destruct (f x) as [y|] eqn:E; [|discriminate]. cbn.
    destruct (array_map f t) as [rest|]; [|discriminate]. cbn.
    intros [= <-] H. cbn. f_equal.
    + apply H; [now left | exact E].
    + apply IH; [reflexivity|]. intros; apply H; [now right | assumption].
Qed.

Lemma single_group_values (engine : Engine) (g : string)
  (aggs : option (list Aggregation)) (rows out : list Row) :
  g <> "__proto__" ->
  groupStage engine [g] aggs rows = Return out ->
  (forall row, In row rows ->
     bar_free (JsValue.join_item (get row g)) = true) ->
  ~ In g (aggregateFields (elements aggs)) ->
  map (fun record => record !! g) out
  = map (fun k => Some (SStr k))
        (key_order (first_seen (map (groupKey [g]) rows))).
Proof.
  intros Hg Hrun Hfree Hnot. apply groupStage_returns in Hrun as [_ Hrun].
  rewrite (map_array_map _ _ (fun entry => Some (SStr (fst entry))) _ _ Hrun).
  - now rewrite List.map_map.
  - intros [k members] record Hin Hrec. cbn [fst].
    apply in_map_iff in Hin as (k' & [= <- <-] & Hk).
    apply In_group_keys in Hk as (row & Hrow & <-).
    apply groupRecord_returns in Hrec as [_ Hl]. rewrite Hl by exact Hnot.
    rewrite groupFields_lookup; [reflexivity | now left | exact Hg |].
    constructor; [now apply Hfree | constructor].
Qed.

(** X14: after grouping by a single column [g] other than [__proto__],
    the statistics count as many unique values of [g] as there are
    records: [uniqueValues[g]] equals [rowCount], provided the output is
    not empty, the cells of [g] print without [|] and no aggregate field is
    named [g]. *)
Theorem unique_values_of_group_column (engine : Engine)
  (rawData processed : list Row) (config : Config) (g : string) :
  selected groupBy config = Some [g] ->
  g <> "__proto__" ->
  processData engine rawData config = Return processed ->
  processed <> [] ->
  (forall row, In row rawData ->
     bar_free (JsValue.join_item (get row g)) = true) ->
  ~ In g (aggregateFields (elements (selected aggregations config))) ->
  uniqueValues (statistics processed) !! g
  = Some (rowCount (statistics processed)).
Proof.
  intros Hg Hproto H Hne Hfree Hnot.
  apply processData_stages in H as (grouped & Hgr & Hout).
  rewrite Hg in Hgr. cbn [has_length elements] in Hgr.
  assert (Hperm : Permutation processed grouped).
  { rewrite Hout. destruct (has_length (selected orderBy config));
      [apply sort_perm | reflexivity]. }
  apply (Permutation_map (fun record : Row => record !! g)) in Hperm.
  rewrite (single_group_values _ _ _ _ _ Hproto Hgr) in Hperm; [|
    intros row Hrow; apply filter_In in Hrow as [Hrow _]; now apply Hfree |
    exact Hnot].
  apply Permutation_map_inv in Hperm as (ks & Hks & Hksperm).
  assert (Hnd : List.NoDup ks).
  { eapply Permutation_NoDup; [exact Hksperm | apply NoDup_group_keys]. }
  assert (Hget : map (fun row : Row => get row g) processed = map SStr ks).
  { clear -Hks. revert ks Hks.
    induction processed as [|r t IH]; intros [|k ks]; cbn; try discriminate;
      [reflexivity|].
    intros [= Hr Ht]. unfold get at 1. rewrite Hr. f_equal. now apply IH. }
  rewrite uniqueValues_lookup.
  destruct (decide (is_Some _)) as [_|Hno].
  - rewrite Hget, new_Set_distinct by exact Hnd.
    cbn [rowCount statistics]. f_equal.
    now rewrite <- (length_map (fun row : Row => get row g)), Hget.
  - exfalso. apply Hno.
    destruct processed as [|r t]; [congruence|].
    destruct ks as [|k ks]; [discriminate|].
    injection Hks as Hr _. cbn. rewrite Hr. eauto.
Qed.

Lemma unique_values_of_group_column_witness :
  let config :=
    Sample.selection None (Some ["g"]) (Some [mkAggregation "v" "sum"]) None in
  let processed : list Row :=
    [ <["v_sum" := Sample.num 30]> {["g" := SStr "x"]};
      <["v_sum" := Sample.num 5]> {["g" := SStr "y"]} ] in
  uniqueValues (statistics processed) !! "g"
  = Some (rowCount (statistics processed)).
Proof.
  intros config processed.
  apply (unique_values_of_group_column Sample.engine Sample.sales processed
           config "g").
  - reflexivity.
  - discriminate.
  - vm_compute. reflexivity.
  - discriminate.
  - intros row [<-|[<-|[<-|[]]]]; reflexivity.
  - intros [H|[]]. discriminate H.
Defined.

Lemma fold_count_zero {A : Type} (f : A -> nat) (l : list A) (count : nat) :
  fold_left (fun count x => (count + f x)%nat) l count = 0%nat
  <-> count = 0%nat /\ forall x, In x l -> f x = 0%nat.
Proof.
  revert count. induction l as [|x t IH]; intro count; cbn [fold_left].
  - split; [intros ->; split; [reflexivity | intros ? []] | now intros [-> _]].
  - rewrite IH. split.
    + intros [H Ht]. split; [lia|]. intros y [<-|Hy]; [lia | now apply Ht].
    + intros [-> H]. split.
      * rewrite (H x); [reflexivity | now left].
      * intros y Hy. apply H. now right.
Qed.

(** X15: [nullValues] is zero exactly when no row owns a cell that is
    null, undefined or the empty text; a column a row does not own is not
    counted. *)
Theorem null_values_zero_iff (processedData : list Row) :
  nullValues (statistics processedData) = 0%nat
  <-> forall row key val,
        In row processedData -> row !! key = Some val -> is_blank val = false.
Proof.
  cbn [nullValues statistics]. rewrite fold_count_zero. split.
  - intros [_ H] row key val Hrow Hval.
    specialize (H row Hrow). apply length_zero_iff_nil in H.
    apply not_true_is_false. intro Hb.
    assert (Hin : In val (List.filter is_blank (objectValues row))).
    { apply filter_In. split; [|exact Hb].
      unfold objectValues. apply list_elem_of_In, list_elem_of_fmap.
      exists (key, val). split; [reflexivity|].
      now apply elem_of_map_to_list. }
    rewrite H in Hin. destruct Hin.
  - intros H. split; [reflexivity|]. intros row Hrow.
    apply length_zero_iff_nil.
    destruct (List.filter is_blank (objectValues row)) as [|val rest] eqn:E;
      [reflexivity|].
    assert (Hin : In val (List.filter is_blank (objectValues row)))
      by (rewrite E; now left).
    apply filter_In in Hin as [Hin Hb].
    unfold objectValues in Hin.
    apply list_elem_of_In, list_elem_of_fmap in Hin as ([key v] & -> & Hin).
    apply elem_of_map_to_list in Hin. cbn in Hb.
    rewrite (H row key v Hrow Hin) in Hb. discriminate.
Qed.

(** ** Export file name *)

Lemma has_space_app (a b : string) :
  has_space (a ++ b) = has_space a || has_space b.
Proof.
  induction a as [|c t IH]; [reflexivity|].
  change (String c t ++ b) with (String c (t ++ b)).
  cbn [has_space]. now rewrite IH, orb_assoc.
Qed.

Lemma replace_runs_no_space (in_run : bool) (s : string) :
  has_space (replace_runs in_run s) = false.
Proof.
  revert in_run. induction s as [|c t IH]; intro in_run; [reflexivity|].
  cbn [replace_runs]. destruct (JsNumber.is_space c) eqn:E.
  - destruct in_run; [apply IH|]. cbn [has_space]. rewrite IH. reflexivity.
  - cbn [has_space]. rewrite E, IH. reflexivity.
Qed.

Lemma replace_runs_fixed (in_run : bool) (s : string) :
  has_space s = false -> replace_runs in_run s = s.
Proof.
  revert in_run. induction s as [|c t IH]; intros in_run; [reflexivity|].
  cbn [has_space replace_runs]. intros [Hc Ht]%orb_false_iff.
  rewrite Hc. f_equal. now apply IH.
Qed.

Lemma has_space_substring (s : string) (n m : nat) :
  has_space s = false -> has_space (substring n m s) = false.
Proof.
  revert n m. induction s as [|c t IH]; intros n m H.
  - now destruct n, m.
  - cbn [has_space] in H. apply orb_false_iff in H as [Hc Ht].
    destruct n as [|n]; cbn [substring].
    + destruct m as [|m]; [reflexivity|]. cbn [has_space].
      now rewrite Hc, IH.
    + now apply IH.
Qed.

Lemma digit_char_no_space (d : Z) :
  0 <= d < 10 -> JsNumber.is_space (JsNumber.digit_char d) = false.
Proof.
  intros H.
  assert (Hd : d = 0 \/ d = 1 \/ d = 2 \/ d = 3 \/ d = 4 \/ d = 5 \/ d = 6 \/
               d = 7 \/ d = 8 \/ d = 9) by lia.
  repeat (destruct Hd as [->|Hd]; [reflexivity|]). now subst.
Qed.

Lemma digits_aux_no_space (fuel : nat) (z : Z) (acc : string) :
  has_space acc = false -> has_space (JsNumber.digits_aux fuel z acc) = false.
Proof.
  revert z acc. induction fuel as [|f IH]; intros z acc H; [exact H|].
  cbn [JsNumber.digits_aux].
  assert (H' : has_space (String (JsNumber.digit_char (z mod 10)) acc) = false).
  { cbn [has_space]. rewrite digit_char_no_space, H; [reflexivity|].
    apply Z.mod_pos_bound. lia. }
  destruct (z <? 10); [exact H' | now apply IH].
Qed.

Lemma digits_no_space (z : Z) : has_space (JsNumber.digits z) = false.
Proof. now apply digits_aux_no_space. Qed.

Lemma zeros_no_space (n : nat) : has_space (JsNumber.zeros n) = false.
Proof. induction n as [|n IH]; [reflexivity | exact IH]. Qed.

Lemma exponent_part_no_space (n : Z) :
  has_space (JsNumber.exponent_part n) = false.
Proof.
  unfold JsNumber.exponent_part. rewrite !has_space_app, digits_no_space.
  now destruct (0 <=? n - 1).
Qed.

Lemma format_no_space (n k s : Z) : has_space (JsNumber.format n k s) = false.
Proof.
  unfold JsNumber.format.
  repeat match goal with
         | |- context [if ?c then _ else _] => destruct c
         end;
    rewrite ?has_space_app, ?exponent_part_no_space, ?zeros_no_space,
      ?digits_no_space, ?has_space_substring by apply digits_no_space;
    reflexivity.
Qed.

Lemma to_string_no_space (x : float) :
  has_space (JsNumber.to_string x) = false.
Proof.
  unfold JsNumber.to_string.
  destruct (is_nan x); [reflexivity|].
  destruct (is_zero x); [reflexivity|].
  destruct (is_infinity x); [now destruct (get_sign x)|].
  destruct (JsNumber.to_ratio x) as [[p q]|]; [|reflexivity].
  destruct (JsNumber.shortest _ _ _ _ _ _) as [[n k] s].
  rewrite has_space_app, format_no_space. now destruct (get_sign x).
Qed.

(** X16: the file name of an export holds no white space, whatever the
    name of the analysis and the time stamp, for each of the five formats
    the route accepts; a name without white space is taken over
    unchanged. *)
Theorem export_file_name_has_no_whitespace (name : string) (now : float)
  (format : string) :
  In format export_formats ->
  has_space (exportFileName name now format) = false /\
  (has_space name = false ->
   exportFileName name now format
   = name ++ "_" ++ JsNumber.to_string now ++ "." ++ format).
Proof.
  intro Hf. unfold exportFileName, replace_whitespace. split.
  - rewrite !has_space_app, replace_runs_no_space, to_string_no_space.
    cbn in Hf. repeat (destruct Hf as [<-|Hf]; [reflexivity|]). destruct Hf.
  - intro H. now rewrite replace_runs_fixed.
Qed.

Lemma export_file_name_has_no_whitespace_witness :
  let name := "Q3  sales report" in
  let now := JsNumber.of_Z 1700000000000 in
  has_space (exportFileName name now "png") = false /\
  (has_space name = false ->
   exportFileName name now "png"
   = name ++ "_" ++ JsNumber.to_string now ++ "." ++ "png").
Proof.
  intros name now.
  apply (export_file_name_has_no_whitespace name now "png").
  left. reflexivity.
Defined.

(** ** Chart type counts *)

Section ChartTypes.

Let step (chartTypeCounts : gmap string nat) (type : scalar)
  : gmap string nat :=
  if truthy type then
    <[JsValue.to_string type :=
        (default 0 (chartTypeCounts !! JsValue.to_string type) + 1)%nat]>
      chartTypeCounts
  else chartTypeCounts.

Lemma count_step (counts : gmap string nat) (type : scalar) (key : string) :
  default 0%nat (step counts type !! key)
  = (default 0 (counts !! key)
     + if truthy type && String.eqb (JsValue.to_string type) key
       then 1 else 0)%nat.
Proof.
  unfold step. destruct (truthy type); cbn [andb]; [|lia].
  destruct (String.eqb_spec (JsValue.to_string type) key) as [->|Hne].
  - now rewrite lookup_insert_eq.
  - rewrite lookup_insert_ne by exact Hne. lia.
Qed.

Lemma count_fold (types : list scalar) (counts : gmap string nat)
  (key : string) :
  default 0%nat (fold_left step types counts !! key)
  = (default 0 (counts !! key) + occurrences key types)%nat.
Proof.
  revert counts. induction types as [|type rest IH]; intro counts;
    cbn [fold_left].
  - unfold occurrences. cbn. lia.
  - rewrite IH, count_step. unfold occurrences. cbn [List.filter].
    destruct (truthy type && _); cbn [length]; lia.
Qed.

Lemma positive_step (counts : gmap string nat) (type : scalar) :
  map_Forall (fun _ n => (0 < n)%nat) counts ->
  map_Forall (fun _ n => (0 < n)%nat) (step counts type).
Proof.
  intro H. unfold step. destruct (truthy type); [|exact H].
  apply map_Forall_insert_2; [lia | exact H].
Qed.

Lemma positive_fold (types : list scalar) (counts : gmap string nat) :
  map_Forall (fun _ n => (0 < n)%nat) counts ->
  map_Forall (fun _ n => (0 < n)%nat) (fold_left step types counts).
Proof.
  revert counts. induction types as [|type rest IH]; intros counts H;
    [exact H|].
  cbn [fold_left]. now apply IH, positive_step.
Qed.

Lemma total_insert (counts : gmap string nat) (key : string) (n : nat) :
  (total (<[key := n]> counts) + default 0 (counts !! key)
   = total counts + n)%nat.
Proof.
  unfold total.
  assert (Hcomm : forall (m : gmap string nat) (i : string) (x : nat),
            m !! i = None ->
            map_fold (fun _ n acc => (n + acc)%nat) 0%nat (<[i := x]> m)
            = (x + map_fold (fun _ n acc => (n + acc)%nat) 0%nat m)%nat).
  { intros m i x Hm.
    apply (map_fold_insert_L (fun _ n acc => (n + acc)%nat)); [|exact Hm].
    intros; lia. }
  destruct (counts !! key) as [old|] eqn:E; cbn [default from_option id].
  - rewrite <- (insert_delete_eq counts key n).
    rewrite Hcomm by apply lookup_delete_eq.
    rewrite <- (insert_delete_id counts key old E) at 2.
    rewrite Hcomm by apply lookup_delete_eq. lia.
  - rewrite Hcomm by exact E. lia.
Qed.

Lemma total_step (counts : gmap string nat) (type : scalar) :
  total (step counts type)
  = (total counts + if truthy type then 1 else 0)%nat.
Proof.
  unfold step. destruct (truthy type); [|lia].
  pose proof (total_insert counts (JsValue.to_string type)
                (default 0 (counts !! JsValue.to_string type) + 1)%nat).
  lia.
Qed.

Lemma total_fold (types : list scalar) (counts : gmap string nat) :
  total (fold_left step types counts)
  = (total counts + length (List.filter truthy types))%nat.
Proof.
  revert counts. induction types as [|type rest IH]; intro counts;
    cbn [fold_left List.filter].
  - cbn. lia.
  - rewrite IH, total_step. destruct (truthy type); cbn [length]; lia.
Qed.

End ChartTypes.

(** X17: the chart type counts have one entry for every text that a
    truthy entry of the distribution reads, holding the number of such
    entries; there is no entry for any other key, none for null,
    undefined or the empty text, and the counts add up to the number of
    truthy entries. *)
Theorem chart_type_counts (chartTypeDistribution : list scalar) :
  let counts := countChartTypes chartTypeDistribution in
  (forall key,
     counts !! key
     = match occurrences key chartTypeDistribution with
       | O => None
       | n => Some n
       end) /\
  total counts = length (List.filter truthy chartTypeDistribution).
Proof.
  cbv zeta. unfold countChartTypes. split.
  - intro key.
    pose proof (count_fold chartTypeDistribution ∅ key) as H.
    pose proof (positive_fold chartTypeDistribution ∅ (map_Forall_empty _)) as Hp.
    rewrite lookup_empty, Nat.add_0_l in H. cbn [default from_option id] in H.
    destruct (fold_left _ _ _ !! key) as [n|] eqn:E; cbn [default from_option id] in H.
    + apply Hp in E. rewrite <- H. destruct n; [lia | reflexivity].
    + now rewrite <- H.
  - rewrite total_fold. unfold total. now rewrite map_fold_empty.
Qed.

(** ** Formatted processing time *)

Lemma labels_checked_from_spec (count : nat) (start t : Z) :
  labels_checked_from count start = true ->
  start <= t < start + Z.of_nat count ->
  label_checked t = true.
Proof.
  revert start. induction count as [|c IH]; intros start H Ht; [lia|].
  cbn [labels_checked_from] in H. apply andb_true_iff in H as [H0 H].
  destruct (Z.eq_dec t start) as [->|Hne]; [exact H0|].
  apply (IH (start + 1)); [exact H | lia].
Qed.

Lemma labels_checked : labels_checked_from (Z.to_nat 60000) 0 = true.
Proof. vm_compute. reflexivity. Qed.

(** X18: the label of a processing time of [t] whole milliseconds,
    [0 <= t < 60000]: below one second it is [t] in decimal followed by
    [ms]; from one second on it is a number of seconds with exactly one
    decimal, followed by [s], and that number is within 50 ms of [t]. *)
Theorem processing_time_label (t : Z) :
  0 <= t < 60000 ->
  let label := processingTimeFormatted (JsNumber.of_Z t) in
  (t < 1000 -> label = JsNumber.digits t ++ "ms") /\
  (1000 <= t ->
   exists n, label = tenths n ++ "s" /\ Z.abs (100 * n - t) <= 50).
Proof.
  intros Ht label.
  assert (Hc : label_checked t = true).
  { apply (labels_checked_from_spec (Z.to_nat 60000) 0);
      [exact labels_checked | lia]. }
  unfold label_checked in Hc. fold label in Hc. split.
  - intro Hlt. apply Z.ltb_lt in Hlt. rewrite Hlt in Hc.
    now apply String.eqb_eq.
  - intro Hge. destruct (Z.ltb_spec t 1000) as [|_]; [lia|].
    pose proof (Z.mod_pos_bound t 100 ltac:(lia)) as Hm.
    pose proof (Z.div_mod t 100 ltac:(lia)) as Hd.
    apply orb_true_iff in Hc as [Hc|Hc];
      apply andb_true_iff in Hc as [Hl Hr];
      apply String.eqb_eq in Hl; apply Z.leb_le in Hr.
    + exists (t / 100). split; [exact Hl | lia].
    + exists (t / 100 + 1). split; [exact Hl | lia].
Qed.

Lemma processing_time_label_witness :
  let label := processingTimeFormatted (JsNumber.of_Z 1234) in
  (1234 < 1000 -> label = JsNumber.digits 1234 ++ "ms") /\
  (1000 <= 1234 ->
   exists n, label = tenths n ++ "s" /\ Z.abs (100 * n - 1234) <= 50).
Proof.
  apply (processing_time_label 1234). lia.
Defined.

(** ** The worked examples of the specification *)

(** [greater_than 1] on [[{a:1},{a:2},{a:3}]] keeps [[{a:2},{a:3}]]. *)
Example filter_greater_than :
  processData Sample.engine Sample.abc
    (Sample.selection
       (Some [mkFilter "a" "greater_than" (FScalar (Sample.num 1))])
       None None None)
  = Return [ {["a" := Sample.num 2]}; {["a" := Sample.num 3]} ].
Proof. vm_compute. reflexivity. Qed.

(** [between [2,3]] includes both endpoints. *)
Example filter_between_inclusive :
  processData Sample.engine Sample.abc
    (Sample.selection
       (Some [mkFilter "a" "between" (FArr [Sample.num 2; Sample.num 3])])
       None None None)
  = Return [ {["a" := Sample.num 2]}; {["a" := Sample.num 3]} ].
Proof. vm_compute. reflexivity. Qed.

(** [between] with no bounds at all raises: [value[0]] on null. *)
Example filter_between_without_bounds :
  processData Sample.engine Sample.abc
    (Sample.selection (Some [mkFilter "a" "between" (FScalar SNull)])
       None None None)
  = Throw TypeError.
Proof. vm_compute. reflexivity. Qed.

(** Grouping by [g] and summing [v]: the group column comes back as text,
    the sum as a number. *)
Example group_and_sum :
  processData Sample.engine Sample.sales
    (Sample.selection None (Some ["g"]) (Some [mkAggregation "v" "sum"]) None)
  = Return [ <["v_sum" := Sample.num 30]> {["g" := SStr "x"]};
             <["v_sum" := Sample.num 5]> {["g" := SStr "y"]} ].
Proof. vm_compute. reflexivity. Qed.

(** Median of [1,2,3,4] is 2.5 and of [1,2,3] is 2. *)
Example median_parity :
  median (map JsNumber.of_Z [1; 2; 3; 4]) = JsNumber.of_decimal false 25 (-1) /\
  median (map JsNumber.of_Z [1; 2; 3]) = JsNumber.of_Z 2.
Proof. vm_compute. split; reflexivity. Qed.

(** On an empty list of values the median and the standard deviation are
    NaN, the other aggregates 0. *)
Example aggregates_of_nothing :
  map (fun fn => aggregateValue fn []) recognized_functions
  = [Some zero; Some zero; Some zero; Some zero; Some zero; Some nan; Some nan].
Proof. vm_compute. reflexivity. Qed.

(** Sorting [[{a:1,b:1},{a:1,b:2},{a:2,b:0}]] by [a] keeps the two [a:1]
    records in input order, ascending and descending. *)
Example sort_is_stable :
  processData Sample.engine Sample.pairs
    (Sample.selection None None None (Some [mkOrderSpec "a" "asc"]))
  = Return Sample.pairs /\
  processData Sample.engine Sample.pairs
    (Sample.selection None None None (Some [mkOrderSpec "a" "desc"]))
  = Return [ <["b" := Sample.num 0]> {["a" := Sample.num 2]};
             <["b" := Sample.num 1]> {["a" := Sample.num 1]};
             <["b" := Sample.num 2]> {["a" := Sample.num 1]} ].
Proof. vm_compute. split; reflexivity. Qed.

(** Null, blank text and booleans are coercible: they count as 0, 0, 0, 1
    and 0. *)
Example coercible_without_digits :
  coercible [SNull; SStr ""; SStr " "; SBool true; SBool false; SUndef;
             SStr "n/a"]
  = [zero; zero; zero; one; zero].
Proof. vm_compute. reflexivity. Qed.

(** Numbers print and parse as in JavaScript. *)
Example number_round_trip :
  map (fun s => JsNumber.to_string (JsNumber.of_string s))
      ["5"; " 12.5 "; ""; "abc"; "0x1F"; "1e3"; ".5"; "-0"; "1e21"; "1e-7";
       "0.1"; "9007199254740993"; "Infinity"; "12px"]
  = ["5"; "12.5"; "0"; "NaN"; "31"; "1000"; "0.5"; "0"; "1e+21"; "1e-7";
     "0.1"; "9007199254740992"; "Infinity"; "NaN"].
Proof. vm_compute. reflexivity. Qed.

(** ** Worked examples for inherited members and the engine's bound *)

(** A row without a column [toString] reads the inherited function there:
    it prints as the function's text, is no number, and is loosely equal
    to that text only. *)
Example inherited_member_read :
  let row : Row := {["a" := Sample.num 1]} in
  get row "toString" = SObj PToString /\
  JsValue.to_string (get row "toString")
  = "function toString() { [native code] }" /\
  is_nan (JsValue.to_number (get row "toString")) = true /\
  JsValue.loose_equals (get row "toString")
    (SStr "function toString() { [native code] }") = true /\
  JsValue.loose_equals (get row "toString") SNull = false /\
  get row "b" = SUndef /\
  get (<["toString" := SNull]> row) "toString" = SNull.
Proof.
  vm_compute.
  split; [reflexivity|]. split; [reflexivity|]. split; [reflexivity|].
  split; [reflexivity|]. split; [reflexivity|]. split; reflexivity.
Qed.

(** A group key that [Object.prototype] has raises a TypeError: grouping
    [[{g:'x'},{g:'constructor'}]] by [g]. *)
Example group_key_constructor :
  processData Sample.engine
    [ {["g" := SStr "x"]}; {["g" := SStr "constructor"]} ]
    (Sample.selection None (Some ["g"]) None None)
  = Throw TypeError.
Proof. vm_compute. reflexivity. Qed.

(** Grouping by a column [constructor] that no row owns gives one record,
    whose field holds the text of the inherited function. *)
Example group_by_inherited_column :
  processData Sample.engine Sample.abc
    (Sample.selection None (Some ["constructor"]) None None)
  = Return [ {["constructor" := SStr "function Object() { [native code] }"]} ].
Proof. vm_compute. reflexivity. Qed.

(** [min] over three values on an engine that takes two arguments raises
    a RangeError; [sum] over the same values does not, and neither does
    [min] on an engine that takes three. *)
Example min_spreads_its_values :
  let config fn :=
    Sample.selection None (Some ["g"]) (Some [mkAggregation "a" fn]) None in
  processData (mkEngine 2) Sample.abc (config "min") = Throw RangeError /\
  processData (mkEngine 2) Sample.abc (config "sum")
  = Return [ <["a_sum" := Sample.num 6]> {["g" := SStr ""]} ] /\
  processData (mkEngine 3) Sample.abc (config "min")
  = Return [ <["a_min" := Sample.num 1]> {["g" := SStr ""]} ].
Proof. vm_compute. split; [reflexivity|]. split; reflexivity. Qed.

(** ** Worked examples for the code around the pipeline *)

(** A [between] filter without bounds does not raise when an earlier
    filter has dropped every row. *)
Example between_unreached :
  processData Sample.engine Sample.abc
    (Sample.selection
       (Some [mkFilter "a" "greater_than" (FScalar (Sample.num 3));
              mkFilter "a" "between" (FScalar SNull)])
       None None None)
  = Return [].
Proof. vm_compute. reflexivity. Qed.

(** [Math.min] takes the negative zero for the least of the two zeros and
    [Math.max] the positive one. *)
Example min_max_of_zeros :
  map (fun values => (JsValue.math_min values, JsValue.math_max values))
      [ [zero; neg_zero]; [neg_zero; zero]; [infinity]; [neg_infinity] ]
  = [ (neg_zero, zero); (neg_zero, zero); (infinity, infinity);
      (neg_infinity, neg_infinity) ].
Proof. vm_compute. reflexivity. Qed.

(** The statistics of [[{g:'x',v:10},{g:'x',v:20},{g:'y',v:5}]]. *)
Example statistics_of_sales :
  statistics Sample.sales
  = {| rowCount := 3; columnCount := 2; nullValues := 0;
       uniqueValues := <["v" := 3%nat]> {["g" := 2%nat]} |}.
Proof. vm_compute. reflexivity. Qed.

(** Only the columns of the first row are counted; [nullValues] counts
    the null and empty cells of every row. *)
Example statistics_first_row_only :
  statistics [ {["a" := SNull]};
               <["b" := SStr ""]> {["a" := SNull]};
               {["b" := Sample.num 1]} ]
  = {| rowCount := 3; columnCount := 1; nullValues := 3;
       uniqueValues := {["a" := 2%nat]} |}.
Proof. vm_compute. reflexivity. Qed.

(** Runs of white space in the name become one underscore each. *)
Example export_file_name :
  exportFileName "Q3  sales report" (JsNumber.of_Z 1700000000000) "png"
  = "Q3_sales_report_1700000000000.png".
Proof. vm_compute. reflexivity. Qed.

(** Labels of some processing times; 1050 ms and 1150 ms both read
    [1.1s]. *)
Example processing_time_labels :
  map (fun t => processingTimeFormatted (JsNumber.of_Z t))
      [0; 999; 1000; 1050; 1150; 59949; 59950; 60000; 90000]
  = ["0ms"; "999ms"; "1.0s"; "1.1s"; "1.1s"; "59.9s"; "60.0s"; "1.0m"; "1.5m"].
Proof. vm_compute. reflexivity. Qed.

(** [toFixed] rounds the exact value of the double: [1.005] is below
    1.005 and [0.005] above 0.005. *)
Example to_fixed_rounding :
  map (toFixed 2)
      [JsNumber.of_decimal false 1005 (-3); JsNumber.of_decimal true 5 (-3);
       neg_zero; JsNumber.of_decimal false 1 21; nan]
  = ["1.00"; "-0.01"; "0.00"; "1e+21"; "NaN"].
Proof. vm_compute. reflexivity. Qed.

(** Null, undefined and the empty text are not counted. *)
Example chart_types_counted :
  countChartTypes [SStr "bar"; SNull; SStr "line"; SStr "bar"; SUndef; SStr ""]
  = <["line" := 1%nat]> {["bar" := 2%nat]}.
Proof. vm_compute. reflexivity. Qed.
